(** * Agentic RAG: the retrieval / rerank / grounding pipeline

    A shallow embedding of the Python package [agentic_rag]
    (chunking.py, retrieval.py, reranking.py, grounding.py, models.py,
    embeddings.py, indexing.py, config.py and the query command of
    cli.py) together with the properties its specification states about
    it.

    Conventions of the embedding:
    - Python [int] is [Z]; Python [float] is the IEEE 754 binary64 type
      [float] of the kernel; [str] is [string], read as a sequence of
      8-bit code points; [Optional[T]] is [option T].
    - a [set] is a [gset], a [dict] used as a map is a [gmap];
    - a loop over a sequence is a structural recursion over the list
      that threads the loop's local variables. *)

From Stdlib Require Import ZArith String Ascii List Lia Bool PrimFloat.
From Stdlib Require Import Sorting.Sorted Sorting.Permutation.
From Stdlib Require SpecFloat FloatAxioms.
From stdpp Require Import base option list gmap sets strings pretty.

Set Warnings "-register-all".

Open Scope string_scope.
Open Scope list_scope.
Open Scope Z_scope.

(* ===================================================================== *)
(** * Python string helpers *)
(* ===================================================================== *)

(** [str.isspace] on the code points below 256: TAB, LF, VT, FF, CR,
    FS, GS, RS, US, SPACE, NEL and NBSP. *)
Definition is_space (c : ascii) : bool :=
  let n := nat_of_ascii c in
  (Nat.leb 9 n && Nat.leb n 13) || (Nat.leb 28 n && Nat.leb n 32)
  || Nat.eqb n 133 || Nat.eqb n 160.

(** [text.split()]: maximal runs of non-whitespace characters.
    [word] is the run being read. *)
Fixpoint split_from (word : string) (text : string) : list string :=
  match text with
  | EmptyString => if String.eqb word "" then [] else [word]
  | String c rest =>
      if is_space c
      then (if String.eqb word "" then split_from "" rest
            else word :: split_from "" rest)
      else split_from (word +:+ String c "") rest
  end.

Definition py_split (text : string) : list string := split_from "" text.

(** [sep.join(parts)]. *)
Fixpoint py_join (sep : string) (parts : list string) : string :=
  match parts with
  | [] => ""
  | [p] => p
  | p :: rest => p +:+ sep +:+ py_join sep rest
  end.

(** [text.strip()]. *)
Fixpoint lstrip (text : string) : string :=
  match text with
  | EmptyString => ""
  | String c rest => if is_space c then lstrip rest else text
  end.

Definition string_rev (text : string) : string :=
  string_of_list_ascii (rev (list_ascii_of_string text)).

Definition py_strip (text : string) : string :=
  string_rev (lstrip (string_rev (lstrip text))).

(** [dict.fromkeys(xs)] read back as a sequence: the first occurrence
    of every element, in order. *)
Fixpoint fromkeys (xs : list string) (seen_keys : list string) : list string :=
  match xs with
  | [] => []
  | x :: rest =>
      if bool_decide (x ∈ seen_keys) then fromkeys rest seen_keys
      else x :: fromkeys rest (x :: seen_keys)
  end.

(** [f"{n:04d}"]: decimal, zero-padded to four characters, the sign
    counted in the width. *)
Fixpoint zeros (n : nat) : string :=
  match n with
  | O => ""
  | S n' => "0" +:+ zeros n'
  end.

Definition format_04d (n : Z) : string :=
  let digits := pretty (Z.abs n) in
  let sign := if n <? 0 then "-" else "" in
  sign +:+ zeros (4 - String.length sign - String.length digits) +:+ digits.

(* ===================================================================== *)
(** * models.py *)
(* ===================================================================== *)

(** [class DocumentBlock]. *)
Record DocumentBlock : Type := mkDocumentBlock {
  page : Z;
  kind : string;
  text : string
}.

(** [class DocumentRevision]. *)
Record DocumentRevision : Type := mkDocumentRevision {
  doc_id : string;
  rev_ : string;
  title : option string;
  effective_date : option string;
  allowed_groups : list string;
  source_url : string;
  blocks : list DocumentBlock;
  owner : option string;
  tags : list string;
  hash : option string
}.

(** The [metadata] dictionary of a chunk,
    [{"chunk_index": chunk_index, "title": doc.title}]. *)
Record ChunkMetadata : Type := mkChunkMetadata {
  md_chunk_index : Z;
  md_title : option string
}.

(** [class Chunk]. *)
Record Chunk : Type := mkChunk {
  ch_chunk_id : string;
  ch_doc_id : string;
  ch_rev : string;
  ch_text : string;
  ch_page_start : Z;
  ch_page_end : Z;
  ch_section_path : option string;
  ch_token_count : Z;
  ch_allowed_groups : list string;
  ch_source_url : string;
  ch_metadata : ChunkMetadata
}.

(* ===================================================================== *)
(** * chunking.py *)
(* ===================================================================== *)

(** [_estimate_tokens]: [max(1, int(words * 1.3))]. The product is a
    binary64 product truncated towards zero; for every word count a text
    can have it is the integer [13 * words / 10] rounded down, which is
    what is written here. *)
Definition _estimate_tokens (text : string) : Z :=
  let words := Z.of_nat (length (py_split text)) in
  Z.max 1 (13 * words / 10).

(** [class ChunkingConfig], with its defaults. *)
Record ChunkingConfig : Type := mkChunkingConfig {
  target_tokens : Z;
  overlap_tokens : Z;
  max_tokens : Z
}.

Definition default_config : ChunkingConfig :=
  {| target_tokens := 500; overlap_tokens := 75; max_tokens := 800 |}.

(** [sum(_estimate_tokens(block.text) for block in buffer)]. *)
Fixpoint block_tokens (buffer : list DocumentBlock) : Z :=
  match buffer with
  | [] => 0
  | block :: rest => _estimate_tokens (text block) + block_tokens rest
  end.

(** Truthiness of a list. *)
Definition nonempty {A : Type} (l : list A) : bool :=
  match l with
  | [] => false
  | _ :: _ => true
  end.

(** The loop of [_tail_within_tokens] over [reversed(blocks)]; [tail]
    is built in reverse document order. *)
Fixpoint tail_loop (max_tokens : Z) (reversed_blocks : list DocumentBlock)
    (tail : list DocumentBlock) (total : Z) : list DocumentBlock :=
  match reversed_blocks with
  | [] => tail
  | block :: rest =>
      let tokens := _estimate_tokens (text block) in
      if (max_tokens <? total + tokens) && nonempty tail then tail   (* break *)
      else tail_loop max_tokens rest (tail ++ [block]) (total + tokens)
  end.

(** [_tail_within_tokens]. *)
Definition _tail_within_tokens (blocks : list DocumentBlock) (max_tokens : Z)
    : list DocumentBlock :=
  rev (tail_loop max_tokens (rev blocks) [] 0).

(** [_build_section_path]. *)
Definition _build_section_path (blocks : list DocumentBlock) : option string :=
  let headings :=
    map (λ block, py_strip (text block))
        (filter (λ block, kind block = "heading") blocks) in
  if nonempty headings then Some (py_join " > " (fromkeys headings []))
  else None.

(** [min(block.page for block in buffer)] and its [max] twin, for a
    buffer with first block [first]. *)
Definition min_page (first : DocumentBlock) (others : list DocumentBlock) : Z :=
  fold_left (λ m block, Z.min m (page block)) others (page first).

Definition max_page (first : DocumentBlock) (others : list DocumentBlock) : Z :=
  fold_left (λ m block, Z.max m (page block)) others (page first).

(** The variables that the closure [flush] shares with [chunk_document]. *)
Record chunker_state : Type := mkChunkerState {
  chunks : list Chunk;
  buffer : list DocumentBlock;
  buffer_tokens : Z;
  chunk_index : Z
}.

Section ChunkDocument.

Variable doc : DocumentRevision.
Variable config : ChunkingConfig.

(** The [Chunk(...)] that [flush] builds from the buffer. *)
Definition make_chunk (index : Z) (first : DocumentBlock)
    (others : list DocumentBlock) : Chunk :=
  let buffer := first :: others in
  let chunk_text := py_join (String "010" "") (map text buffer) in
  {| ch_chunk_id := doc_id doc +:+ ":" +:+ rev_ doc +:+ ":" +:+ format_04d index;
     ch_doc_id := doc_id doc;
     ch_rev := rev_ doc;
     ch_text := chunk_text;
     ch_page_start := min_page first others;
     ch_page_end := max_page first others;
     ch_section_path := _build_section_path buffer;
     ch_token_count := _estimate_tokens chunk_text;
     ch_allowed_groups := allowed_groups doc;
     ch_source_url := source_url doc;
     ch_metadata := {| md_chunk_index := index; md_title := title doc |} |}.

(** [flush(force)]. *)
Definition flush (force : bool) (st : chunker_state) : chunker_state :=
  match buffer st with
  | [] => st
  | first :: others =>
      if negb force && (buffer_tokens st <? target_tokens config) then st
      else
        let buffer' := _tail_within_tokens (buffer st) (overlap_tokens config) in
        {| chunks := chunks st ++ [make_chunk (chunk_index st) first others];
           buffer := buffer';
           buffer_tokens := block_tokens buffer';
           chunk_index := chunk_index st + 1 |}
  end.

(** The body of [for block in doc.blocks]. *)
Definition chunk_step (st : chunker_state) (block : DocumentBlock) : chunker_state :=
  let st1 := {| chunks := chunks st;
                buffer := buffer st ++ [block];
                buffer_tokens := buffer_tokens st + _estimate_tokens (text block);
                chunk_index := chunk_index st |} in
  let st2 := if target_tokens config <=? buffer_tokens st1
             then flush false st1 else st1 in
  if max_tokens config <=? buffer_tokens st2 then flush true st2 else st2.

Definition chunker_init : chunker_state :=
  {| chunks := []; buffer := []; buffer_tokens := 0; chunk_index := 0 |}.

Definition chunk_loop (bs : list DocumentBlock) (st : chunker_state) : chunker_state :=
  fold_left chunk_step bs st.

End ChunkDocument.

(** [chunk_document(doc, config=None)]. *)
Definition chunk_document (doc : DocumentRevision) (config : option ChunkingConfig)
    : list Chunk :=
  let config := default default_config config in
  chunks (flush doc config true (chunk_loop doc config (blocks doc) chunker_init)).

(** Sample documents used by the examples below. *)
Definition sample_doc (bs : list DocumentBlock) : DocumentRevision :=
  {| doc_id := "SOP-7"; rev_ := "B"; title := Some "Handling";
     effective_date := None; allowed_groups := ["ops"];
     source_url := "https://docs.example/sop-7"; blocks := bs;
     owner := None; tags := []; hash := None |}.

Definition paragraph (p : Z) (t : string) : DocumentBlock :=
  {| page := p; kind := "paragraph"; text := t |}.

Definition tight_config : ChunkingConfig :=
  {| target_tokens := 2; overlap_tokens := 1; max_tokens := 3 |}.

(* ===================================================================== *)
(** * Specification vocabulary for the chunker *)
(* ===================================================================== *)

(** The chunk [c] is the run [bs] of whole blocks, joined by newlines,
    and [bs] is a contiguous, non-empty part of [done]. *)
Definition chunk_of_run (done : list DocumentBlock) (c : Chunk)
    (bs : list DocumentBlock) : Prop :=
  (∃ before after, done = before ++ bs ++ after) ∧
  bs ≠ [] ∧
  ch_text c = py_join (String "010" "") (map text bs).

(** A block small enough for the budget [config]: on its own it does
    not reach the target, and a text of as many words as the estimates
    of a buffer below the target and of the block add up to has an
    estimate within the maximum. *)
Definition fits (config : ChunkingConfig) (block : DocumentBlock) : Prop :=
  _estimate_tokens (text block) < target_tokens config ∧
  13 * (target_tokens config + _estimate_tokens (text block) - 1) / 10
    ≤ max_tokens config.

(** The state of the chunker between two blocks, when every block
    consumed so far fits the budget. *)
Definition chunker_inv (config : ChunkingConfig)
    (done : list DocumentBlock) (st : chunker_state) : Prop :=
  (∃ before, done = before ++ buffer st) ∧
  buffer_tokens st = block_tokens (buffer st) ∧
  (buffer st = [] ∨ block_tokens (buffer st) < target_tokens config) ∧
  ∀ c, c ∈ chunks st →
       ch_token_count c ≤ max_tokens config ∧
       ∃ bs, chunk_of_run done c bs ∧ block_tokens bs < max_tokens config.

(** The bound as the specification words it: the chunk is within
    [max_tokens], or it is one block whose own estimate exceeds it. *)
Definition within_max_or_oversized_block (doc : DocumentRevision)
    (config : ChunkingConfig) (c : Chunk) : Prop :=
  ch_token_count c ≤ max_tokens config ∨
  ∃ b, b ∈ blocks doc ∧ ch_text c = text b ∧
       max_tokens config < _estimate_tokens (text b).

(** A document of seven blocks of one word each, and a budget that
    each of them fits as far as the running estimate goes. *)
Definition seven_words : list DocumentBlock :=
  [paragraph 1 "a"; paragraph 1 "b"; paragraph 1 "c"; paragraph 1 "d";
   paragraph 2 "e"; paragraph 2 "f"; paragraph 2 "g"].

Definition narrow_config : ChunkingConfig :=
  {| target_tokens := 7; overlap_tokens := 1; max_tokens := 8 |}.

(* ===================================================================== *)
(** * More vocabulary for the chunker: runs of blocks *)
(* ===================================================================== *)

(** A run is a non-empty buffer, given by its first block and the
    others; [run_blocks] is the buffer. *)
Abbreviation run := (DocumentBlock * list DocumentBlock)%type.

Definition run_blocks (r : run) : list DocumentBlock := fst r :: snd r.

(** The chunks that [flush] builds from a sequence of runs, numbered
    from zero. *)
Definition chunks_of_runs (doc : DocumentRevision) (runs : list run) : list Chunk :=
  imap (λ i r, make_chunk doc (Z.of_nat i) (fst r) (snd r)) runs.

(** [bs] is a contiguous part of [l]. *)
Definition contiguous_in (bs l : list DocumentBlock) : Prop :=
  ∃ before after, l = before ++ bs ++ after.

(** The end of [r1] is the start of [r2]: a non-empty list of blocks is
    both a suffix of the first run and a prefix of the second. *)
Definition overlaps (r1 r2 : list DocumentBlock) : Prop :=
  ∃ shared, shared ≠ [] ∧ shared `suffix_of` r1 ∧ shared `prefix_of` r2.

(** The state of the chunker between two blocks, for any document and
    any configuration; [runs] are the buffers flushed so far. *)
Definition runs_inv (doc : DocumentRevision) (done : list DocumentBlock)
    (st : chunker_state) (runs : list run) : Prop :=
  buffer st `suffix_of` done ∧
  buffer_tokens st = block_tokens (buffer st) ∧
  chunks st = chunks_of_runs doc runs ∧
  chunk_index st = Z.of_nat (length runs) ∧
  (∀ r, r ∈ runs → contiguous_in (run_blocks r) done) ∧
  (∀ b, b ∈ done → b ∈ buffer st ∨ ∃ r, r ∈ runs ∧ b ∈ run_blocks r) ∧
  (∀ r, last runs = Some r →
        buffer st ≠ [] ∧
        ∃ shared, shared ≠ [] ∧ shared `suffix_of` run_blocks r ∧
                  shared `prefix_of` buffer st) ∧
  (∀ i r1 r2, runs !! i = Some r1 → runs !! S i = Some r2 →
              overlaps (run_blocks r1) (run_blocks r2)).

(** The number of words of the blocks of a buffer. *)
Fixpoint block_words (buffer : list DocumentBlock) : Z :=
  match buffer with
  | [] => 0
  | block :: rest => Z.of_nat (length (py_split (text block))) + block_words rest
  end.

(** The run was flushed one block after its buffer was still small:
    without its last block it holds at most one block, or its running
    estimate is below [target_tokens]. *)
Definition one_block_past_target (config : ChunkingConfig) (r : run) : Prop :=
  ∃ before last,
    run_blocks r = before ++ [last] ∧
    ((length before ≤ 1)%nat ∨ block_tokens before < target_tokens config).

(** The buffer between two blocks is small in the same sense. *)
Definition small_buffer (config : ChunkingConfig) (st : chunker_state) : Prop :=
  (length (buffer st) ≤ 1)%nat ∨
  block_tokens (buffer st) < target_tokens config.

(** The state of the chunker after the runs [earlier] have been
    flushed and the buffer has been cut down to blocks of [recent]:
    [later] are the runs flushed since, all of them within [recent]. *)
Definition later_inv (doc : DocumentRevision) (earlier : list run)
    (recent : list DocumentBlock) (st : chunker_state) (later : list run) : Prop :=
  chunks st = chunks_of_runs doc (earlier ++ later) ∧
  chunk_index st = Z.of_nat (length (earlier ++ later)) ∧
  buffer st `suffix_of` recent ∧
  ∀ r, r ∈ later → contiguous_in (run_blocks r) recent.

(** The run [r] is a buffer that the loop flushed while it consumed
    [done]: the buffer as it stood when some block [b] had just been
    appended, or the tail that a flush had just kept of that buffer. *)
Definition flushed_at (doc : DocumentRevision) (config : ChunkingConfig)
    (done : list DocumentBlock) (r : run) : Prop :=
  ∃ pre b post,
    done = pre ++ b :: post ∧
    let grown := buffer (chunk_loop doc config pre chunker_init) ++ [b] in
    run_blocks r = grown ∨
    run_blocks r = _tail_within_tokens grown (overlap_tokens config).

(** The run [r] is a buffer that [chunk_document] flushed: in the loop,
    or at the end of the document. *)
Definition flushed_from (doc : DocumentRevision) (config : ChunkingConfig)
    (r : run) : Prop :=
  flushed_at doc config (blocks doc) r ∨
  run_blocks r = buffer (chunk_loop doc config (blocks doc) chunker_init).
(* ===================================================================== *)
(** * retrieval.py *)
(* ===================================================================== *)

(** JSON-shaped values, as produced by [response.json()] and
    [json.loads], and as sent in a request body. An object keeps its
    members in insertion order, with distinct keys. *)
Inductive Json : Type :=
| JNull
| JBool (b : bool)
| JInt (z : Z)
| JFloat (f : float)
| JStr (s : string)
| JList (l : list Json)
| JObj (fields : list (string * Json)).

(** [d.get(key)] and [d[key] = value] on an insertion-ordered dict. *)
Fixpoint dict_get (key : string) (d : list (string * Json)) : option Json :=
  match d with
  | [] => None
  | (k, v) :: rest => if String.eqb k key then Some v else dict_get key rest
  end.

Fixpoint dict_set (key : string) (value : Json) (d : list (string * Json))
    : list (string * Json) :=
  match d with
  | [] => [(key, value)]
  | (k, v) :: rest =>
      if String.eqb k key then (k, value) :: rest
      else (k, v) :: dict_set key value rest
  end.

(** Truthiness of a JSON-shaped value ([if value:], [value or default]). *)
Definition truthy (v : Json) : bool :=
  match v with
  | JNull => false
  | JBool b => b
  | JInt z => negb (z =? 0)
  | JFloat f => negb (PrimFloat.eqb f 0%float)
  | JStr s => negb (String.eqb s "")
  | JList l => nonempty l
  | JObj fields => nonempty fields
  end.

(** A call either returns or raises. *)
Inductive outcome (A : Type) : Type :=
| Returned (a : A)
| Raised (exception : string).
Arguments Returned {A} a.
Arguments Raised {A} exception.

Definition bind {A B : Type} (o : outcome A) (k : A → outcome B) : outcome B :=
  match o with
  | Returned a => k a
  | Raised e => Raised e
  end.

(** [[f(x) for x in xs]] where [f] may raise. *)
Fixpoint for_each {A B : Type} (f : A → outcome B) (xs : list A) : outcome (list B) :=
  match xs with
  | [] => Returned []
  | x :: rest =>
      bind (f x) (λ y, bind (for_each f rest) (λ ys, Returned (y :: ys)))
  end.

(** [class SearchResult]. Fields are typed as the dataclass annotates
    them, except [metadata], which holds whatever [json.loads] returned. *)
Record SearchResult : Type := mkSearchResult {
  sr_chunk_id : string;
  sr_doc_id : string;
  sr_rev : string;
  sr_text : string;
  sr_score : float;
  sr_section_path : option string;
  sr_page_start : option Z;
  sr_page_end : option Z;
  sr_source_url : string;
  sr_allowed_groups : list string;
  sr_metadata : Json;
  sr_highlights : option string
}.

(** The attributes of [AzureSearchRetriever] that [retrieve] reads. *)
Record AzureSearchRetriever : Type := mkRetriever {
  index_name : string;
  _select_fields : list string;
  _semantic_configuration : option string;
  _vector_field : string
}.

(** The default of [select_fields]. *)
Definition default_select_fields : list string :=
  ["id"; "doc_id"; "rev"; "text"; "section_path"; "page_start"; "page_end";
   "source_url"; "allowed_groups"; "metadata_json"].

(** One clause of the ACL filter,
    [f"allowed_groups/any(g: g eq '{group}')"]. *)
Definition clause_prefix : string := "allowed_groups/any(g: g eq '".

Definition group_clause (group : string) : string :=
  clause_prefix +:+ group +:+ "')".

(** [_filter_for_groups]. *)
Definition _filter_for_groups (user_groups : list string) : option string :=
  if nonempty user_groups
  then Some (py_join " or " (map group_clause user_groups))
  else None.

(** The request body that [retrieve] posts, given the query vector. *)
Definition request_body (self : AzureSearchRetriever) (query : string)
    (user_groups : list string) (top_k : Z) (vector : list float)
    : list (string * Json) :=
  let body :=
    [("search", JStr query);
     ("top", JInt top_k);
     ("select", JStr (py_join "," (_select_fields self)));
     ("includeTotalResultCount", JBool false);
     ("vectors", JList [JObj [("value", JList (map JFloat vector));
                              ("fields", JStr (_vector_field self));
                              ("k", JInt top_k)]])] in
  let filter_clause := _filter_for_groups user_groups in
  let body :=
    match filter_clause with
    | Some clause =>
        if String.eqb clause "" then body
        else dict_set "filter" (JStr clause) body
    | None => body
    end in
  match _semantic_configuration self with
  | Some name =>
      if String.eqb name "" then body
      else dict_set "semanticConfiguration" (JStr name)
             (dict_set "queryType" (JStr "semantic") body)
  | None => body
  end.

(** One record of the backend's response that is a JSON object, read
    as [raw.get(...)] reads it: [None] is a missing member. The members
    whose run-time type the code inspects or converts ([metadata_json],
    [@search.score], [@search.highlights]) are kept as JSON values. *)
Record RawRecord : Type := mkRawRecord {
  raw_id : option string;
  raw_doc_id : option string;
  raw_rev : option string;
  raw_text : option string;
  raw_score : option Json;
  raw_section_path : option string;
  raw_page_start : option Z;
  raw_page_end : option Z;
  raw_source_url : option string;
  raw_allowed_groups : option (list string);
  raw_metadata_json : option Json;
  raw_highlights : option Json
}.

(** What the loop draws from [payload.get("value", [])]: a JSON
    object, or any other value, on which [raw.get] raises
    [AttributeError]. *)
Inductive RawItem : Type :=
| RawObject (raw : RawRecord)
| RawOther.

(** The member ["value"] of the payload as [for raw in ...] iterates
    it: the elements of a list (a dict or a string iterate over their
    keys or characters, none of them an object), or a value that cannot
    be iterated ([null], a bool or a number). *)
Inductive PayloadValue : Type :=
| ValueItems (items : list RawItem)
| ValueNotIterable.

(** The payload [response.json()]: an object, with its member
    ["value"] if it has one, or another value, on which [payload.get]
    raises [AttributeError]. *)
Inductive Payload : Type :=
| PayloadObject (value : option PayloadValue)
| PayloadOther.

(** The strings of a list of JSON strings; [None] if another value is
    among them. *)
Fixpoint all_strings (vs : list Json) : option (list string) :=
  match vs with
  | [] => Some []
  | JStr s :: rest => option_map (cons s) (all_strings rest)
  | _ :: _ => None
  end.

(** [" ... ".join(highlight_values)] for a truthy [highlight_values]:
    a list must hold strings only, a string is joined character by
    character, a dict by its keys, and anything else is not iterable. *)
Definition join_highlights (highlight_values : Json) : outcome string :=
  match highlight_values with
  | JList vs =>
      match all_strings vs with
      | Some fragments => Returned (py_join " ... " fragments)
      | None => Raised "TypeError"
      end
  | JStr s =>
      Returned (py_join " ... "
                  (map (λ c, String c "") (list_ascii_of_string s)))
  | JObj fields => Returned (py_join " ... " (map fst fields))
  | _ => Raised "TypeError"
  end.

Section Normalization.

(** [json.loads] on a string. It raises [JSONDecodeError] on a text
    that is not JSON; it can also raise another exception
    ([RecursionError] on a deeply nested text, [ValueError] on an
    integer literal above the digit limit). *)
Variable json_loads : string → outcome Json.
(** [float(n)] for an [int]; [None] is [OverflowError]. *)
Variable float_of_int : Z → option float.
(** [float(s)] for a [str]; [None] is [ValueError]. *)
Variable float_of_str : string → option float.

(** [float(value)]. *)
Definition py_float (value : Json) : outcome float :=
  match value with
  | JFloat f => Returned f
  | JInt z =>
      match float_of_int z with
      | Some f => Returned f
      | None => Raised "OverflowError"
      end
  | JBool b => Returned (if b then 1%float else 0%float)
  | JStr s =>
      match float_of_str s with
      | Some f => Returned f
      | None => Raised "ValueError"
      end
  | JNull | JList _ | JObj _ => Raised "TypeError"
  end.

(** The [metadata_dict] of a record; [except json.JSONDecodeError]
    catches that exception and no other. *)
Definition metadata_of (raw : RawRecord) : outcome Json :=
  match raw_metadata_json raw with
  | Some (JStr metadata) =>
      if String.eqb metadata "" then Returned (JObj [])
      else match json_loads metadata with
           | Returned parsed => Returned parsed
           | Raised e =>
               if String.eqb e "JSONDecodeError"
               then Returned (JObj [("raw", JStr metadata)])
               else Raised e
           end
  | _ => Returned (JObj [])
  end.

(** The [highlight] of a record. *)
Definition highlight_of (raw : RawRecord) : outcome (option string) :=
  match default (JObj []) (raw_highlights raw) with
  | JObj highlights =>
      let highlight_values :=
        match dict_get "text" highlights with
        | Some v => if truthy v then v else JList []
        | None => JList []
        end in
      if truthy highlight_values
      then bind (join_highlights highlight_values) (λ s, Returned (Some s))
      else Returned None
  | _ => Returned None
  end.

(** The body of [for raw in payload.get("value", [])], for a [raw]
    that is an object. *)
Definition normalize_record (raw : RawRecord) : outcome SearchResult :=
  bind (metadata_of raw) (λ metadata_dict,
  bind (highlight_of raw) (λ highlight,
  bind (py_float (default (JFloat 0%float) (raw_score raw))) (λ score,
  Returned
    {| sr_chunk_id := default "" (raw_id raw);
       sr_doc_id := default "" (raw_doc_id raw);
       sr_rev := default "" (raw_rev raw);
       sr_text := default "" (raw_text raw);
       sr_score := score;
       sr_section_path := raw_section_path raw;
       sr_page_start := raw_page_start raw;
       sr_page_end := raw_page_end raw;
       sr_source_url := default "" (raw_source_url raw);
       sr_allowed_groups := default [] (raw_allowed_groups raw);
       sr_metadata := metadata_dict;
       sr_highlights := highlight |}))).

(** The body of the loop for any item: its first statement,
    [raw.get("metadata_json")], raises on an item that is not an
    object. *)
Definition normalize_item (item : RawItem) : outcome SearchResult :=
  match item with
  | RawObject raw => normalize_record raw
  | RawOther => Raised "AttributeError"
  end.

(** The items that [for raw in payload.get("value", [])] iterates. *)
Definition payload_items (payload : Payload) : outcome (list RawItem) :=
  match payload with
  | PayloadObject value =>
      match default (ValueItems []) value with
      | ValueItems items => Returned items
      | ValueNotIterable => Raised "TypeError"
      end
  | PayloadOther => Raised "AttributeError"
  end.

(** The normalisation loop of [retrieve]. *)
Definition normalize_payload (payload : Payload) : outcome (list SearchResult) :=
  bind (payload_items payload) (for_each normalize_item).

(** The embedding provider and the HTTP round trip
    ([post] followed by [raise_for_status] and [json]). *)
Variable embed : list string → outcome (list (list float)).
Variable post : string → list (string * Json) → outcome Payload.

(** [retrieve(query, user_groups, *, top_k)]. *)
Definition retrieve (self : AzureSearchRetriever) (query : string)
    (user_groups : list string) (top_k : Z) : outcome (list SearchResult) :=
  bind (embed [query]) (λ vectors,
  match vectors with
  | [] => Raised "IndexError"
  | vector :: _ =>
      let body := request_body self query user_groups top_k vector in
      bind (post ("/indexes/" +:+ index_name self
                  +:+ "/docs/search?api-version=2023-11-01") body)
           normalize_payload
  end).

End Normalization.

(* ===================================================================== *)
(** * Specification vocabulary for the retriever *)
(* ===================================================================== *)

(** ** Reading a filter the way the search backend does

    The filters that the retriever emits lie in a small fragment of the
    backend's filter language: a disjunction, with [ or ], of clauses
    [allowed_groups/any(g: g eq '<literal>')]. A string literal runs
    from its opening quote to the next single quote that is not doubled;
    a doubled quote stands for one quote character. *)

Definition quote : ascii := "'"%char.

(** [strip_prefix p s]: what follows [p] in [s], if [s] starts with [p]. *)
Fixpoint strip_prefix (p s : string) : option string :=
  match p, s with
  | EmptyString, _ => Some s
  | String a p', String b s' =>
      if Ascii.eqb a b then strip_prefix p' s' else None
  | String _ _, EmptyString => None
  end.

(** The literal that starts right after an opening quote, and what
    follows its closing quote; [None] if the literal is not closed. *)
Fixpoint read_literal (s : string) : option (string * string) :=
  match s with
  | EmptyString => None
  | String c rest =>
      if Ascii.eqb c quote then
        match rest with
        | String c' rest' =>
            if Ascii.eqb c' quote
            then option_map (λ '(lit, after), (String quote lit, after))
                            (read_literal rest')
            else Some ("", rest)
        | EmptyString => Some ("", "")
        end
      else option_map (λ '(lit, after), (String c lit, after))
                      (read_literal rest)
  end.

(** The literals of the clauses of a filter, in order; [None] if the
    text is not a disjunction of such clauses. [fuel] bounds the number
    of clauses. *)
Fixpoint read_clauses (fuel : nat) (s : string) : option (list string) :=
  match fuel with
  | O => None
  | S fuel' =>
      match strip_prefix clause_prefix s with
      | None => None
      | Some s1 =>
          match read_literal s1 with
          | None => None
          | Some (lit, s2) =>
              match strip_prefix ")" s2 with
              | None => None
              | Some s3 =>
                  if String.eqb s3 "" then Some [lit]
                  else match strip_prefix " or " s3 with
                       | None => None
                       | Some s4 =>
                           option_map (cons lit) (read_clauses fuel' s4)
                       end
              end
          end
      end
  end.

Definition read_filter (filter : string) : option (list string) :=
  read_clauses (String.length filter) filter.

(** Whether a record with the given [allowed_groups] passes the filter;
    [None] if the backend rejects the filter as malformed. *)
Definition filter_admits (filter : string) (allowed : list string) : option bool :=
  option_map (existsb (λ lit, bool_decide (lit ∈ allowed))) (read_filter filter).

(** The two group lists have a member in common. *)
Definition intersects (user_groups allowed : list string) : bool :=
  existsb (λ group, bool_decide (group ∈ allowed)) user_groups.

(** The group identifier holds no single quote. *)
Fixpoint quote_free (group : string) : bool :=
  match group with
  | EmptyString => true
  | String c rest => negb (Ascii.eqb c quote) && quote_free rest
  end.

(** A group identifier that closes its literal and opens a clause of
    its own. *)
Definition forged_group : string := "x') or allowed_groups/any(g: g eq 'admin".

(** ** Records that are anomalous only in the ways the retriever absorbs *)

(** [@search.score] is missing, a float, or an int that [float] converts. *)
Definition score_well_typed (float_of_int : Z → option float) (raw : RawRecord) : Prop :=
  match raw_score raw with
  | None => True
  | Some (JFloat _) => True
  | Some (JInt z) => is_Some (float_of_int z)
  | Some _ => False
  end.

(** [@search.highlights] is missing, or not an object, or an object
    whose ["text"] is missing, falsy or a list of strings. *)
Definition highlights_well_typed (raw : RawRecord) : Prop :=
  match raw_highlights raw with
  | Some (JObj highlights) =>
      match dict_get "text" highlights with
      | Some (JList vs) => is_Some (all_strings vs)
      | Some v => truthy v = false
      | None => True
      end
  | _ => True
  end.

(** On the metadata string of the record, if it has one, [json.loads]
    returns or raises [JSONDecodeError]. *)
Definition metadata_decodes (json_loads : string → outcome Json)
    (raw : RawRecord) : Prop :=
  ∀ s, raw_metadata_json raw = Some (JStr s) → s ≠ "" →
       (∃ parsed, json_loads s = Returned parsed) ∨
       json_loads s = Raised "JSONDecodeError".

(** The records of a payload that is an object whose ["value"] is
    missing or holds objects only; [None] for any other payload. *)
Fixpoint all_objects (items : list RawItem) : option (list RawRecord) :=
  match items with
  | [] => Some []
  | RawObject raw :: rest => option_map (cons raw) (all_objects rest)
  | RawOther :: _ => None
  end.

Definition payload_records (payload : Payload) : option (list RawRecord) :=
  match payload with
  | PayloadObject None => Some []
  | PayloadObject (Some (ValueItems items)) => all_objects items
  | _ => None
  end.

(** A sample record, and stand-ins for the conversions of the Python
    library for the examples below. *)
Definition sparse_record : RawRecord :=
  {| raw_id := Some "SOP-7:B:0001"; raw_doc_id := Some "SOP-7";
     raw_rev := None; raw_text := Some "Wear gloves.";
     raw_score := None; raw_section_path := None;
     raw_page_start := Some 3; raw_page_end := None;
     raw_source_url := None; raw_allowed_groups := None;
     raw_metadata_json := Some (JStr "{not json");
     raw_highlights := None |}.

Definition only_empty_object (s : string) : outcome Json :=
  if String.eqb s "{}" then Returned (JObj []) else Raised "JSONDecodeError".

(** A text of 100000 opening brackets, on which [json.loads] raises
    [RecursionError], and a stand-in for [json.loads] that does so. *)
Definition deeply_nested : string :=
  string_of_list_ascii (replicate (Z.to_nat 100000) "["%char).

Definition refuses_deep_nesting (s : string) : outcome Json :=
  if String.eqb s deeply_nested then Raised "RecursionError"
  else only_empty_object s.

(** A record like [sparse_record] whose [@search.score] is [null], and
    one whose metadata is [deeply_nested]. *)
Definition null_score_record : RawRecord :=
  {| raw_id := Some "SOP-7:B:0002"; raw_doc_id := Some "SOP-7";
     raw_rev := None; raw_text := Some "Wash hands.";
     raw_score := Some JNull; raw_section_path := None;
     raw_page_start := Some 4; raw_page_end := None;
     raw_source_url := None; raw_allowed_groups := None;
     raw_metadata_json := None;
     raw_highlights := None |}.

Definition deep_metadata_record : RawRecord :=
  {| raw_id := Some "SOP-7:B:0003"; raw_doc_id := Some "SOP-7";
     raw_rev := None; raw_text := Some "Dry hands.";
     raw_score := None; raw_section_path := None;
     raw_page_start := Some 5; raw_page_end := None;
     raw_source_url := None; raw_allowed_groups := None;
     raw_metadata_json := Some (JStr deeply_nested);
     raw_highlights := None |}.

Definition sample_retriever : AzureSearchRetriever :=
  {| index_name := "docs"; _select_fields := default_select_fields;
     _semantic_configuration := None; _vector_field := "embedding_vector" |}.

(** How the candidate [r] relates to the record [raw] it was built
    from: unparseable metadata is kept under ["raw"], and every missing
    member has its default. *)
Definition absorbs (json_loads : string → outcome Json)
    (raw : RawRecord) (r : SearchResult) : Prop :=
  (∀ s, raw_metadata_json raw = Some (JStr s) → s ≠ "" →
        json_loads s = Raised "JSONDecodeError" →
        sr_metadata r = JObj [("raw", JStr s)]) ∧
  (raw_metadata_json raw = None → sr_metadata r = JObj []) ∧
  (raw_id raw = None → sr_chunk_id r = "") ∧
  (raw_doc_id raw = None → sr_doc_id r = "") ∧
  (raw_rev raw = None → sr_rev r = "") ∧
  (raw_text raw = None → sr_text r = "") ∧
  (raw_score raw = None → sr_score r = 0%float) ∧
  (raw_section_path raw = None → sr_section_path r = None) ∧
  (raw_page_start raw = None → sr_page_start r = None) ∧
  (raw_page_end raw = None → sr_page_end r = None) ∧
  (raw_source_url raw = None → sr_source_url r = "") ∧
  (raw_allowed_groups raw = None → sr_allowed_groups r = []) ∧
  (raw_highlights raw = None → sr_highlights r = None).
(* ===================================================================== *)
(** * reranking.py *)
(* ===================================================================== *)

(** [sum(xs)] over floats: the additions are made from left to right,
    starting from the integer [0]. *)
Definition py_sum (xs : list float) : float :=
  fold_left PrimFloat.add xs 0%float.

(** [_cosine_similarity]. *)
Definition _cosine_similarity (a b : list float) : float :=
  let dot := py_sum (zip_with PrimFloat.mul a b) in
  let norm_a := PrimFloat.sqrt (py_sum (map (λ x, PrimFloat.mul x x) a)) in
  let norm_b := PrimFloat.sqrt (py_sum (map (λ y, PrimFloat.mul y y) b)) in
  if PrimFloat.eqb norm_a 0%float || PrimFloat.eqb norm_b 0%float then 0%float
  else PrimFloat.div dot (PrimFloat.mul norm_a norm_b).

(** [scored.sort(key=lambda item: item[0], reverse=True)]. The sort of
    Python is stable, also under [reverse=True], and compares keys with
    [<] only. When [<] orders the keys (no key is a NaN) its result is
    the one of this insertion sort; [insert_desc item sorted] puts an
    item that precedes all of [sorted] in the input at its place. *)
Fixpoint insert_desc {A : Type} (item : float * A) (sorted : list (float * A))
    : list (float * A) :=
  match sorted with
  | [] => [item]
  | other :: rest =>
      if PrimFloat.ltb (fst item) (fst other)
      then other :: insert_desc item rest
      else item :: other :: rest
  end.

Definition sort_desc {A : Type} (items : list (float * A)) : list (float * A) :=
  foldr insert_desc [] items.

(** [xs[:n]]. *)
Definition py_slice_to {A : Type} (n : Z) (xs : list A) : list A :=
  if 0 <=? n then take (Z.to_nat n) xs
  else take (length xs - Z.to_nat (- n)) xs.

(** The list [scored] before it is sorted. *)
Definition scored_candidates (query_vector : list float)
    (candidates : list SearchResult) (doc_vectors : list (list float))
    : list (float * SearchResult) :=
  zip_with (λ candidate vector,
              (_cosine_similarity query_vector vector, candidate))
           candidates doc_vectors.

Section Rerank.

(** [self.embedding_provider.embed]. *)
Variable embed : list string → outcome (list (list float)).

(** [EmbeddingSimilarityReranker.rerank]. *)
Definition rerank (query : string) (candidates : list SearchResult) (top_n : Z)
    : outcome (list SearchResult) :=
  if nonempty candidates then
    let texts := query :: map sr_text candidates in
    bind (embed texts) (λ vectors,
    match vectors with
    | [] => Raised "IndexError"
    | query_vector :: doc_vectors =>
        let scored := scored_candidates query_vector candidates doc_vectors in
        let scored := sort_desc scored in
        Returned (map snd (py_slice_to top_n scored))
    end)
  else Returned [].

End Rerank.

(** [take_top_n]. *)
Fixpoint take_top_n_loop (top_n : Z) (candidates results : list SearchResult)
    : list SearchResult :=
  match candidates with
  | [] => results
  | candidate :: rest =>
      let results := results ++ [candidate] in
      if top_n <=? Z.of_nat (length results) then results
      else take_top_n_loop top_n rest results
  end.

Definition take_top_n (candidates : list SearchResult) (top_n : Z)
    : list SearchResult :=
  take_top_n_loop top_n candidates [].

(* ===================================================================== *)
(** * Specification vocabulary for the reranker *)
(* ===================================================================== *)

(** The float is a NaN: the one value that is not equal to itself. *)
Definition is_nan (x : float) : bool := negb (PrimFloat.eqb x x).

(** [<] on floats orders the keys [keys]: it is asymmetric and its
    complement is transitive on them. This holds of any keys none of
    which is a NaN. *)
Definition orders (keys : list float) : Prop :=
  (∀ x y, x ∈ keys → y ∈ keys →
          PrimFloat.ltb x y = true → PrimFloat.ltb y x = false) ∧
  (∀ x y z, x ∈ keys → y ∈ keys → z ∈ keys →
            PrimFloat.ltb x y = false → PrimFloat.ltb y z = false →
            PrimFloat.ltb x z = false).

(** Cosine similarity as the specification words it: the dot product
    of the two vectors (over the components they both have) divided by
    the product of their norms, and [0.0] when a norm is zero. It is
    evaluated in binary64, each sum from left to right. *)
Fixpoint dot_from (acc : float) (a b : list float) : float :=
  match a, b with
  | x :: a', y :: b' => dot_from (PrimFloat.add acc (PrimFloat.mul x y)) a' b'
  | _, _ => acc
  end.

Definition dot_product (a b : list float) : float := dot_from 0%float a b.

Definition norm (a : list float) : float := PrimFloat.sqrt (dot_product a a).

Definition cosine (a b : list float) : float :=
  if PrimFloat.eqb (norm a) 0%float || PrimFloat.eqb (norm b) 0%float
  then 0%float
  else PrimFloat.div (dot_product a b) (PrimFloat.mul (norm a) (norm b)).

(** [p] is not ranked below [q]. *)
Definition not_below {A : Type} (p q : float * A) : Prop :=
  PrimFloat.ltb (fst p) (fst q) = false.

(** The key [k] ties with [s]: neither is less than the other. *)
Definition ties (s k : float) : bool :=
  negb (PrimFloat.ltb k s) && negb (PrimFloat.ltb s k).

(** [ranked] is [scored] arranged in descending order of similarity,
    entries that tie keeping the order they have in [scored]. *)
Definition stable_descending {A : Type} (scored ranked : list (float * A)) : Prop :=
  Permutation ranked scored ∧
  StronglySorted not_below ranked ∧
  ∀ s, s ∈ map fst scored →
       filter (λ p, ties s (fst p) = true) ranked
       = filter (λ p, ties s (fst p) = true) scored.

(** A vector all of whose components are zero (of either sign). *)
Definition zero_vector (v : list float) : Prop :=
  Forall (λ x, x = 0%float ∨ x = (-0)%float) v.

(** Sample data for the examples below: unit vectors and their sum. *)
Definition sample_embed (texts : list string) : outcome (list (list float)) :=
  Returned (map (λ t, if String.eqb t "east" then [1%float; 0%float]
                      else if String.eqb t "north" then [0%float; 1%float]
                      else if String.eqb t "nowhere" then [0%float; 0%float]
                      else [1%float; 1%float]) texts).

Definition sample_hit (t : string) : SearchResult :=
  {| sr_chunk_id := t; sr_doc_id := "doc"; sr_rev := ""; sr_text := t;
     sr_score := 0%float; sr_section_path := None; sr_page_start := None;
     sr_page_end := None; sr_source_url := ""; sr_allowed_groups := [];
     sr_metadata := JObj []; sr_highlights := None |}.

(** The similarities of the candidates, in order, from the vectors that
    the provider returned for [[query] + texts]. *)
Definition similarities (vectors : list (list float)) : list float :=
  match vectors with
  | [] => []
  | query_vector :: doc_vectors => map (cosine query_vector) doc_vectors
  end.

(** A provider whose vectors are finite, yet the similarity of the
    query to the text ["huge"] overflows to a NaN. *)
Definition overflow_embed (texts : list string) : outcome (list (list float)) :=
  Returned (map (λ t, if String.eqb t "query" then [0x1p500%float; 0%float]
                      else if String.eqb t "across" then [0%float; 1%float]
                      else if String.eqb t "huge" then [0x1p600%float; 0%float]
                      else [1%float; 0%float]) texts).
(* ===================================================================== *)
(** * grounding.py *)
(* ===================================================================== *)

(** [class GroundingChunk]. *)
Record GroundingChunk : Type := mkGroundingChunk {
  gc_chunk_id : string;
  gc_doc_id : string;
  gc_rev : string;
  gc_text : string;
  gc_section_path : option string;
  gc_pages : option Z * option Z;
  gc_source_url : string;
  gc_citation : string;
  gc_score : float
}.

(** The tuple [(doc_id, section_path, page_start, page_end)]. *)
Abbreviation dedup_key := (string * option string * option Z * option Z)%type.

Definition candidate_key (c : SearchResult) : dedup_key :=
  (sr_doc_id c, sr_section_path c, sr_page_start c, sr_page_end c).

Definition pack_key (g : GroundingChunk) : dedup_key :=
  (gc_doc_id g, gc_section_path g, fst (gc_pages g), snd (gc_pages g)).

(** [_format_citation]: the revision and page suffixes are added only
    for a truthy [rev] (non-empty) and a truthy [page_start] (neither
    [None] nor [0]). *)
Definition _format_citation (candidate : SearchResult) : string :=
  let rev_part :=
    if String.eqb (sr_rev candidate) "" then ""
    else " Rev " +:+ sr_rev candidate in
  let page :=
    match sr_page_start candidate with
    | Some z => if z =? 0 then "" else " p." +:+ pretty z
    | None => ""
    end in
  sr_doc_id candidate +:+ rev_part +:+ page.

(** The [GroundingChunk(...)] built for a surviving candidate. *)
Definition grounding_of (candidate : SearchResult) : GroundingChunk :=
  {| gc_chunk_id := sr_chunk_id candidate;
     gc_doc_id := sr_doc_id candidate;
     gc_rev := sr_rev candidate;
     gc_text := sr_text candidate;
     gc_section_path := sr_section_path candidate;
     gc_pages := (sr_page_start candidate, sr_page_end candidate);
     gc_source_url := sr_source_url candidate;
     gc_citation := _format_citation candidate;
     gc_score := sr_score candidate |}.

(** The per-document cap [max(2, max_chunks // 3)]. *)
Definition doc_cap (max_chunks : Z) : Z := Z.max 2 (max_chunks / 3).

(** The local variables of the loop of [build_grounding_pack];
    [stopped] records that [break] has been executed. *)
Record pack_state : Type := mkPackState {
  seen : gset dedup_key;
  per_doc_counts : gmap string Z;
  pack : list GroundingChunk;
  stopped : bool
}.

Definition pack_init : pack_state :=
  {| seen := ∅; per_doc_counts := ∅; pack := []; stopped := false |}.

Section BuildGroundingPack.

Variable max_chunks : Z.
Variable diversify : bool.

(** The body of [for candidate in candidates]. *)
Definition pack_body (st : pack_state) (candidate : SearchResult) : pack_state :=
  let key := candidate_key candidate in
  if decide (key ∈ seen st) then st                               (* continue *)
  else
    let seen' := seen st ∪ {[ key ]} in
    let count := default 0 (per_doc_counts st !! sr_doc_id candidate) in
    if diversify && (doc_cap max_chunks <=? count) then
      {| seen := seen'; per_doc_counts := per_doc_counts st;
         pack := pack st; stopped := false |}                     (* continue *)
    else
      let counts' :=
        if diversify
        then <[ sr_doc_id candidate := count + 1 ]> (per_doc_counts st)
        else per_doc_counts st in
      let pack' := pack st ++ [grounding_of candidate] in
      {| seen := seen'; per_doc_counts := counts'; pack := pack';
         stopped := max_chunks <=? Z.of_nat (length pack') |}.    (* break *)

(** One candidate of the sequence: nothing runs after a [break]. *)
Definition pack_step (st : pack_state) (candidate : SearchResult) : pack_state :=
  if stopped st then st else pack_body st candidate.

Definition pack_loop (candidates : list SearchResult) (st : pack_state) : pack_state :=
  fold_left pack_step candidates st.

End BuildGroundingPack.

(** [build_grounding_pack(candidates, *, max_chunks, diversify=True)]. *)
Definition build_grounding_pack (candidates : list SearchResult)
    (max_chunks : Z) (diversify : bool) : list GroundingChunk :=
  pack (pack_loop max_chunks diversify candidates pack_init).

(* ===================================================================== *)
(** * Specification vocabulary for the grounding assembler *)
(* ===================================================================== *)

(** Number of entries of a pack that come from document [d]. *)
Definition doc_share (d : string) (p : list GroundingChunk) : Z :=
  Z.of_nat (length (filter (λ g, gc_doc_id g = d) p)).

(** Length: the test for [break] follows the append, so a pack that
    is still growing is empty or strictly below [max_chunks]. *)
Definition length_inv (max_chunks : Z) (st : pack_state) : Prop :=
  Z.of_nat (length (pack st)) ≤ Z.max 1 max_chunks ∧
  (stopped st = false →
   pack st = [] ∨ Z.of_nat (length (pack st)) < max_chunks).

(** Order: the pack is the image of a subsequence of the candidates
    consumed so far. *)
Definition order_inv (done : list SearchResult) (st : pack_state) : Prop :=
  ∃ kept, sublist kept done ∧ pack st = map grounding_of kept.

(** Deduplication: every key of the pack is in [seen], keys of the
    pack are pairwise distinct, every consumed candidate has its key
    in [seen] while the loop runs, and every entry of the pack is the
    first consumed candidate with its key. *)
Definition first_with_key (done : list SearchResult) (g : GroundingChunk) : Prop :=
  ∃ pre c post,
    done = pre ++ c :: post ∧ g = grounding_of c ∧
    ∀ c', c' ∈ pre → candidate_key c' ≠ candidate_key c.

Definition dedup_inv (done : list SearchResult) (st : pack_state) : Prop :=
  (∀ g, g ∈ pack st → pack_key g ∈ seen st) ∧
  NoDup (pack_key <$> pack st) ∧
  (stopped st = false → ∀ c, c ∈ done → candidate_key c ∈ seen st) ∧
  (∀ k, k ∈ seen st → ∃ c, c ∈ done ∧ candidate_key c = k) ∧
  (∀ g, g ∈ pack st → first_with_key done g).

(** Diversification: [per_doc_counts] counts the entries of the pack
    per document, and no count exceeds the cap. *)
Definition diversity_inv (max_chunks : Z) (st : pack_state) : Prop :=
  ∀ d, doc_share d (pack st) = default 0 (per_doc_counts st !! d) ∧
       default 0 (per_doc_counts st !! d) ≤ doc_cap max_chunks.


(** Sample candidates used by the examples below. *)
Definition sample_candidate (doc section : string) (page : Z) : SearchResult :=
  {| sr_chunk_id := doc +:+ ":" +:+ section;
     sr_doc_id := doc;
     sr_rev := "A";
     sr_text := "text of " +:+ section;
     sr_score := 1%float;
     sr_section_path := Some section;
     sr_page_start := Some page;
     sr_page_end := Some page;
     sr_source_url := "";
     sr_allowed_groups := [];
     sr_metadata := JObj [];
     sr_highlights := None |}.

(* ===================================================================== *)
(** * More vocabulary for the grounding assembler *)
(* ===================================================================== *)

(** The candidates that are the first to carry their key, given the
    keys [seen_keys] met before. *)
Fixpoint first_of_each_key (candidates : list SearchResult)
    (seen_keys : gset dedup_key) : list SearchResult :=
  match candidates with
  | [] => []
  | candidate :: rest =>
      if decide (candidate_key candidate ∈ seen_keys)
      then first_of_each_key rest seen_keys
      else candidate
           :: first_of_each_key rest (seen_keys ∪ {[ candidate_key candidate ]})
  end.

(* ===================================================================== *)
(** * models.py: [iter_text_blocks] *)
(* ===================================================================== *)

(** [iter_text_blocks(blocks, kinds=None)], the blocks it yields in
    order. [kinds] filters only when it is a non-empty set. *)
Fixpoint iter_text_blocks (blocks : list DocumentBlock)
    (kinds : option (gset string)) : list DocumentBlock :=
  match blocks with
  | [] => []
  | block :: rest =>
      let filtering :=
        match kinds with
        | Some ks => negb (bool_decide (ks = ∅))
        | None => false
        end in
      if filtering && negb (bool_decide (kind block ∈ default ∅ kinds))
      then iter_text_blocks rest kinds                       (* continue *)
      else if String.eqb (text block) ""
      then iter_text_blocks rest kinds                       (* continue *)
      else block :: iter_text_blocks rest kinds
  end.

(* ===================================================================== *)
(** * embeddings.py: [MockEmbeddingProvider] *)
(* ===================================================================== *)

(** The float of a natural number, exact below [2^53]. *)
Fixpoint float_of_positive (p : positive) : float :=
  match p with
  | xH => 1%float
  | xO q => PrimFloat.mul 2%float (float_of_positive q)
  | xI q => PrimFloat.add (PrimFloat.mul 2%float (float_of_positive q)) 1%float
  end.

Definition float_of_N (n : N) : float :=
  match n with
  | N0 => 0%float
  | Npos p => float_of_positive p
  end.

(** [sequence * n] for an integer [n]: empty when [n <= 0]. *)
Definition py_repeat {A : Type} (xs : list A) (n : Z) : list A :=
  mjoin (replicate (Z.to_nat n) xs).

Section MockEmbeddingProvider.

(** [text.encode("utf-8")]: it raises [UnicodeEncodeError] on a text
    that holds a lone surrogate. *)
Variable encode : string → outcome (list Byte.byte).

(** [hashlib.sha256(data).digest()]. *)
Variable sha256 : list Byte.byte → list Byte.byte.

(** The attribute [self.dim]; its default is 1536. *)
Variable dim : Z.

(** The vector built from the digest of one text. *)
Definition mock_vector (digest : list Byte.byte) : list float :=
  let len_digest := Z.of_nat (length digest) in
  let repeat := (dim + len_digest - 1) / len_digest in
  let raw := py_slice_to dim (py_repeat digest repeat) in
  map (λ byte, PrimFloat.div (float_of_N (Byte.to_N byte)) 255%float) raw.

(** [MockEmbeddingProvider.embed]; the division [// len(digest)] raises
    when the digest is empty. *)
Definition mock_embed (texts : list string) : outcome (list (list float)) :=
  for_each (λ text,
              bind (encode text) (λ data,
              let digest := sha256 data in
              if nonempty digest then Returned (mock_vector digest)
              else Raised "ZeroDivisionError"))
           texts.

End MockEmbeddingProvider.

(** Stand-ins for the examples: texts of ASCII characters encode as
    their bytes and any other text is refused; the digest has 32 bytes
    that depend on the length of the data only. *)
Definition sample_encode (text : string) : outcome (list Byte.byte) :=
  if forallb (λ c, Nat.ltb (nat_of_ascii c) 128) (list_ascii_of_string text)
  then Returned (map byte_of_ascii (list_ascii_of_string text))
  else Raised "UnicodeEncodeError".

Definition sample_digest (data : list Byte.byte) : list Byte.byte :=
  replicate 31 Byte.x2a
  ++ [if Nat.even (length data) then Byte.x00 else Byte.xff].

(* ===================================================================== *)
(** * config.py: settings resolved from the environment and a file *)
(* ===================================================================== *)

Definition ENV_PREFIX : string := "AGENTIC_RAG_".

(** [_env_or(key, default)]; [environ] is [os.environ]. *)
Definition _env_or (environ : gmap string string) (key : string)
    (default : option string) : outcome string :=
  match environ !! (ENV_PREFIX +:+ key) with
  | Some value => Returned value
  | None =>
      match default with
      | None => Raised "RuntimeError"
      | Some d => Returned d
      end
  end.

(** [class AzureSearchSettings]. *)
Record AzureSearchSettings : Type := mkAzureSearchSettings {
  as_endpoint : string;
  as_api_key : string;
  as_index_name : string
}.

(** The section [azure_search] of the configuration file, read as
    [cfg.get(...)] reads it; a missing section has no member. *)
Record AzureSearchSection : Type := mkAzureSearchSection {
  cfg_endpoint : option string;
  cfg_api_key : option string;
  cfg_index_name : option string
}.

(** [_load_azure_search]. *)
Definition _load_azure_search (environ : gmap string string)
    (cfg : AzureSearchSection) : outcome (option AzureSearchSettings) :=
  bind (_env_or environ "AZURE_SEARCH__ENDPOINT" (cfg_endpoint cfg)) (λ endpoint,
  bind (_env_or environ "AZURE_SEARCH__API_KEY" (cfg_api_key cfg)) (λ api_key,
  bind (_env_or environ "AZURE_SEARCH__INDEX_NAME" (cfg_index_name cfg)) (λ index_name,
  if forallb (λ s, negb (String.eqb s "")) [endpoint; api_key; index_name]
  then Returned (Some {| as_endpoint := endpoint; as_api_key := api_key;
                         as_index_name := index_name |})
  else Returned None))).

(** [class RetrievalSettings] and [class RerankSettings]. *)
Record RetrievalSettings : Type := mkRetrievalSettings {
  candidate_k : Z;
  final_context_chunks : Z;
  semantic_configuration : option string
}.

Record RerankSettings : Type := mkRerankSettings {
  enabled : bool;
  max_to_score : Z
}.

(* ===================================================================== *)
(** * cli.py: the [query] command, from the retrieved candidates on *)
(* ===================================================================== *)

(** [value or default] for an [Optional[int]] option of the command
    line: [None] and [0] give the default. *)
Definition int_or (value : option Z) (default : Z) : Z :=
  match value with
  | Some z => if z =? 0 then default else z
  | None => default
  end.

Section QueryCommand.

Variable embed : list string → outcome (list (list float)).
Variable retrieval : RetrievalSettings.
Variable rerank_settings : RerankSettings.

(** Lines 124 to 135 of [query]: the optional reranking of [results]
    and the assembly of the pack. *)
Definition query_pack (query_text : string) (final_chunks : option Z)
    (disable_rerank : bool) (results : list SearchResult)
    : outcome (list GroundingChunk) :=
  let rerank_chunks := int_or final_chunks (final_context_chunks retrieval) in
  bind (if enabled rerank_settings && negb disable_rerank then
          let rerank_depth :=
            Z.min (max_to_score rerank_settings) (Z.of_nat (length results)) in
          let candidates := take_top_n results rerank_depth in
          rerank embed query_text candidates rerank_depth
        else Returned results)
       (λ reranked, Returned (build_grounding_pack reranked rerank_chunks true)).

End QueryCommand.

(** What the resolution of a key yields when it succeeds: the value of
    the environment if the variable is set, else the one of the file. *)
Definition resolved (environ : gmap string string) (key : string)
    (from_file : option string) : option string :=
  match environ !! (ENV_PREFIX +:+ key) with
  | Some value => Some value
  | None => from_file
  end.

(* ===================================================================== *)
(** * models.py and indexing.py: embedded chunks and their upload *)
(* ===================================================================== *)

Section Indexing.

(** [datetime] values and [datetime.isoformat]. *)
Variable datetime : Type.
Variable isoformat : datetime → string.
(** [json.dumps] on the metadata dictionary of a chunk. *)
Variable json_dumps : ChunkMetadata → string.

(** [class EmbeddedChunk(Chunk)]. *)
Record EmbeddedChunk : Type := mkEmbeddedChunk {
  ec_chunk : Chunk;
  embedding : list float;
  embedding_model : option string;
  embedding_created_at : datetime
}.

Definition json_of_optional_string (s : option string) : Json :=
  match s with
  | Some v => JStr v
  | None => JNull
  end.

(** One element of [actions] in [AzureSearchIndexer.upload]. *)
Definition index_action (chunk : EmbeddedChunk) : list (string * Json) :=
  [("@search.action", JStr "mergeOrUpload");
   ("id", JStr (ch_chunk_id (ec_chunk chunk)));
   ("doc_id", JStr (ch_doc_id (ec_chunk chunk)));
   ("rev", JStr (ch_rev (ec_chunk chunk)));
   ("text", JStr (ch_text (ec_chunk chunk)));
   ("embedding_vector", JList (map JFloat (embedding chunk)));
   ("page_start", JInt (ch_page_start (ec_chunk chunk)));
   ("page_end", JInt (ch_page_end (ec_chunk chunk)));
   ("section_path", json_of_optional_string (ch_section_path (ec_chunk chunk)));
   ("token_count", JInt (ch_token_count (ec_chunk chunk)));
   ("allowed_groups", JList (map JStr (ch_allowed_groups (ec_chunk chunk))));
   ("source_url", JStr (ch_source_url (ec_chunk chunk)));
   ("metadata_json", JStr (json_dumps (ch_metadata (ec_chunk chunk))));
   ("embedding_model", json_of_optional_string (embedding_model chunk));
   ("embedding_created_at", JStr (isoformat (embedding_created_at chunk)))].

(** The body that [AzureSearchIndexer.upload] posts. *)
Definition upload_body (chunks : list EmbeddedChunk) : list (string * Json) :=
  [("value", JList (map (λ chunk, JObj (index_action chunk)) chunks))].

End Indexing.

Arguments ec_chunk {datetime} _.
Arguments embedding {datetime} _.
Arguments embedding_model {datetime} _.
Arguments embedding_created_at {datetime} _.

(** The default of [vector_field] in [AzureSearchRetriever]. *)
Definition default_vector_field : string := "embedding_vector".
(* ===================================================================== *)
(** * Properties of the chunker *)
(* ===================================================================== *)

#[local] Arguments _estimate_tokens : simpl never.

Lemma _estimate_tokens_pos t : 1 ≤ _estimate_tokens t.
Proof. apply Z.le_max_l. Qed.

Lemma block_tokens_nonneg bs : 0 ≤ block_tokens bs.
Proof.
  induction bs as [|b bs IH]; cbn; [lia|].
  pose proof (_estimate_tokens_pos (text b)). lia.
Qed.

Lemma block_tokens_app l1 l2 :
  block_tokens (l1 ++ l2) = block_tokens l1 + block_tokens l2.
Proof. induction l1 as [|b l1 IH]; cbn; [done|]. rewrite IH. lia. Qed.

Lemma block_tokens_rev l : block_tokens (rev l) = block_tokens l.
Proof.
  induction l as [|b l IH]; cbn; [done|].
  rewrite block_tokens_app, IH. cbn. lia.
Qed.

(** ** The retained tail *)

(** The loop of [_tail_within_tokens] takes a prefix of the reversed
    buffer: nothing, or one block while [tail] is still empty, or
    blocks that keep the total within the budget. *)
Lemma tail_loop_spec ov rs tl total :
  total = block_tokens tl →
  ∃ taken left,
    rs = taken ++ left ∧ tail_loop ov rs tl total = tl ++ taken ∧
    (taken = [] ∨ (tl = [] ∧ ∃ b, taken = [b]) ∨
     block_tokens (tl ++ taken) ≤ ov).
Proof.
  revert tl total. induction rs as [|b rs IH]; intros tl total Htot.
  - exists [], []. split; [done|]. split; [by rewrite app_nil_r|by left].
  - cbn [tail_loop].
    destruct ((ov <? total + _estimate_tokens (text b)) && nonempty tl) eqn:Hbrk.
    + exists [], (b :: rs). split; [done|]. split; [by rewrite app_nil_r|by left].
    + destruct (IH (tl ++ [b]) (total + _estimate_tokens (text b)))
        as (taken & left & -> & Hres & Hcase).
      { rewrite block_tokens_app. cbn. lia. }
      exists (b :: taken), left. rewrite Hres, <- app_assoc. cbn.
      split; [done|]. split; [done|].
      destruct Hcase as [->|[[Hnil _]|Hle]].
      * apply andb_false_iff in Hbrk as [Hlt%Z.ltb_ge|Hne].
        -- right; right. rewrite block_tokens_app. cbn. lia.
        -- destruct tl; [|done]. right; left. eauto.
      * by destruct tl.
      * right; right. by rewrite <- app_assoc in Hle.
Qed.

Lemma _tail_within_tokens_spec bs ov :
  ∃ dropped, bs = dropped ++ _tail_within_tokens bs ov ∧
    (_tail_within_tokens bs ov = [] ∨
     (∃ b, _tail_within_tokens bs ov = [b]) ∨
     block_tokens (_tail_within_tokens bs ov) ≤ ov).
Proof.
  unfold _tail_within_tokens.
  destruct (tail_loop_spec ov (rev bs) [] 0 eq_refl)
    as (taken & left & Hrev & -> & Hcase).
  cbn [app] in *. exists (rev left). split.
  - rewrite <- rev_app_distr, <- Hrev. by rewrite rev_involutive.
  - destruct Hcase as [->|[[_ [b ->]]|Hle]].
    + by left.
    + right; left. by exists b.
    + right; right. by rewrite block_tokens_rev.
Qed.

Lemma _tail_within_tokens_single b ov : _tail_within_tokens [b] ov = [b].
Proof.
  unfold _tail_within_tokens. cbn. by rewrite andb_false_r.
Qed.

(** ** The two ways of [flush] *)

Lemma flush_fires doc config force st first others :
  buffer st = first :: others →
  force = true ∨ target_tokens config ≤ buffer_tokens st →
  flush doc config force st =
  {| chunks := chunks st ++ [make_chunk doc (chunk_index st) first others];
     buffer := _tail_within_tokens (buffer st) (overlap_tokens config);
     buffer_tokens :=
       block_tokens (_tail_within_tokens (buffer st) (overlap_tokens config));
     chunk_index := chunk_index st + 1 |}.
Proof.
  intros Hbuf Hcond. unfold flush. rewrite Hbuf.
  destruct Hcond as [->|Hle]; [done|].
  apply Z.ltb_ge in Hle. rewrite Hle. by rewrite andb_false_r.
Qed.

Lemma flush_idle doc config st :
  buffer st = [] ∨ buffer_tokens st < target_tokens config →
  flush doc config false st = st.
Proof.
  intros Hcond. unfold flush. destruct (buffer st); [done|].
  destruct Hcond as [|Hlt]; [done|].
  apply Z.ltb_lt in Hlt. by rewrite Hlt.
Qed.

(** ** A document of one oversized block *)

(** C2, as worded, fails: the one block of this document has an
    estimate of 5 against [max_tokens = 3]; it is not split, but it
    comes out three times, not once. *)
Lemma chunk_document_oversized_block_repeated :
  let d := sample_doc [paragraph 1 "a b c d"] in
  max_tokens tight_config < _estimate_tokens "a b c d" ∧
  map ch_text (chunk_document d (Some tight_config))
    = ["a b c d"; "a b c d"; "a b c d"] ∧
  ¬ ∃ c, chunk_document d (Some tight_config) = [c].
Proof.
  cbv zeta. split; [by vm_compute|]. split; [by vm_compute|].
  intros [c Hc]. apply (f_equal (@length Chunk)) in Hc.
  vm_compute in Hc. discriminate Hc.
Qed.

(* ===================================================================== *)
(** * Properties of the retriever *)
(* ===================================================================== *)

(** ** Strings *)

Lemma string_app_nil (s : string) : "" +:+ s = s.
Proof. reflexivity. Qed.

Lemma string_app_cons (c : ascii) (a b : string) :
  String c a +:+ b = String c (a +:+ b).
Proof. reflexivity. Qed.

Lemma string_app_nil_r (s : string) : s +:+ "" = s.
Proof.
  induction s as [|x s IH]; [done|]. by rewrite string_app_cons, IH.
Qed.

Lemma string_app_assoc (a b c : string) : (a +:+ b) +:+ c = a +:+ (b +:+ c).
Proof.
  induction a as [|x a IH]; [done|]. by rewrite !string_app_cons, IH.
Qed.

Lemma string_length_app (a b : string) :
  String.length (a +:+ b) = (String.length a + String.length b)%nat.
Proof.
  induction a as [|x a IH]; [done|]. rewrite string_app_cons. cbn. by rewrite IH.
Qed.

Lemma strip_prefix_app p s : strip_prefix p (p +:+ s) = Some s.
Proof.
  induction p as [|a p IH]; [by destruct s|].
  rewrite string_app_cons. cbn. by rewrite Ascii.eqb_refl.
Qed.

(** A literal without a quote is read back up to the quote that closes
    it, when what follows is not another quote. *)
Lemma read_literal_quote_free g after :
  quote_free g = true →
  read_literal (g +:+ String quote (String ")" after)) = Some (g, String ")" after).
Proof.
  induction g as [|c g IH]; [done|].
  cbn [quote_free]. intros [Hc Hg]%andb_true_iff. apply negb_true_iff in Hc.
  rewrite string_app_cons. cbn [read_literal]. by rewrite Hc, (IH Hg).
Qed.

Lemma group_clause_shape g tail :
  group_clause g +:+ tail
  = clause_prefix +:+ (g +:+ String quote (String ")" tail)).
Proof.
  unfold group_clause. by rewrite !string_app_assoc, !string_app_cons, string_app_nil.
Qed.

(** ** Reading back the filter of quote-free groups *)

Lemma read_clauses_filter gs :
  Forall (λ g, quote_free g = true) gs →
  gs ≠ [] →
  ∀ fuel, (length gs ≤ fuel)%nat →
    read_clauses fuel (py_join " or " (map group_clause gs)) = Some gs.
Proof.
  induction gs as [|g gs IH]; [done|].
  intros [Hg Hgs]%Forall_cons _ fuel Hfuel.
  destruct fuel as [|fuel]; [cbn in Hfuel; lia|].
  destruct gs as [|g' gs].
  - cbn [map py_join read_clauses].
    rewrite <- (string_app_nil_r (group_clause g)).
    rewrite group_clause_shape, strip_prefix_app.
    by rewrite (read_literal_quote_free g "" Hg).
  - cbn [map py_join read_clauses].
    change (py_join " or " (group_clause g' :: map group_clause gs))
      with (py_join " or " (map group_clause (g' :: gs))).
    rewrite group_clause_shape, strip_prefix_app.
    rewrite (read_literal_quote_free g _ Hg).
    rewrite !string_app_cons, string_app_nil.
    cbn [strip_prefix Ascii.eqb Bool.eqb String.eqb].
    rewrite IH; [done|done|done|]. cbn in Hfuel |- *. lia.
Qed.

Lemma py_join_cons sep a b l :
  py_join sep (a :: b :: l) = a +:+ sep +:+ py_join sep (b :: l).
Proof. reflexivity. Qed.

Lemma py_join_clauses_length gs :
  (length gs ≤ String.length (py_join " or " (map group_clause gs)))%nat.
Proof.
  induction gs as [|g gs IH]; [done|].
  destruct gs as [|g' gs].
  - cbn [map py_join length]. unfold group_clause.
    rewrite !string_length_app. cbn. lia.
  - cbn [map] in IH |- *. rewrite py_join_cons, !string_length_app.
    change (String.length " or ") with 4%nat.
    cbn [length] in IH |- *. lia.
Qed.

Lemma read_filter_quote_free gs :
  Forall (λ g, quote_free g = true) gs →
  gs ≠ [] →
  read_filter (py_join " or " (map group_clause gs)) = Some gs.
Proof.
  intros Hq Hne. apply read_clauses_filter; [done|done|].
  apply py_join_clauses_length.
Qed.

(** ** The filter is built by plain concatenation *)

(** C1, as worded, fails: the single group identifier [forged_group]
    closes its own literal and yields, character for character, the
    filter of the two groups [x] and [admin]. *)
Lemma filter_for_groups_forged_clause :
  _filter_for_groups [forged_group] = _filter_for_groups ["x"; "admin"] ∧
  [forged_group] ≠ ["x"; "admin"] ∧
  ∃ f, _filter_for_groups [forged_group] = Some f ∧
       read_filter f = Some ["x"; "admin"].
Proof.
  split; [reflexivity|]. split; [discriminate|].
  eexists. split; [reflexivity|]. by vm_compute.
Qed.

(** C1, amended: group identifiers are inserted verbatim, without
    escaping. For identifiers that hold no single quote the filter has
    exactly one equality clause per group, in order, whose literal is
    that group; so the filter determines the groups. *)
Theorem filter_for_groups_quote_free_structure gs :
  Forall (λ g, quote_free g = true) gs →
  match _filter_for_groups gs with
  | Some f =>
      f = py_join " or " (map group_clause gs) ∧ read_filter f = Some gs
  | None => gs = []
  end
  ∧ ∀ gs', Forall (λ g, quote_free g = true) gs' →
           _filter_for_groups gs' = _filter_for_groups gs → gs' = gs.
Proof.
  assert (Hread : ∀ l, Forall (λ g, quote_free g = true) l →
            match _filter_for_groups l with
            | Some f =>
                f = py_join " or " (map group_clause l) ∧ read_filter f = Some l
            | None => l = []
            end).
  { intros l Hl. unfold _filter_for_groups. destruct l as [|g l]; [done|].
    cbn [nonempty]. split; [done|]. by apply read_filter_quote_free. }
  intros Hq. split; [by apply Hread|].
  intros gs' Hq' Heq.
  pose proof (Hread gs Hq) as H. pose proof (Hread gs' Hq') as H'.
  rewrite Heq in H'.
  destruct (_filter_for_groups gs) as [f|]; [|congruence].
  destruct H as [_ H], H' as [_ H']. congruence.
Qed.

Lemma filter_for_groups_quote_free_structure_witness :
  Forall (λ g, quote_free g = true) ["legal"; "ops"] ∧
  _filter_for_groups ["legal"; "ops"]
  = Some "allowed_groups/any(g: g eq 'legal') or allowed_groups/any(g: g eq 'ops')" ∧
  ∀ gs', Forall (λ g, quote_free g = true) gs' →
         _filter_for_groups gs' = _filter_for_groups ["legal"; "ops"] →
         gs' = ["legal"; "ops"].
Proof.
  assert (Hq : Forall (λ g, quote_free g = true) ["legal"; "ops"])
    by (repeat constructor).
  split; [exact Hq|]. split; [reflexivity|].
  exact (proj2 (filter_for_groups_quote_free_structure ["legal"; "ops"] Hq)).
Defined.

(** ** What the filter admits *)

Lemma dict_get_request_body_filter self query gs top_k vector :
  dict_get "filter" (request_body self query gs top_k vector)
  = option_map JStr (_filter_for_groups gs).
Proof.
  unfold request_body, _filter_for_groups.
  destruct gs as [|g gs]; cbn [nonempty].
  - destruct (_semantic_configuration self) as [name|]; [|done].
    by destruct (String.eqb name "").
  - destruct (String.eqb (py_join " or " (map group_clause (g :: gs))) "") eqn:Hempty.
    + apply String.eqb_eq in Hempty.
      pose proof (py_join_clauses_length (g :: gs)) as Hlen.
      rewrite Hempty in Hlen. cbn in Hlen. lia.
    + destruct (_semantic_configuration self) as [name|]; [|done].
      by destruct (String.eqb name "").
Qed.

(** C6, as worded, fails whatever the backend makes of a filter: no
    reading [admits] of filter texts is satisfied exactly by the records
    whose [allowed_groups] meet the caller's groups, because the filter
    of [[forged_group]] is the filter of [["x"; "admin"]]. Read as the
    backend reads it, the forged filter admits a record of group [admin],
    which the caller is not a member of. *)
Lemma retrieve_filter_forged_admits :
  (∃ f, _filter_for_groups [forged_group] = Some f ∧
        filter_admits f ["admin"] = Some true) ∧
  intersects [forged_group] ["admin"] = false ∧
  ¬ ∃ admits : string → list string → bool,
      ∀ gs allowed f, _filter_for_groups gs = Some f →
                      admits f allowed = intersects gs allowed.
Proof.
  split; [|split].
  - eexists. split; [reflexivity|]. by vm_compute.
  - by vm_compute.
  - intros [admits H].
    pose proof (H [forged_group] ["admin"] _ eq_refl) as H1.
    pose proof (H ["x"; "admin"] ["admin"] _ eq_refl) as H2.
    vm_compute in H1, H2. congruence.
Qed.

(** C6, amended: an empty [user_groups] leaves the request body without
    a ["filter"] member. For a non-empty [user_groups] whose identifiers
    hold no single quote, the member is the [ or ]-join of one clause
    [allowed_groups/any(g: g eq '<group>')] per group, and a record
    passes it exactly when its [allowed_groups] meet [user_groups]. *)
Theorem retrieve_filter_admits_intersection self query gs top_k vector :
  Forall (λ g, quote_free g = true) gs →
  match gs with
  | [] => dict_get "filter" (request_body self query gs top_k vector) = None
  | _ :: _ =>
      ∃ f, dict_get "filter" (request_body self query gs top_k vector)
           = Some (JStr f) ∧
           f = py_join " or " (map group_clause gs) ∧
           ∀ allowed, filter_admits f allowed = Some (intersects gs allowed)
  end.
Proof.
  intros Hq. rewrite dict_get_request_body_filter.
  destruct gs as [|g gs]; [done|].
  exists (py_join " or " (map group_clause (g :: gs))).
  split; [done|]. split; [done|]. intros allowed.
  unfold filter_admits. by rewrite read_filter_quote_free.
Qed.

Lemma retrieve_filter_admits_intersection_witness :
  dict_get "filter" (request_body sample_retriever "glove policy" [] 10 [1%float])
  = None ∧
  ∃ f, dict_get "filter"
         (request_body sample_retriever "glove policy" ["legal"] 10 [1%float])
       = Some (JStr f) ∧
       f = py_join " or " (map group_clause ["legal"]) ∧
       ∀ allowed, filter_admits f allowed = Some (intersects ["legal"] allowed).
Proof.
  split.
  - exact (retrieve_filter_admits_intersection
             sample_retriever "glove policy" [] 10 [1%float] (Forall_nil_2 _)).
  - apply (retrieve_filter_admits_intersection
             sample_retriever "glove policy" ["legal"] 10 [1%float]).
    repeat constructor.
Defined.

(** ** Normalisation of the backend's records *)

Section NormalizationFacts.

Variable json_loads : string → outcome Json.
Variable float_of_int : Z → option float.
Variable float_of_str : string → option float.

Lemma metadata_of_returns raw :
  metadata_decodes json_loads raw →
  ∃ m, metadata_of json_loads raw = Returned m ∧
       (∀ s, raw_metadata_json raw = Some (JStr s) → s ≠ "" →
             json_loads s = Raised "JSONDecodeError" →
             m = JObj [("raw", JStr s)]) ∧
       (raw_metadata_json raw = None → m = JObj []).
Proof.
  unfold metadata_decodes, metadata_of. intros Hdec.
  destruct (raw_metadata_json raw) as [[| | | |s| |]|];
    try (eexists; split; [reflexivity|]; split; [by intros s' [=]|done]).
  destruct (String.eqb_spec s "") as [->|Hne].
  { eexists. split; [reflexivity|]. split; [|done]. by intros s' [= <-]. }
  destruct (Hdec s eq_refl Hne) as [[parsed Hp]|Hfail].
  - rewrite Hp. exists parsed. split; [done|]. split; [|done].
    intros s' [= <-] _ Hfail. congruence.
  - rewrite Hfail. cbn. eexists. split; [reflexivity|]. split; [|done].
    by intros s' [= <-].
Qed.

Lemma highlight_of_returns raw :
  highlights_well_typed raw →
  ∃ h, highlight_of raw = Returned h ∧ (raw_highlights raw = None → h = None).
Proof.
  unfold highlights_well_typed, highlight_of.
  destruct (raw_highlights raw) as [[| | | | | |highlights]|];
    cbn [default from_option id]; try (intros _; by exists None).
  destruct (dict_get "text" highlights) as [v|];
    [|intros _; by exists None].
  destruct v as [|b|z|f|s|vs|fields]; cbn [truthy]; intros Hv;
    try (rewrite Hv; by exists None); try (by exists None).
  destruct vs as [|v vs]; [by exists None|]. cbn [nonempty truthy].
  destruct Hv as [fragments Hv]. unfold join_highlights. rewrite Hv.
  by eexists.
Qed.

Lemma py_float_returns raw :
  score_well_typed float_of_int raw →
  ∃ f, py_float float_of_int float_of_str
         (default (JFloat 0%float) (raw_score raw)) = Returned f ∧
       (raw_score raw = None → f = 0%float).
Proof.
  unfold score_well_typed.
  destruct (raw_score raw) as [[| |z|f| | |]|]; cbn; try done.
  - intros [f Hf]. rewrite Hf. by exists f.
  - intros _. by exists f.
  - intros _. by eexists.
Qed.

Lemma normalize_record_absorbs raw :
  metadata_decodes json_loads raw →
  score_well_typed float_of_int raw →
  highlights_well_typed raw →
  ∃ r, normalize_record json_loads float_of_int float_of_str raw = Returned r ∧
       absorbs json_loads raw r.
Proof.
  intros Hmeta Hscore Hhl. unfold normalize_record.
  destruct (metadata_of_returns raw Hmeta) as (m & -> & Hraw & Hnone).
  destruct (highlight_of_returns raw Hhl) as (h & -> & Hh).
  destruct (py_float_returns raw Hscore) as (f & -> & Hf).
  cbn [bind]. eexists. split; [reflexivity|].
  unfold absorbs. cbn.
  repeat split; try (by intros ->); done.
Qed.

End NormalizationFacts.

Lemma all_objects_items items records :
  all_objects items = Some records → items = map RawObject records.
Proof.
  revert records. induction items as [|[raw|] items IH]; intros records; cbn.
  - by intros [= <-].
  - destruct (all_objects items) as [rest|]; cbn; [|done].
    intros [= <-]. cbn. f_equal. by apply IH.
  - done.
Qed.

Lemma payload_records_items payload records :
  payload_records payload = Some records →
  payload_items payload = Returned (map RawObject records).
Proof.
  destruct payload as [[[items|]|]|]; cbn; try done.
  - by intros ->%all_objects_items.
  - by intros [= <-].
Qed.



(* ===================================================================== *)
(** * Properties of the reranker *)
(* ===================================================================== *)

(** ** Zero vectors *)

Lemma py_sum_squares_zero v :
  zero_vector v → py_sum (map (λ x, PrimFloat.mul x x) v) = 0%float.
Proof.
  unfold py_sum. induction 1 as [|x v [->| ->] _ IH]; [done| |]; exact IH.
Qed.

Lemma _cosine_similarity_zero_l a b :
  zero_vector a → _cosine_similarity a b = 0%float.
Proof.
  intros Ha. unfold _cosine_similarity. by rewrite (py_sum_squares_zero a Ha).
Qed.

Lemma _cosine_similarity_zero_r a b :
  zero_vector b → _cosine_similarity a b = 0%float.
Proof.
  intros Hb. unfold _cosine_similarity. rewrite (py_sum_squares_zero b Hb).
  change (PrimFloat.eqb (PrimFloat.sqrt 0) 0) with true.
  by rewrite orb_true_r.
Qed.

(** ** The similarity that the code computes is the cosine *)

Lemma fold_left_dot acc a b :
  fold_left PrimFloat.add (zip_with PrimFloat.mul a b) acc = dot_from acc a b.
Proof.
  revert acc b. induction a as [|x a IH]; intros acc [|y b]; cbn; done.
Qed.

Lemma fold_left_squares acc a :
  fold_left PrimFloat.add (map (λ x, PrimFloat.mul x x) a) acc = dot_from acc a a.
Proof.
  revert acc. induction a as [|x a IH]; intros acc; cbn; [done|]. apply IH.
Qed.

Lemma _cosine_similarity_cosine a b : _cosine_similarity a b = cosine a b.
Proof.
  unfold _cosine_similarity, cosine, norm, dot_product, py_sum.
  by rewrite fold_left_dot, !fold_left_squares.
Qed.

(** ** Floats that are not NaN are ordered by [<] *)

Ltac compare_cases :=
  repeat match goal with
  | H : context [PosDef.Pos.compare_cont Eq ?a ?b] |- _ =>
      change (PosDef.Pos.compare_cont Eq a b) with (Pos.compare a b) in H
  | |- context [PosDef.Pos.compare_cont Eq ?a ?b] =>
      change (PosDef.Pos.compare_cont Eq a b) with (Pos.compare a b)
  end;
  repeat match goal with
  | H : context [Z.compare ?a ?b] |- _ => destruct (Z.compare_spec a b)
  | |- context [Z.compare ?a ?b] => destruct (Z.compare_spec a b)
  | H : context [Pos.compare ?a ?b] |- _ => destruct (Pos.compare_spec a b)
  | |- context [Pos.compare ?a ?b] => destruct (Pos.compare_spec a b)
  end.

Lemma SFltb_asym x y :
  SpecFloat.SFltb x y = true → SpecFloat.SFltb y x = false.
Proof.
  unfold SpecFloat.SFltb, SpecFloat.SFcompare.
  destruct x as [sx|sx| |sx mx ex], y as [sy|sy| |sy my ey];
    try destruct sx; try destruct sy; cbn; try done;
    compare_cases; cbn; subst; try done; try lia.
Qed.

Lemma SFltb_neg_trans x y z :
  y ≠ SpecFloat.S754_nan →
  SpecFloat.SFltb x y = false → SpecFloat.SFltb y z = false →
  SpecFloat.SFltb x z = false.
Proof.
  unfold SpecFloat.SFltb, SpecFloat.SFcompare.
  destruct x as [sx|sx| |sx mx ex], y as [sy|sy| |sy my ey],
           z as [sz|sz| |sz mz ez];
    try destruct sx; try destruct sy; try destruct sz; cbn; try done;
    compare_cases; cbn; subst; try done; try lia.
Qed.

Lemma is_nan_false x :
  is_nan x = false → FloatOps.Prim2SF x ≠ SpecFloat.S754_nan.
Proof.
  unfold is_nan. rewrite negb_false_iff, FloatAxioms.eqb_spec.
  intros H Hn. by rewrite Hn in H.
Qed.

Lemma orders_no_nan keys :
  Forall (λ s, is_nan s = false) keys → orders keys.
Proof.
  intros Hkeys. rewrite Forall_forall in Hkeys. split.
  - intros x y _ _. rewrite !FloatAxioms.ltb_spec. apply SFltb_asym.
  - intros x y z _ Hy _. rewrite !FloatAxioms.ltb_spec.
    apply SFltb_neg_trans. by apply is_nan_false, Hkeys.
Qed.

(** ** The sort *)

Section SortDesc.

Context {A : Type}.
Implicit Types (item : float * A) (items sorted : list (float * A)).

Lemma elem_of_map_fst item items : item ∈ items → fst item ∈ map fst items.
Proof.
  induction items as [|other items IH]; [by intros ?%elem_of_nil|].
  intros [->|Hin]%elem_of_cons; cbn [map]; [apply list_elem_of_here|].
  by apply list_elem_of_further, IH.
Qed.

Lemma insert_desc_perm item sorted :
  Permutation (insert_desc item sorted) (item :: sorted).
Proof.
  induction sorted as [|other sorted IH]; [done|]. cbn [insert_desc].
  destruct (PrimFloat.ltb (fst item) (fst other)); [|done].
  rewrite IH. apply perm_swap.
Qed.

Lemma sort_desc_cons item items :
  sort_desc (item :: items) = insert_desc item (sort_desc items).
Proof. reflexivity. Qed.

Lemma sort_desc_perm items : Permutation (sort_desc items) items.
Proof.
  induction items as [|item items IH]; [done|]. rewrite sort_desc_cons. rewrite insert_desc_perm. by constructor.
Qed.

Lemma sort_desc_length items : length (sort_desc items) = length items.
Proof. apply Permutation_length, sort_desc_perm. Qed.

Lemma sort_desc_elem_of item items : item ∈ sort_desc items ↔ item ∈ items.
Proof. by rewrite (sort_desc_perm items). Qed.

Variable keys : list float.
Hypothesis keys_ordered : orders keys.

Lemma insert_desc_sorted item sorted :
  fst item ∈ keys →
  (∀ other, other ∈ sorted → fst other ∈ keys) →
  StronglySorted not_below sorted →
  StronglySorted not_below (insert_desc item sorted).
Proof.
  destruct keys_ordered as [Hasym Htrans].
  intros Hitem Hkeys Hsorted.
  induction sorted as [|other sorted IH]; cbn [insert_desc].
  - repeat constructor.
  - apply StronglySorted_inv in Hsorted as [Hsorted Hall].
    assert (Hother : fst other ∈ keys) by (apply Hkeys, list_elem_of_here).
    assert (Hrest : ∀ o, o ∈ sorted → fst o ∈ keys).
    { intros o Ho. by apply Hkeys, list_elem_of_further. }
    destruct (PrimFloat.ltb (fst item) (fst other)) eqn:Hlt.
    + constructor; [by apply IH|].
      apply Forall_forall. intros o Ho.
      rewrite (insert_desc_perm item sorted) in Ho.
      apply elem_of_cons in Ho as [->|Ho].
      * by apply Hasym.
      * rewrite Forall_forall in Hall. by apply Hall.
    + constructor; [by constructor|].
      constructor; [exact Hlt|].
      apply Forall_forall. intros o Ho.
      rewrite Forall_forall in Hall.
      apply (Htrans _ (fst other)); [done|done| |done|by apply Hall].
      by apply Hrest.
Qed.

Lemma sort_desc_sorted items :
  (∀ item, item ∈ items → fst item ∈ keys) →
  StronglySorted not_below (sort_desc items).
Proof.
  induction items as [|item items IH]; intros Hkeys; [constructor|].
  rewrite sort_desc_cons.
  apply insert_desc_sorted.
  - apply Hkeys, list_elem_of_here.
  - intros other Hother. rewrite sort_desc_elem_of in Hother.
    by apply Hkeys, list_elem_of_further.
  - apply IH. intros o Ho. by apply Hkeys, list_elem_of_further.
Qed.

(** An item is moved past the entries it is less than, so never past
    one it ties with. *)
Lemma insert_desc_ties s item sorted :
  s ∈ keys →
  fst item ∈ keys →
  (∀ other, other ∈ sorted → fst other ∈ keys) →
  filter (λ p, ties s (fst p) = true) (insert_desc item sorted)
  = filter (λ p, ties s (fst p) = true) (item :: sorted).
Proof.
  destruct keys_ordered as [Hasym Htrans].
  intros Hs Hitem Hkeys.
  induction sorted as [|other sorted IH]; [done|]. cbn [insert_desc].
  assert (Hother : fst other ∈ keys) by (apply Hkeys, list_elem_of_here).
  destruct (PrimFloat.ltb (fst item) (fst other)) eqn:Hlt; [|done].
  rewrite filter_cons, IH by (intros o Ho; by apply Hkeys, list_elem_of_further).
  rewrite !filter_cons.
  destruct (decide (ties s (fst other) = true)) as [Ho|Ho]; [|done].
  destruct (decide (ties s (fst item) = true)) as [Hi|Hi]; [|done].
  exfalso. unfold ties in Ho, Hi.
  apply andb_true_iff in Ho as [_ Ho], Hi as [Hi _].
  apply negb_true_iff in Ho, Hi.
  pose proof (Htrans (fst item) s (fst other) Hitem Hs Hother Hi Ho). congruence.
Qed.

Lemma sort_desc_ties s items :
  s ∈ keys →
  (∀ item, item ∈ items → fst item ∈ keys) →
  filter (λ p, ties s (fst p) = true) (sort_desc items)
  = filter (λ p, ties s (fst p) = true) items.
Proof.
  intros Hs. induction items as [|item items IH]; intros Hkeys; [done|].
  rewrite sort_desc_cons.
  rewrite insert_desc_ties.
  - rewrite !filter_cons, IH; [done|].
    intros o Ho. by apply Hkeys, list_elem_of_further.
  - done.
  - apply Hkeys, list_elem_of_here.
  - intros other Hother. rewrite sort_desc_elem_of in Hother.
    by apply Hkeys, list_elem_of_further.
Qed.

End SortDesc.

Lemma sort_desc_stable_descending {A : Type} (scored : list (float * A)) :
  orders (map fst scored) → stable_descending scored (sort_desc scored).
Proof.
  intros Hord. split; [apply sort_desc_perm|]. split.
  - apply (sort_desc_sorted (map fst scored) Hord).
    intros item. apply elem_of_map_fst.
  - intros s Hs. apply (sort_desc_ties (map fst scored) Hord); [done|].
    intros item. apply elem_of_map_fst.
Qed.

(** ** [rerank] *)

Lemma scored_candidates_zip qv candidates dvs :
  scored_candidates qv candidates dvs
  = zip (map (_cosine_similarity qv) dvs) candidates.
Proof.
  unfold scored_candidates. revert dvs.
  induction candidates as [|c candidates IH]; intros [|v dvs]; cbn; try done.
  by rewrite IH.
Qed.

Lemma length_zip_same {A B : Type} (xs : list A) (ys : list B) :
  length xs = length ys → length (zip xs ys) = length ys.
Proof.
  revert ys. induction xs as [|x xs IH]; intros [|y ys]; cbn; try done.
  intros [= Hlen]. by rewrite IH.
Qed.

(** C5, as worded, fails: finite vectors can give a similarity that
    is a NaN, and then the result need not be in descending order. The
    query and the three candidates below have finite vectors; the
    similarities are [0.0], a NaN (the dot product and a norm overflow)
    and [1.0]. The sort leaves the candidates where they are, and for
    [top_n = 1] the candidate of similarity [0.0] is returned, not the
    one of similarity [1.0]. *)
Lemma rerank_nan_breaks_order :
  let candidates :=
    [sample_hit "across"; sample_hit "huge"; sample_hit "along"] in
  let query_vector := [0x1p500%float; 0%float] in
  overflow_embed ("query" :: map sr_text candidates)
  = Returned [query_vector; [0%float; 1%float]; [0x1p600%float; 0%float];
              [1%float; 0%float]] ∧
  _cosine_similarity query_vector [0%float; 1%float] = 0%float ∧
  is_nan (_cosine_similarity query_vector [0x1p600%float; 0%float]) = true ∧
  _cosine_similarity query_vector [1%float; 0%float] = 1%float ∧
  rerank overflow_embed "query" candidates 3 = Returned candidates ∧
  rerank overflow_embed "query" candidates 1 = Returned [sample_hit "across"].
Proof. cbv zeta. repeat split; by vm_compute. Qed.

(** C5, amended: let the provider answer [[query] + texts] with one
    vector per text, and let none of the similarities be a NaN. Then,
    for [top_n >= 0], [rerank] returns the candidates of the first
    [min(top_n, len(candidates))] entries of [ranked], where [ranked] is
    the list of (similarity, candidate) pairs arranged in descending
    order of similarity with ties in their input order. The similarity
    that the code computes is the cosine of the two vectors, evaluated
    in binary64; when it involves a zero vector it is [0.0]. *)
Theorem rerank_stable_top_n embed query candidates top_n vectors :
  0 ≤ top_n →
  embed (query :: map sr_text candidates) = Returned vectors →
  length vectors = S (length candidates) →
  Forall (λ s, is_nan s = false) (similarities vectors) →
  (∃ ranked,
     stable_descending (zip (similarities vectors) candidates) ranked ∧
     rerank embed query candidates top_n
     = Returned (map snd (take (Z.to_nat top_n) ranked)) ∧
     Z.of_nat (length (map snd (take (Z.to_nat top_n) ranked)))
     = Z.min top_n (Z.of_nat (length candidates)))
  ∧ (∀ a b, _cosine_similarity a b = cosine a b)
  ∧ ∀ a b, zero_vector a ∨ zero_vector b → _cosine_similarity a b = 0%float.
Proof.
  intros Hn Hembed Hlen Hnan. split; [|split].
  - apply orders_no_nan in Hnan as Hord.
    destruct vectors as [|qv dvs]; [done|]. cbn [similarities] in *.
    injection Hlen as Hlen.
    set (scored := zip (map (cosine qv) dvs) candidates).
    assert (Hkeys : map fst scored = map (cosine qv) dvs).
    { unfold scored. apply fst_zip. rewrite length_map. lia. }
    exists (sort_desc scored). split; [|split].
    + apply sort_desc_stable_descending. by rewrite Hkeys.
    + unfold rerank. destruct candidates as [|c candidates].
      * destruct dvs; [|done]. unfold scored. cbn. by rewrite take_nil.
      * cbn [nonempty]. rewrite Hembed. cbn [bind].
        rewrite scored_candidates_zip. unfold py_slice_to.
        apply Z.leb_le in Hn. rewrite Hn. unfold scored.
        do 5 f_equal. apply map_ext. intros v. apply _cosine_similarity_cosine.
    + rewrite length_map, length_take, sort_desc_length.
      unfold scored. rewrite length_zip_same by (by rewrite length_map).
      lia.
  - apply _cosine_similarity_cosine.
  - intros a b [Ha|Hb];
      [by apply _cosine_similarity_zero_l|by apply _cosine_similarity_zero_r].
Qed.

(** Membership in a list given by its elements, one case per element. *)
Ltac each_member H :=
  repeat (apply elem_of_cons in H as [->|H]); [..|by apply elem_of_nil in H].

Lemma rerank_stable_top_n_witness :
  let candidates :=
    [sample_hit "north"; sample_hit "east"; sample_hit "ne"; sample_hit "east"] in
  let vectors :=
    [[1%float; 0%float]; [0%float; 1%float]; [1%float; 0%float];
     [1%float; 1%float]; [1%float; 0%float]] in
  (∃ ranked,
     stable_descending (zip (similarities vectors) candidates) ranked ∧
     rerank sample_embed "east" candidates 3
     = Returned (map snd (take (Z.to_nat 3) ranked)) ∧
     Z.of_nat (length (map snd (take (Z.to_nat 3) ranked)))
     = Z.min 3 (Z.of_nat (length candidates)))
  ∧ (∀ a b, _cosine_similarity a b = cosine a b)
  ∧ ∀ a b, zero_vector a ∨ zero_vector b → _cosine_similarity a b = 0%float.
Proof.
  intros candidates vectors.
  apply (rerank_stable_top_n sample_embed "east" candidates 3 vectors).
  - lia.
  - reflexivity.
  - reflexivity.
  - repeat constructor.
Defined.
(* ===================================================================== *)
(** * Properties of the grounding assembler *)
(* ===================================================================== *)

Lemma pack_key_grounding_of c : pack_key (grounding_of c) = candidate_key c.
Proof. reflexivity. Qed.

Section GroundingFacts.

Variable max_chunks : Z.
Variable diversify : bool.

Local Abbreviation step := (pack_step max_chunks diversify).
Local Abbreviation loop := (pack_loop max_chunks diversify).

Lemma pack_loop_app l1 l2 st : loop (l1 ++ l2) st = loop l2 (loop l1 st).
Proof. apply fold_left_app. Qed.

Lemma pack_loop_stopped l st : stopped st = true → loop l st = st.
Proof.
  induction l as [|c l IH]; intros Hs; [done|].
  cbn. unfold pack_step at 2. rewrite Hs. auto.
Qed.

(** Induction principle for loop invariants that mention the
    candidates consumed so far. *)
Lemma pack_loop_invariant (P : list SearchResult → pack_state → Prop) :
  P [] pack_init →
  (∀ done st c, P done st → P (done ++ [c]) (step st c)) →
  ∀ l, P l (loop l pack_init).
Proof.
  intros H0 Hstep l. induction l as [|c l IH] using rev_ind; [done|].
  rewrite pack_loop_app. cbn. by apply Hstep.
Qed.

(** The three outcomes of one iteration. *)
Lemma pack_step_cases st c :
  (step st c = st) ∨
  (stopped st = false ∧ (candidate_key c ∉ seen st) ∧
   diversify = true ∧
   doc_cap max_chunks ≤ default 0 (per_doc_counts st !! sr_doc_id c) ∧
   step st c = {| seen := seen st ∪ {[ candidate_key c ]};
                  per_doc_counts := per_doc_counts st;
                  pack := pack st; stopped := false |}) ∨
  (stopped st = false ∧ (candidate_key c ∉ seen st) ∧
   (diversify = true →
    default 0 (per_doc_counts st !! sr_doc_id c) < doc_cap max_chunks) ∧
   step st c = {| seen := seen st ∪ {[ candidate_key c ]};
                  per_doc_counts :=
                    if diversify
                    then <[ sr_doc_id c :=
                              default 0 (per_doc_counts st !! sr_doc_id c) + 1 ]>
                           (per_doc_counts st)
                    else per_doc_counts st;
                  pack := pack st ++ [grounding_of c];
                  stopped := max_chunks <=?
                             Z.of_nat (length (pack st ++ [grounding_of c])) |}).
Proof.
  unfold pack_step, pack_body.
  destruct (stopped st) eqn:Hs; [by left|].
  destruct (decide (candidate_key c ∈ seen st)) as [Hin|Hin]; [by left|].
  destruct diversify eqn:Hd; cbn [andb].
  - destruct (Z.leb_spec (doc_cap max_chunks)
                (default 0 (per_doc_counts st !! sr_doc_id c))) as [Hle|Hlt].
    + right; left. by repeat split.
    + right; right. by repeat split.
  - right; right. by repeat split.
Qed.

Lemma length_inv_step st c : length_inv max_chunks st → length_inv max_chunks (step st c).
Proof.
  intros [Hle Hgrow].
  destruct (pack_step_cases st c) as [->|[(Hs&_&_&_&->)|(Hs&_&_&->)]];
    [done|split; cbn; auto|].
  unfold length_inv. cbn [pack stopped].
  rewrite length_app, Nat2Z.inj_add. cbn [length].
  split.
  - destruct (Hgrow Hs) as [->|Hlt]; cbn [length]; lia.
  - intros Hb%Z.leb_gt. right. lia.
Qed.

Lemma order_inv_step done st c :
  order_inv done st → order_inv (done ++ [c]) (step st c).
Proof.
  intros (kept & Hsub & Hpack).
  destruct (pack_step_cases st c) as [->|[(_&_&_&_&->)|(_&_&_&->)]].
  - exists kept. split; [|done]. by apply sublist_inserts_r.
  - exists kept. split; [|done]. by apply sublist_inserts_r.
  - exists (kept ++ [c]). split; [by apply sublist_app|].
    cbn [pack]. by rewrite Hpack, map_app.
Qed.

Lemma first_with_key_snoc done g c :
  first_with_key done g → first_with_key (done ++ [c]) g.
Proof.
  intros (pre & c0 & post & -> & -> & Hfirst).
  exists pre, c0, (post ++ [c]). by rewrite <- app_assoc.
Qed.

Lemma dedup_inv_step done st c :
  dedup_inv done st → dedup_inv (done ++ [c]) (step st c).
Proof.
  intros (Hseen & Hnodup & Hall & Hfrom & Hfirst).
  assert (Hfrom' : ∀ k, k ∈ seen st ∪ {[candidate_key c]} →
                        ∃ c0, c0 ∈ done ++ [c] ∧ candidate_key c0 = k).
  { intros k [Hk|Hk]%elem_of_union.
    - destruct (Hfrom k Hk) as (c0 & ? & ?). exists c0. set_solver.
    - apply elem_of_singleton in Hk as ->. exists c. set_solver. }
  assert (Hall' : stopped st = false →
                  ∀ c0, c0 ∈ done ++ [c] →
                        candidate_key c0 ∈ seen st ∪ {[candidate_key c]}).
  { intros Hs c0 [Hc0|Hc0]%elem_of_app.
    - apply elem_of_union_l. by apply Hall.
    - apply list_elem_of_singleton in Hc0 as ->. set_solver. }
  destruct (pack_step_cases st c) as [Heq|[(Hs&Hnew&_&_&->)|(Hs&Hnew&_&->)]].
  - rewrite Heq. repeat split; auto.
    + intros Hs c0 [Hc0|Hc0]%elem_of_app; [by apply Hall|].
      apply list_elem_of_singleton in Hc0 as ->.
      revert Heq. unfold pack_step, pack_body. rewrite Hs.
      destruct (decide (candidate_key c ∈ seen st)); [done|].
      intros Heq. exfalso.
      assert (Hk : candidate_key c ∈ seen st);
        [rewrite <- Heq|done].
      destruct (diversify && _); cbn; set_solver.
    + intros k Hk. destruct (Hfrom k Hk) as (c0 & ? & ?).
      exists c0. set_solver.
    + intros g Hg. by apply first_with_key_snoc, Hfirst.
  - unfold dedup_inv. cbn [pack seen stopped]. repeat split; auto.
    + intros g Hg. apply elem_of_union_l. by apply Hseen.
    + intros g Hg. by apply first_with_key_snoc, Hfirst.
  - unfold dedup_inv. cbn [pack seen stopped]. repeat split; auto.
    + intros g [Hg|Hg]%elem_of_app.
      * apply elem_of_union_l. by apply Hseen.
      * apply list_elem_of_singleton in Hg as ->.
        rewrite pack_key_grounding_of. set_solver.
    + rewrite fmap_app. cbn [fmap list_fmap]. rewrite pack_key_grounding_of.
      apply NoDup_app. split; [done|]. split; [|apply NoDup_singleton].
      intros k Hk Hk'. apply list_elem_of_singleton in Hk' as ->.
      apply list_elem_of_fmap in Hk as (g & Hkey & Hg).
      apply Hnew. rewrite Hkey. by apply Hseen.
    + intros g [Hg|Hg]%elem_of_app.
      * by apply first_with_key_snoc, Hfirst.
      * apply list_elem_of_singleton in Hg as ->.
        exists done, c, []. repeat split.
        intros c' Hc' Hkey. apply Hnew. rewrite <- Hkey. by apply Hall.
Qed.

(** Monotonicity of [seen], and where the entries of the final pack
    come from. *)
Lemma seen_step_mono st c : seen st ⊆ seen (step st c).
Proof.
  destruct (pack_step_cases st c) as [->|[(_&_&_&_&->)|(_&_&_&->)]];
    cbn [seen]; set_solver.
Qed.

Lemma pack_loop_late_keys l st g :
  (∀ g', g' ∈ pack st → pack_key g' ∈ seen st) →
  g ∈ pack (loop l st) → g ∈ pack st ∨ pack_key g ∉ seen st.
Proof.
  revert st. induction l as [|c l IH]; intros st Hseen Hg; [by left|].
  cbn in Hg. apply IH in Hg.
  - destruct (pack_step_cases st c) as [Heq|[(_&_&_&_&Heq)|(_&Hnew&_&Heq)]];
      rewrite Heq in Hg; cbn [pack seen] in Hg.
    + done.
    + destruct Hg as [Hg|Hg]; [by left|]. right. set_solver.
    + destruct Hg as [[Hg|Hg]%elem_of_app|Hg]; [by left| |right; set_solver].
      apply list_elem_of_singleton in Hg as ->. by right.
  - intros g' Hg'.
    destruct (pack_step_cases st c) as [Heq|[(_&_&_&_&Heq)|(_&_&_&Heq)]];
      rewrite Heq in Hg' |- *; cbn [pack seen] in Hg' |- *.
    + by apply Hseen.
    + apply elem_of_union_l. by apply Hseen.
    + apply elem_of_app in Hg' as [Hg'|Hg'].
      * apply elem_of_union_l. by apply Hseen.
      * apply list_elem_of_singleton in Hg' as ->.
        rewrite pack_key_grounding_of. set_solver.
Qed.

(** A candidate whose key is already in [seen] leaves the state as
    it is. *)
Lemma pack_step_seen st c : candidate_key c ∈ seen st → step st c = st.
Proof.
  intros Hin. unfold pack_step, pack_body.
  destruct (stopped st); [done|]. by rewrite decide_True.
Qed.

Lemma pack_loop_seen_mono l st : seen st ⊆ seen (loop l st).
Proof.
  revert st. induction l as [|c l IH]; intros st; [done|].
  cbn. etrans; [apply (seen_step_mono st c)|apply IH].
Qed.

End GroundingFacts.

Lemma doc_share_snoc d p g :
  doc_share d (p ++ [g]) =
  doc_share d p + (if decide (gc_doc_id g = d) then 1 else 0).
Proof.
  unfold doc_share. rewrite filter_app, length_app, Nat2Z.inj_add.
  f_equal. rewrite filter_cons, filter_nil.
  by destruct (decide (gc_doc_id g = d)).
Qed.

Lemma diversity_inv_step max_chunks st c :
  diversity_inv max_chunks st →
  diversity_inv max_chunks (pack_step max_chunks true st c).
Proof.
  intros Hinv.
  destruct (pack_step_cases max_chunks true st c)
    as [->|[(_&_&_&_&->)|(_&_&Hlt&->)]]; [done|done|].
  intros d. cbn [pack per_doc_counts].
  rewrite doc_share_snoc. cbn [grounding_of gc_doc_id].
  destruct (Hinv d) as [Hshare Hcap]. specialize (Hlt eq_refl).
  destruct (decide (sr_doc_id c = d)) as [Heq|Hne].
  - rewrite Heq in Hlt |- *. rewrite lookup_insert_eq.
    cbn [default from_option id]. lia.
  - rewrite lookup_insert_ne by done. lia.
Qed.

Lemma diversity_inv_loop max_chunks l st :
  diversity_inv max_chunks st →
  diversity_inv max_chunks (pack_loop max_chunks true l st).
Proof.
  revert st. induction l as [|c l IH]; intros st Hinv; [done|].
  cbn. by apply IH, diversity_inv_step.
Qed.

Lemma diversity_inv_init max_chunks : diversity_inv max_chunks pack_init.
Proof.
  intros d. cbn. rewrite lookup_empty. cbn. unfold doc_cap. split; [done|lia].
Qed.

(** ** Length and order *)

(** The pack never exceeds [max(1, max_chunks)] entries: the length is
    tested after the append, so one entry can always get in. *)
Lemma build_grounding_pack_length candidates max_chunks diversify :
  Z.of_nat (length (build_grounding_pack candidates max_chunks diversify))
  ≤ Z.max 1 max_chunks.
Proof.
  unfold build_grounding_pack.
  assert (H : length_inv max_chunks
                (pack_loop max_chunks diversify candidates pack_init)).
  { apply (pack_loop_invariant max_chunks diversify
             (λ _ st, length_inv max_chunks st)).
    - split; cbn; [lia|by left].
    - intros _ st c. apply length_inv_step. }
  apply H.
Qed.

Lemma build_grounding_pack_order candidates max_chunks diversify :
  ∃ kept, sublist kept candidates ∧
          build_grounding_pack candidates max_chunks diversify
          = map grounding_of kept.
Proof.
  apply (pack_loop_invariant max_chunks diversify order_inv).
  - by exists [].
  - apply order_inv_step.
Qed.

(** C3, at [max_chunks = 0]: a pack was asked to hold no chunk at all
    and holds one. The bound on the length of the pack is lost because
    the test [len(pack) >= max_chunks] only runs after an append. *)
Theorem build_grounding_pack_zero_cap_overflow :
  Z.of_nat (length (build_grounding_pack
                      [sample_candidate "doc-1" "Intro" 1] 0 true)) = 1
  ∧ ¬ (Z.of_nat (length (build_grounding_pack
                      [sample_candidate "doc-1" "Intro" 1] 0 true)) ≤ 0).
Proof. vm_compute. split; [reflexivity|intros H; by apply H]. Qed.

(** ** Deduplication *)

Lemma dedup_inv_loop max_chunks diversify candidates :
  dedup_inv candidates (pack_loop max_chunks diversify candidates pack_init).
Proof.
  apply (pack_loop_invariant max_chunks diversify dedup_inv).
  - repeat split; cbn; try set_solver. apply NoDup_nil_2.
  - apply dedup_inv_step.
Qed.

(** C7: no two entries of the pack share the key
    [(doc_id, section_path, page_start, page_end)], and every entry of
    the pack is built from the first candidate, in input order, that
    carries its key. *)
Theorem build_grounding_pack_dedup candidates max_chunks diversify :
  NoDup (pack_key <$> build_grounding_pack candidates max_chunks diversify) ∧
  ∀ g, g ∈ build_grounding_pack candidates max_chunks diversify →
       first_with_key candidates g.
Proof.
  destruct (dedup_inv_loop max_chunks diversify candidates)
    as (_ & Hnodup & _ & _ & Hfirst).
  by split.
Qed.

(** ** Diversification *)

(** C8: with diversification on, no [doc_id] has more than
    [max(2, max_chunks // 3)] entries in the pack. *)
Theorem build_grounding_pack_diversity candidates max_chunks d :
  doc_share d (build_grounding_pack candidates max_chunks true)
  ≤ Z.max 2 (max_chunks / 3).
Proof.
  destruct (diversity_inv_loop max_chunks candidates pack_init
              (diversity_inv_init max_chunks) d) as [Hshare Hcap].
  unfold build_grounding_pack. rewrite Hshare. exact Hcap.
Qed.

(** ** A key is recorded before the cap is applied *)

(** C10: let [c] be a candidate that the loop reaches (no [break] so
    far) with a fresh key while its document already stands at the cap,
    so that [c] is rejected by the cap. Then [c] adds nothing to the
    pack, yet its key is in [seen] once [c] has been consumed. It is
    still there when a later candidate [c'] with the key of [c] is
    reached, so [c'] is skipped by the test [key in seen] and leaves the
    state as it is: the pack is the one built without [c'], and no
    entry of the pack carries that key. *)
Theorem build_grounding_pack_capped_key_blocks
    max_chunks pre c mid c' post :
  let st := pack_loop max_chunks true pre pack_init in
  stopped st = false →
  candidate_key c ∉ seen st →
  doc_cap max_chunks ≤ default 0 (per_doc_counts st !! sr_doc_id c) →
  candidate_key c' = candidate_key c →
  let st1 := pack_loop max_chunks true (pre ++ [c]) pack_init in
  let st2 := pack_loop max_chunks true (pre ++ c :: mid) pack_init in
  (pack st1 = pack st ∧ candidate_key c ∈ seen st1) ∧
  (candidate_key c' ∈ seen st2 ∧ pack_step max_chunks true st2 c' = st2) ∧
  build_grounding_pack (pre ++ c :: mid ++ c' :: post) max_chunks true
  = build_grounding_pack (pre ++ c :: mid ++ post) max_chunks true
  ∧ ∀ g, g ∈ build_grounding_pack (pre ++ c :: mid ++ c' :: post) max_chunks true →
         pack_key g ≠ candidate_key c.
Proof.
  intros st Hrun Hfresh Hcap Hkey st1 st2.
  pose proof (dedup_inv_loop max_chunks true pre) as (Hseen & _).
  fold st in Hseen.
  assert (Hst1 : st1 = {| seen := seen st ∪ {[ candidate_key c ]};
                          per_doc_counts := per_doc_counts st;
                          pack := pack st; stopped := false |}).
  { unfold st1. rewrite pack_loop_app. fold st. cbn [pack_loop fold_left].
    unfold pack_step, pack_body. rewrite Hrun, decide_False by done.
    cbn [andb]. by apply Z.leb_le in Hcap as ->. }
  assert (Hin1 : candidate_key c ∈ seen st1) by (rewrite Hst1; cbn; set_solver).
  assert (Hst2 : st2 = pack_loop max_chunks true mid st1).
  { unfold st2, st1. by rewrite <- pack_loop_app, <- app_assoc. }
  assert (Hin2 : candidate_key c' ∈ seen st2).
  { rewrite Hkey, Hst2. by apply (pack_loop_seen_mono max_chunks true mid st1). }
  pose proof (pack_step_seen max_chunks true st2 c' Hin2) as Hskip.
  split; [split; [by rewrite Hst1|done]|]. split; [done|].
  assert (Hwith : pack_loop max_chunks true (pre ++ c :: mid ++ c' :: post) pack_init
                  = pack_loop max_chunks true post st2).
  { replace (pre ++ c :: mid ++ c' :: post)
      with ((pre ++ c :: mid) ++ c' :: post) by (by rewrite <- app_assoc).
    rewrite pack_loop_app. fold st2. cbn [pack_loop fold_left].
    by rewrite Hskip. }
  assert (Hwithout : pack_loop max_chunks true (pre ++ c :: mid ++ post) pack_init
                     = pack_loop max_chunks true post st2).
  { replace (pre ++ c :: mid ++ post)
      with ((pre ++ c :: mid) ++ post) by (by rewrite <- app_assoc).
    by rewrite pack_loop_app. }
  unfold build_grounding_pack. rewrite Hwith, Hwithout.
  split; [done|].
  intros g Hg Hgk.
  assert (Hseen1 : ∀ g', g' ∈ pack st1 → pack_key g' ∈ seen st1).
  { rewrite Hst1. cbn. intros g' Hg'. apply elem_of_union_l. by apply Hseen. }
  assert (Hg' : g ∈ pack (pack_loop max_chunks true (mid ++ post) st1)).
  { by rewrite pack_loop_app, <- Hst2. }
  apply pack_loop_late_keys in Hg'; [|exact Hseen1].
  destruct Hg' as [Hg'|Hg'].
  - assert (Hp : pack st1 = pack st) by (by rewrite Hst1).
    rewrite Hp in Hg'. apply Hfresh. rewrite <- Hgk. by apply Hseen.
  - apply Hg'. by rewrite Hgk.
Qed.

Lemma build_grounding_pack_capped_key_blocks_witness :
  let pre := [sample_candidate "doc-1" "Intro" 1;
              sample_candidate "doc-1" "Scope" 2] in
  let c := sample_candidate "doc-1" "Terms" 3 in
  let mid := [sample_candidate "doc-2" "Intro" 1] in
  let st := pack_loop 6 true pre pack_init in
  let st1 := pack_loop 6 true (pre ++ [c]) pack_init in
  let st2 := pack_loop 6 true (pre ++ c :: mid) pack_init in
  (pack st1 = pack st ∧ candidate_key c ∈ seen st1) ∧
  (candidate_key c ∈ seen st2 ∧ pack_step 6 true st2 c = st2) ∧
  build_grounding_pack (pre ++ c :: mid ++ c :: []) 6 true
  = build_grounding_pack (pre ++ c :: mid ++ []) 6 true
  ∧ ∀ g, g ∈ build_grounding_pack (pre ++ c :: mid ++ c :: []) 6 true →
         pack_key g ≠ candidate_key c.
Proof.
  intros pre c mid.
  apply (build_grounding_pack_capped_key_blocks 6 pre c mid c []).
  - vm_compute. reflexivity.
  - vm_compute. intros H. discriminate H.
  - vm_compute. intros H. discriminate H.
  - reflexivity.
Defined.
(* ===================================================================== *)
(** * More properties of the chunker *)
(* ===================================================================== *)

(** ** The retained tail, again *)

Lemma tail_loop_extends ov rs tl total :
  tl `prefix_of` tail_loop ov rs tl total.
Proof.
  revert tl total. induction rs as [|b rs IH]; intros tl total; cbn [tail_loop].
  - done.
  - destruct (_ && _); [done|].
    etrans; [|apply IH]. by apply prefix_app_r.
Qed.

Lemma _tail_within_tokens_nonempty bs ov :
  bs ≠ [] → _tail_within_tokens bs ov ≠ [].
Proof.
  intros Hne. unfold _tail_within_tokens.
  destruct (rev bs) as [|b rs] eqn:Hrev.
  { apply (f_equal (@rev _)) in Hrev. rewrite rev_involutive in Hrev. done. }
  cbn [tail_loop nonempty]. rewrite andb_false_r.
  pose proof (tail_loop_extends ov rs ([] ++ [b])
                (0 + _estimate_tokens (text b))) as [k Hk].
  rewrite Hk. cbn [app rev]. by destruct (rev k).
Qed.

Lemma _tail_within_tokens_suffix bs ov :
  _tail_within_tokens bs ov `suffix_of` bs.
Proof.
  destruct (_tail_within_tokens_spec bs ov) as (dropped & Hbs & _).
  by exists dropped.
Qed.

(** ** Runs: what every document and every configuration keep *)

Lemma chunks_of_runs_snoc doc runs r :
  chunks_of_runs doc (runs ++ [r])
  = chunks_of_runs doc runs
    ++ [make_chunk doc (Z.of_nat (length runs)) (fst r) (snd r)].
Proof.
  unfold chunks_of_runs. rewrite imap_app. cbn [imap].
  by rewrite Nat.add_0_r.
Qed.

Lemma contiguous_in_snoc bs l b :
  contiguous_in bs l → contiguous_in bs (l ++ [b]).
Proof.
  intros (before & after & ->). exists before, (after ++ [b]).
  by rewrite <- !app_assoc.
Qed.

Lemma contiguous_in_suffix bs l : bs `suffix_of` l → contiguous_in bs l.
Proof. intros [before ->]. exists before, []. by rewrite app_nil_r. Qed.

Section Runs.

Variable doc : DocumentRevision.
Variable config : ChunkingConfig.

(** Appending the next block to the buffer. *)
Lemma runs_inv_append done st runs b :
  runs_inv doc done st runs →
  runs_inv doc (done ++ [b])
    {| chunks := chunks st;
       buffer := buffer st ++ [b];
       buffer_tokens := buffer_tokens st + _estimate_tokens (text b);
       chunk_index := chunk_index st |} runs.
Proof.
  intros ([before Hdone] & Htok & Hchunks & Hidx & Hcont & Hcov & Hlast & Hover).
  unfold runs_inv. cbn [chunks buffer buffer_tokens chunk_index].
  split; [|split; [|split; [|split; [|split; [|split; [|split]]]]]].
  - exists before. by rewrite Hdone, <- app_assoc.
  - rewrite block_tokens_app, Htok. cbn [block_tokens]. lia.
  - done.
  - done.
  - intros r Hr. by apply contiguous_in_snoc, Hcont.
  - intros b' [Hb'|Hb']%elem_of_app.
    + destruct (Hcov b' Hb') as [Hbuf|Hrun]; [|by right].
      left. apply elem_of_app. by left.
    + left. apply elem_of_app. by right.
  - intros r Hr. destruct (Hlast r Hr) as (Hne & shared & Hs & Hsuf & Hpre).
    split; [by destruct (buffer st)|].
    exists shared. split; [done|]. split; [done|]. by apply prefix_app_r.
  - done.
Qed.

(** A flush that fires: the buffer becomes a run, its tail the new
    buffer. *)
Lemma runs_inv_fired done st runs first others :
  runs_inv doc done st runs →
  buffer st = first :: others →
  runs_inv doc done
    {| chunks := chunks st ++ [make_chunk doc (chunk_index st) first others];
       buffer := _tail_within_tokens (buffer st) (overlap_tokens config);
       buffer_tokens :=
         block_tokens (_tail_within_tokens (buffer st) (overlap_tokens config));
       chunk_index := chunk_index st + 1 |}
    (runs ++ [(first, others)]).
Proof.
  intros (Hsuf & Htok & Hchunks & Hidx & Hcont & Hcov & Hlast & Hover) Hbuf.
  pose proof (_tail_within_tokens_suffix (buffer st) (overlap_tokens config))
    as Htail.
  assert (Hne : _tail_within_tokens (buffer st) (overlap_tokens config) ≠ []).
  { apply _tail_within_tokens_nonempty. by rewrite Hbuf. }
  unfold runs_inv. cbn [chunks buffer buffer_tokens chunk_index].
  split; [|split; [|split; [|split; [|split; [|split; [|split]]]]]].
  - by etrans.
  - done.
  - by rewrite chunks_of_runs_snoc, Hchunks, Hidx.
  - rewrite length_app. cbn [length]. lia.
  - intros r [Hr|Hr]%elem_of_app; [by apply Hcont|].
    apply list_elem_of_singleton in Hr as ->.
    apply contiguous_in_suffix. unfold run_blocks. cbn [fst snd].
    by rewrite <- Hbuf.
  - intros b Hb. right. destruct (Hcov b Hb) as [Hin|(r & Hr & Hin)].
    + exists (first, others). split; [apply elem_of_app; right; apply list_elem_of_here|].
      unfold run_blocks. cbn [fst snd]. by rewrite <- Hbuf.
    + exists r. split; [apply elem_of_app; by left|done].
  - intros r Hr. rewrite last_snoc in Hr. injection Hr as <-.
    split; [done|].
    exists (_tail_within_tokens (buffer st) (overlap_tokens config)).
    split; [done|]. split; [|done].
    unfold run_blocks. cbn [fst snd]. by rewrite <- Hbuf.
  - intros i r1 r2 H1 H2.
    destruct (decide (S i < length runs)%nat) as [Hlt|Hge].
    + rewrite lookup_app_l in H1 by lia. rewrite lookup_app_l in H2 by lia.
      by apply (Hover i).
    + assert (Hi : S i = length runs).
      { apply lookup_lt_Some in H2. rewrite length_app in H2. cbn in H2. lia. }
      rewrite lookup_app_l in H1 by lia.
      rewrite lookup_app_r in H2 by lia.
      replace (S i - length runs)%nat with 0%nat in H2 by lia.
      injection H2 as <-.
      assert (Hl : last runs = Some r1).
      { rewrite last_lookup. rewrite <- Hi. exact H1. }
      destruct (Hlast r1 Hl) as (_ & shared & Hs & Hsuf1 & Hpre).
      exists shared. split; [done|]. split; [done|].
      unfold run_blocks at 1. cbn [fst snd]. by rewrite <- Hbuf.
Qed.

Lemma runs_inv_flush force done st runs :
  runs_inv doc done st runs →
  ∃ runs', runs_inv doc done (flush doc config force st) runs'.
Proof.
  intros Hinv. unfold flush.
  destruct (buffer st) as [|first others] eqn:Hbuf; [by exists runs|].
  destruct (negb force && _); [by exists runs|].
  exists (runs ++ [(first, others)]).
  rewrite <- Hbuf. by apply runs_inv_fired.
Qed.

Lemma runs_inv_step done st runs b :
  runs_inv doc done st runs →
  ∃ runs', runs_inv doc (done ++ [b]) (chunk_step doc config st b) runs'.
Proof.
  intros Hinv%(runs_inv_append _ _ _ b). unfold chunk_step.
  set (st1 := {| chunks := chunks st; buffer := buffer st ++ [b];
                 buffer_tokens := buffer_tokens st + _estimate_tokens (text b);
                 chunk_index := chunk_index st |}) in *.
  set (st2 := if target_tokens config <=? buffer_tokens st1
              then flush doc config false st1 else st1).
  assert (H2 : ∃ runs2, runs_inv doc (done ++ [b]) st2 runs2).
  { unfold st2. destruct (_ <=? _);
      [by apply (runs_inv_flush false _ _ runs)|by exists runs]. }
  destruct H2 as [runs2 H2]. clearbody st2.
  destruct (_ <=? _); [by apply (runs_inv_flush true _ _ runs2)|by exists runs2].
Qed.

Lemma runs_inv_loop bs :
  ∃ runs, runs_inv doc bs (chunk_loop doc config bs chunker_init) runs.
Proof.
  induction bs as [|b bs [runs IH]] using rev_ind.
  - exists []. unfold runs_inv. cbn.
    split; [done|]. split; [done|]. split; [done|]. split; [done|].
    split; [by intros r ?%elem_of_nil|]. split; [by intros b ?%elem_of_nil|].
    split; [done|]. by intros i r1 r2 ?.
  - unfold chunk_loop. rewrite fold_left_app. cbn [fold_left].
    by apply (runs_inv_step bs _ runs).
Qed.

(** The state after the flush at the end of the document: every block
    is in a run. *)
Lemma runs_inv_final :
  ∃ runs,
    runs_inv doc (blocks doc)
      (flush doc config true (chunk_loop doc config (blocks doc) chunker_init))
      runs ∧
    ∀ b, b ∈ blocks doc → ∃ r, r ∈ runs ∧ b ∈ run_blocks r.
Proof.
  destruct (runs_inv_loop (blocks doc)) as [runs Hinv].
  set (st := chunk_loop doc config (blocks doc) chunker_init) in *.
  destruct (buffer st) as [|first others] eqn:Hbuf.
  - exists runs. unfold flush. rewrite Hbuf. split; [done|].
    intros b Hb. destruct Hinv as (_ & _ & _ & _ & _ & Hcov & _).
    destruct (Hcov b Hb) as [Hin|Hrun]; [|done].
    rewrite Hbuf in Hin. by apply elem_of_nil in Hin.
  - exists (runs ++ [(first, others)]).
    rewrite (flush_fires doc config true st first others)
      by (first [exact Hbuf | by left]).
    split; [by apply runs_inv_fired|].
    intros b Hb. destruct Hinv as (_ & _ & _ & _ & _ & Hcov & _).
    destruct (Hcov b Hb) as [Hin|(r & Hr & Hin)].
    + exists (first, others).
      split; [apply elem_of_app; right; apply list_elem_of_here|].
      unfold run_blocks. cbn [fst snd]. by rewrite <- Hbuf.
    + exists r. split; [apply elem_of_app; by left|done].
Qed.

End Runs.

(** ** What [chunk_document] returns, for any document and configuration *)

Lemma chunk_document_as_runs doc config :
  ∃ runs,
    chunk_document doc config = chunks_of_runs doc runs ∧
    (∀ r, r ∈ runs → contiguous_in (run_blocks r) (blocks doc)) ∧
    (∀ b, b ∈ blocks doc → ∃ r, r ∈ runs ∧ b ∈ run_blocks r) ∧
    (∀ i r1 r2, runs !! i = Some r1 → runs !! S i = Some r2 →
                overlaps (run_blocks r1) (run_blocks r2)).
Proof.
  unfold chunk_document.
  destruct (runs_inv_final doc (default default_config config))
    as (runs & (_ & _ & Hchunks & _ & Hcont & _ & _ & Hover) & Hcov).
  exists runs. by repeat split.
Qed.

(** X1: the chunks are built, in order and numbered from zero, from
    runs of whole blocks, each a contiguous part of the document: no
    block is ever split, whatever the configuration. *)
Theorem chunk_document_contiguous_runs doc config :
  ∃ runs,
    chunk_document doc config = chunks_of_runs doc runs ∧
    ∀ r, r ∈ runs → contiguous_in (run_blocks r) (blocks doc).
Proof.
  destruct (chunk_document_as_runs doc config) as (runs & H1 & H2 & _).
  by exists runs.
Qed.

(** X2: no block is lost: every block of the document is in the run of
    at least one chunk. *)
Theorem chunk_document_covers_blocks doc config :
  ∃ runs,
    chunk_document doc config = chunks_of_runs doc runs ∧
    ∀ b, b ∈ blocks doc → ∃ r, r ∈ runs ∧ b ∈ run_blocks r.
Proof.
  destruct (chunk_document_as_runs doc config) as (runs & H1 & _ & H2 & _).
  by exists runs.
Qed.

(** X3: two consecutive chunks always share blocks: the run of the
    later one starts with a non-empty end of the run of the earlier
    one, also when [overlap_tokens] is zero or negative. *)
Theorem chunk_document_consecutive_overlap doc config :
  ∃ runs,
    chunk_document doc config = chunks_of_runs doc runs ∧
    ∀ i r1 r2, runs !! i = Some r1 → runs !! S i = Some r2 →
               overlaps (run_blocks r1) (run_blocks r2).
Proof.
  destruct (chunk_document_as_runs doc config) as (runs & H1 & _ & _ & H2).
  by exists runs.
Qed.

(** X4: a document without blocks gives no chunk, and any other
    document gives at least one. *)
Theorem chunk_document_empty_iff doc config :
  chunk_document doc config = [] ↔ blocks doc = [].
Proof.
  destruct (chunk_document_as_runs doc config) as (runs & -> & Hcont & Hcov & _).
  split.
  - intros Hnil. destruct runs as [|r runs]; [|done].
    destruct (blocks doc) as [|b bs]; [done|].
    destruct (Hcov b (list_elem_of_here _ _)) as (r & Hr & _).
    by apply elem_of_nil in Hr.
  - intros Hnil. destruct runs as [|r runs]; [done|].
    destruct (Hcont r (list_elem_of_here _ _)) as (before & after & Heq).
    rewrite Hnil in Heq. unfold run_blocks in Heq.
    by destruct before.
Qed.

(** ** Page ranges *)

Lemma min_page_fold others m :
  fold_left (λ m b, Z.min m (page b)) others m ≤ m ∧
  (∀ b, b ∈ others → fold_left (λ m b, Z.min m (page b)) others m ≤ page b) ∧
  (fold_left (λ m b, Z.min m (page b)) others m = m ∨
   ∃ b, b ∈ others ∧ fold_left (λ m b, Z.min m (page b)) others m = page b).
Proof.
  revert m. induction others as [|b others IH]; intros m; cbn [fold_left].
  - split; [lia|]. split; [by intros b ?%elem_of_nil|by left].
  - destruct (IH (Z.min m (page b))) as (Hle & Hall & Hwhich).
    split; [lia|]. split.
    + intros b' [->|Hb']%elem_of_cons; [lia|by apply Hall].
    + destruct Hwhich as [Heq|(b' & Hb' & Heq)].
      * destruct (Z.min_spec m (page b)) as [[_ Hm]|[_ Hm]]; rewrite Hm in Heq |- *.
        -- by left.
        -- right. exists b. split; [apply list_elem_of_here|done].
      * right. exists b'. split; [by apply list_elem_of_further|done].
Qed.

Lemma max_page_fold others m :
  m ≤ fold_left (λ m b, Z.max m (page b)) others m ∧
  (∀ b, b ∈ others → page b ≤ fold_left (λ m b, Z.max m (page b)) others m) ∧
  (fold_left (λ m b, Z.max m (page b)) others m = m ∨
   ∃ b, b ∈ others ∧ fold_left (λ m b, Z.max m (page b)) others m = page b).
Proof.
  revert m. induction others as [|b others IH]; intros m; cbn [fold_left].
  - split; [lia|]. split; [by intros b ?%elem_of_nil|by left].
  - destruct (IH (Z.max m (page b))) as (Hle & Hall & Hwhich).
    split; [lia|]. split.
    + intros b' [->|Hb']%elem_of_cons; [lia|by apply Hall].
    + destruct Hwhich as [Heq|(b' & Hb' & Heq)].
      * destruct (Z.max_spec m (page b)) as [[_ Hm]|[_ Hm]]; rewrite Hm in Heq |- *.
        -- right. exists b. split; [apply list_elem_of_here|done].
        -- by left.
      * right. exists b'. split; [by apply list_elem_of_further|done].
Qed.

Lemma elem_of_chunks_of_runs doc runs c :
  c ∈ chunks_of_runs doc runs →
  ∃ i r, runs !! i = Some r ∧ c = make_chunk doc (Z.of_nat i) (fst r) (snd r).
Proof.
  unfold chunks_of_runs. intros (i & r & -> & Hr)%elem_of_lookup_imap_1.
  by exists i, r.
Qed.

Lemma contiguous_in_elem_of bs l b : contiguous_in bs l → b ∈ bs → b ∈ l.
Proof.
  intros (before & after & ->) Hb.
  apply elem_of_app. right. apply elem_of_app. by left.
Qed.

(** X5: [page_start] is the least and [page_end] the greatest page
    among the blocks of the buffer that [flush] builds the chunk from;
    so the page range of every chunk of a document is well formed, and
    both its ends are pages of blocks of that document. *)
Theorem chunk_document_page_range doc config :
  (∀ index first others,
     let c := make_chunk doc index first others in
     (∀ b, b ∈ first :: others → ch_page_start c ≤ page b ≤ ch_page_end c) ∧
     (∃ b, b ∈ first :: others ∧ page b = ch_page_start c) ∧
     (∃ b, b ∈ first :: others ∧ page b = ch_page_end c)) ∧
  ∀ c, c ∈ chunk_document doc config →
       ch_page_start c ≤ ch_page_end c ∧
       (∃ b, b ∈ blocks doc ∧ page b = ch_page_start c) ∧
       (∃ b, b ∈ blocks doc ∧ page b = ch_page_end c).
Proof.
  assert (Hrange : ∀ index first others,
            let c := make_chunk doc index first others in
            (∀ b, b ∈ first :: others → ch_page_start c ≤ page b ≤ ch_page_end c) ∧
            (∃ b, b ∈ first :: others ∧ page b = ch_page_start c) ∧
            (∃ b, b ∈ first :: others ∧ page b = ch_page_end c)).
  { intros index first others c. unfold c.
    cbn [make_chunk ch_page_start ch_page_end]. unfold min_page, max_page.
    destruct (min_page_fold others (page first)) as (Hmin & Hallmin & Hwmin).
    destruct (max_page_fold others (page first)) as (Hmax & Hallmax & Hwmax).
    split; [|split].
    - intros b [->|Hb]%elem_of_cons; [lia|].
      specialize (Hallmin b Hb). specialize (Hallmax b Hb). lia.
    - destruct Hwmin as [->|(b & Hb & ->)].
      + exists first. split; [apply list_elem_of_here|done].
      + exists b. split; [by apply list_elem_of_further|done].
    - destruct Hwmax as [->|(b & Hb & ->)].
      + exists first. split; [apply list_elem_of_here|done].
      + exists b. split; [by apply list_elem_of_further|done]. }
  split; [exact Hrange|].
  destruct (chunk_document_as_runs doc config) as (runs & -> & Hcont & _).
  intros c (i & [first others] & Hr & ->)%elem_of_chunks_of_runs.
  assert (Hin : ∀ b, b ∈ first :: others → b ∈ blocks doc).
  { intros b Hb. eapply contiguous_in_elem_of; [|exact Hb].
    apply (Hcont (first, others)). by eapply list_elem_of_lookup_2. }
  cbn [fst snd].
  destruct (Hrange (Z.of_nat i) first others) as (Hall & (b1 & Hb1 & Hp1) & (b2 & Hb2 & Hp2)).
  split; [|split].
  - specialize (Hall first (list_elem_of_here _ _)). lia.
  - exists b1. split; [by apply Hin|done].
  - exists b2. split; [by apply Hin|done].
Qed.

(** ** Chunk identifiers *)

(** A decimal numeral is ["0"] or starts with a digit other than zero. *)
Lemma pretty_N_go_head x s :
  (0 < x)%N →
  ∃ c rest, pretty_N_go x s = String c rest ∧ c ≠ "0"%char.
Proof.
  revert s. induction (N.lt_wf_0 x) as [x _ IH]; intros s Hpos.
  rewrite pretty_N_go_step by done.
  destruct (decide (x < 10)%N) as [Hsmall|Hbig].
  - rewrite N.div_small, N.mod_small, pretty_N_go_0 by done.
    eexists _, _. split; [done|].
    assert (x = 1 ∨ x = 2 ∨ x = 3 ∨ x = 4 ∨ x = 5 ∨ x = 6
            ∨ x = 7 ∨ x = 8 ∨ x = 9)%N as Hx by lia.
    destruct Hx as [->|[->|[->|[->|[->|[->|[->|[->| ->]]]]]]]]; discriminate.
  - apply IH.
    + apply N.div_lt; lia.
    + apply N.div_str_pos. lia.
Qed.

Lemma pretty_nonneg_head (n : Z) :
  0 ≤ n →
  pretty n = "0" ∨ ∃ c rest, pretty n = String c rest ∧ c ≠ "0"%char.
Proof.
  destruct n as [|p|p]; [by left| |lia]. intros _. right.
  unfold pretty, pretty_Z, pretty, pretty_positive, pretty, pretty_N.
  rewrite decide_False by done. by apply pretty_N_go_head.
Qed.

Lemma zeros_numeral_cancel k k' p p' :
  (p = "0" ∨ ∃ c rest, p = String c rest ∧ c ≠ "0"%char) →
  (p' = "0" ∨ ∃ c rest, p' = String c rest ∧ c ≠ "0"%char) →
  zeros k +:+ p = zeros k' +:+ p' → p = p'.
Proof.
  assert (Hstart : ∀ q t,
            (q = "0" ∨ ∃ c rest, q = String c rest ∧ c ≠ "0"%char) →
            (t = "0" ∨ ∃ c rest, t = String c rest ∧ c ≠ "0"%char) →
            ∀ j, q = "0" +:+ zeros j +:+ t → False).
  { intros q t Hq Ht j Heq. rewrite string_app_cons, string_app_nil in Heq.
    destruct Hq as [->|(c & rest & -> & Hc)].
    - injection Heq as Heq. destruct j; cbn in Heq.
      + rewrite string_app_nil in Heq. subst t.
        by destruct Ht as [|(? & ? & ? & ?)].
      + by rewrite string_app_cons in Heq.
    - injection Heq as Hc' _. by subst c. }
  revert k'. induction k as [|k IH]; intros [|k'] Hp Hp'; cbn [zeros].
  - by rewrite !string_app_nil.
  - rewrite string_app_nil, string_app_assoc. intros Heq.
    by destruct (Hstart p p' Hp Hp' k').
  - rewrite string_app_nil, string_app_assoc. intros Heq. symmetry in Heq.
    by destruct (Hstart p' p Hp' Hp k).
  - rewrite !string_app_assoc, !string_app_cons, !string_app_nil.
    intros [= Heq]. by apply (IH k').
Qed.

Lemma format_04d_inj m n :
  0 ≤ m → 0 ≤ n → format_04d m = format_04d n → m = n.
Proof.
  intros Hm Hn. unfold format_04d.
  apply Z.ltb_ge in Hm as Hm', Hn as Hn'. rewrite Hm', Hn'.
  rewrite !string_app_nil, !Z.abs_eq by done.
  intros Heq%zeros_numeral_cancel; [|by apply pretty_nonneg_head..].
  by apply (inj pretty).
Qed.

Lemma string_app_inv_head (a x y : string) : a +:+ x = a +:+ y → x = y.
Proof.
  induction a as [|c a IH]; [done|].
  rewrite !string_app_cons. intros [= H]. by apply IH.
Qed.

(** X6: the chunk identifiers of a document are pairwise distinct. *)
Theorem chunk_document_ids_unique doc config :
  NoDup (map ch_chunk_id (chunk_document doc config)).
Proof.
  destruct (chunk_document_as_runs doc config) as (runs & -> & _).
  apply NoDup_alt. intros i j id Hi Hj.
  unfold chunks_of_runs in Hi, Hj.
  change (map ch_chunk_id ?l) with (ch_chunk_id <$> l) in Hi, Hj.
  rewrite list_lookup_fmap, list_lookup_imap in Hi, Hj.
  destruct (runs !! i) as [ri|]; [|done].
  destruct (runs !! j) as [rj|]; [|done].
  cbn in Hi, Hj. injection Hi as Hi. injection Hj as Hj.
  rewrite <- Hj in Hi.
  do 4 apply string_app_inv_head in Hi.
  apply format_04d_inj in Hi; lia.
Qed.

(** ** The token count of a chunk and the running estimate *)

Lemma split_from_nil_app word :
  split_from word "" = if String.eqb word "" then [] else [word].
Proof. reflexivity. Qed.

(** A newline ends the word being read, as the end of the text does. *)
Lemma split_from_newline word a b :
  split_from word (a +:+ String "010" b)
  = split_from word a ++ split_from "" b.
Proof.
  revert word. induction a as [|c a IH]; intros word.
  - rewrite string_app_nil. cbn [split_from]. change (is_space "010") with true.
    cbn match. by destruct (String.eqb word "").
  - rewrite string_app_cons. cbn [split_from].
    destruct (is_space c); [|apply IH].
    destruct (String.eqb word ""); [apply IH|]. cbn [app]. f_equal. apply IH.
Qed.

Lemma words_of_joined bs :
  Z.of_nat (length (py_split (py_join (String "010" "") (map text bs))))
  = block_words bs.
Proof.
  induction bs as [|b bs IH]; [done|].
  destruct bs as [|b' bs].
  - cbn [map py_join block_words]. lia.
  - cbn [map] in IH |- *. rewrite py_join_cons. cbn [block_words] in IH |- *.
    rewrite <- IH. unfold py_split.
    rewrite string_app_cons, string_app_nil, split_from_newline, length_app.
    lia.
Qed.

Lemma block_words_nonneg bs : 0 ≤ block_words bs.
Proof. induction bs as [|b bs IH]; cbn; lia. Qed.

(** The estimate of each block is its share [13 * words / 10], or one
    more; the shares add up to the share of the whole, less a loss
    below one per junction. *)
Lemma tokens_against_words bs :
  ∃ shares,
    shares ≤ block_tokens bs ≤ shares + Z.of_nat (length bs) ∧
    shares ≤ 13 * block_words bs / 10 ∧
    (bs ≠ [] → 13 * block_words bs / 10 ≤ shares + Z.of_nat (length bs) - 1).
Proof.
  induction bs as [|b bs (shares & Htok & Hlow & Hup)].
  - exists 0. cbn. split; [lia|]. split; [done|]. by intros [].
  - pose proof (block_words_nonneg bs) as Hw.
    set (w := Z.of_nat (length (py_split (text b)))).
    assert (Hwb : 0 ≤ w) by lia.
    exists (13 * w / 10 + shares).
    cbn [block_tokens block_words length]. fold w.
    unfold _estimate_tokens. fold w.
    assert (Hshare : 0 ≤ 13 * w / 10) by (apply Z.div_pos; lia).
    split; [lia|]. split.
    + transitivity (13 * w / 10 + 13 * block_words bs / 10); [lia|].
      Z.to_euclidean_division_equations. lia.
    + intros _. destruct bs as [|b' bs].
      * cbn in *. replace (w + 0) with w by lia. lia.
      * specialize (Hup ltac:(done)). cbn [length] in Hup |- *.
        transitivity (13 * w / 10 + 13 * block_words (b' :: bs) / 10 + 1);
          [|lia].
        Z.to_euclidean_division_equations. lia.
Qed.

(** X7: the [token_count] stored in a chunk is estimated afresh on the
    joined text; it differs from the running estimate of the buffer that
    was flushed (the sum of the estimates of its blocks) by less than
    the number of blocks. *)
Theorem chunk_token_count_near_running_estimate doc index first others :
  let c := make_chunk doc index first others in
  let n := Z.of_nat (length (first :: others)) in
  block_tokens (first :: others) - n ≤ ch_token_count c
  ∧ ch_token_count c ≤ block_tokens (first :: others) + n - 1.
Proof.
  intros c n. unfold c, n. cbn [make_chunk ch_token_count].
  unfold _estimate_tokens. rewrite words_of_joined.
  destruct (tokens_against_words (first :: others)) as (shares & Htok & Hlow & Hup).
  specialize (Hup ltac:(done)).
  pose proof (_estimate_tokens_pos (text first)).
  pose proof (block_tokens_nonneg others).
  cbn [block_tokens] in *. lia.
Qed.

(** ** The overlap tail is greedy *)

Lemma tail_loop_greedy ov rs tl total :
  total = block_tokens tl →
  ∃ taken left,
    rs = taken ++ left ∧ tail_loop ov rs tl total = tl ++ taken ∧
    (left = [] ∨
     ∃ b left', left = b :: left' ∧ tl ++ taken ≠ [] ∧
                ov < block_tokens (tl ++ taken) + _estimate_tokens (text b)).
Proof.
  revert tl total. induction rs as [|b rs IH]; intros tl total Htot.
  - exists [], []. split; [done|]. split; [by rewrite app_nil_r|by left].
  - cbn [tail_loop].
    destruct ((ov <? total + _estimate_tokens (text b)) && nonempty tl) eqn:Hbrk.
    + apply andb_true_iff in Hbrk as [Hlt%Z.ltb_lt Hne].
      exists [], (b :: rs). split; [done|]. split; [by rewrite app_nil_r|].
      right. exists b, rs. rewrite app_nil_r. split; [done|].
      split; [by destruct tl|lia].
    + destruct (IH (tl ++ [b]) (total + _estimate_tokens (text b)))
        as (taken & left & -> & Hres & Hcase).
      { rewrite block_tokens_app. cbn. lia. }
      exists (b :: taken), left. rewrite Hres, <- !app_assoc. cbn [app].
      split; [done|]. split; [done|].
      by rewrite <- !app_assoc in Hcase.
Qed.

(** X8: [_tail_within_tokens] keeps an end of the buffer. It always
    keeps the last block, whatever its size; beyond that it stays within
    the budget, and it is greedy: the block just before the tail, if
    there is one, would take the tail over the budget. *)
Theorem tail_within_tokens_greedy bs ov :
  ∃ dropped,
    bs = dropped ++ _tail_within_tokens bs ov ∧
    (bs ≠ [] → _tail_within_tokens bs ov ≠ []) ∧
    ((∃ b, _tail_within_tokens bs ov = [b]) ∨
     block_tokens (_tail_within_tokens bs ov) ≤ ov ∨ bs = []) ∧
    (∀ b, last dropped = Some b →
          ov < _estimate_tokens (text b)
               + block_tokens (_tail_within_tokens bs ov)).
Proof.
  destruct (_tail_within_tokens_spec bs ov) as (dropped0 & Hsplit0 & Hsize).
  pose proof (_tail_within_tokens_nonempty bs ov) as Hne.
  unfold _tail_within_tokens in *.
  destruct (tail_loop_greedy ov (rev bs) [] 0 eq_refl)
    as (taken & left & Hrev & Hres & Hstop).
  rewrite Hres in *. cbn [app] in *.
  assert (Hbs : bs = rev left ++ rev taken).
  { rewrite <- rev_app_distr, <- Hrev. by rewrite rev_involutive. }
  exists (rev left). split; [done|]. split; [done|]. split.
  - destruct Hsize as [Hnil|[Hone|Hle]]; [|by left|by right; left].
    right; right. destruct bs; [done|]. by destruct Hne.
  - intros b Hlast. rewrite block_tokens_rev.
    destruct Hstop as [->|(b' & left' & -> & _ & Hover)]; [done|].
    cbn [rev] in Hlast. rewrite last_snoc in Hlast. injection Hlast as <-. lia.
Qed.

(** ** The section path *)

Lemma fromkeys_spec xs seen_keys :
  NoDup (fromkeys xs seen_keys) ∧
  (∀ x, x ∈ fromkeys xs seen_keys ↔ x ∈ xs ∧ x ∉ seen_keys) ∧
  sublist (fromkeys xs seen_keys) xs.
Proof.
  revert seen_keys. induction xs as [|x xs IH]; intros seen_keys; cbn [fromkeys].
  - split; [constructor|]. split; [|done].
    intros x. split; [by intros ?%elem_of_nil|by intros [?%elem_of_nil _]].
  - destruct (bool_decide_reflect (x ∈ seen_keys)) as [Hseen|Hnew].
    + destruct (IH seen_keys) as (Hnd & Hiff & Hsub).
      split; [done|]. split; [|by apply sublist_cons].
      intros y. rewrite Hiff, elem_of_cons. split; [tauto|].
      intros [[->|Hy] Hnot]; [done|tauto].
    + destruct (IH (x :: seen_keys)) as (Hnd & Hiff & Hsub).
      split; [|split; [|by apply sublist_skip]].
      * constructor; [|done]. rewrite Hiff, elem_of_cons. tauto.
      * intros y. rewrite !elem_of_cons, Hiff, elem_of_cons.
        destruct (decide (y = x)) as [->|Hne]; tauto.
Qed.

(** The elements of [fromkeys xs seen_keys] stand in the order of their
    first occurrences in [xs]. *)
Lemma fromkeys_order xs seen_keys i j x y :
  (i < j)%nat →
  fromkeys xs seen_keys !! i = Some x →
  fromkeys xs seen_keys !! j = Some y →
  ∃ k, xs !! k = Some x ∧ y ∉ take k xs.
Proof.
  revert seen_keys i j. induction xs as [|x0 xs IH]; intros seen_keys i j Hij Hx Hy;
    cbn [fromkeys] in Hx, Hy; [done|].
  destruct (bool_decide_reflect (x0 ∈ seen_keys)) as [Hseen|Hnew].
  - destruct (IH seen_keys i j Hij Hx Hy) as (k & Hk & Hnot).
    exists (S k). split; [done|]. cbn [take]. apply not_elem_of_cons. split; [|done].
    intros ->. apply list_elem_of_lookup_2 in Hy.
    apply (fromkeys_spec xs seen_keys) in Hy as [_ Hy]. done.
  - destruct i as [|i].
    + exists 0%nat. cbn in Hx. split; [done|]. cbn. by intros ?%elem_of_nil.
    + destruct j as [|j]; [lia|]. cbn in Hx, Hy.
      destruct (IH (x0 :: seen_keys) i j ltac:(lia) Hx Hy) as (k & Hk & Hnot).
      exists (S k). split; [done|]. cbn [take]. apply not_elem_of_cons. split; [|done].
      intros ->. apply list_elem_of_lookup_2 in Hy.
      apply (fromkeys_spec xs (x0 :: seen_keys)) in Hy as [_ Hy].
      apply Hy, list_elem_of_here.
Qed.

(** X9: a chunk has no section path exactly when its buffer holds no
    heading block. Otherwise the path joins, with [" > "], the stripped
    texts of the heading blocks, each once, in the order in which they
    first occur: of two crumbs, the earlier one occurs among the
    headings before the later one occurs at all. *)
Theorem build_section_path_breadcrumb bs :
  let headings :=
    map (λ block, py_strip (text block))
        (filter (λ block, kind block = "heading") bs) in
  match _build_section_path bs with
  | None => ∀ b, b ∈ bs → kind b ≠ "heading"
  | Some path =>
      (∃ b, b ∈ bs ∧ kind b = "heading") ∧
      ∃ crumbs, path = py_join " > " crumbs ∧
                NoDup crumbs ∧
                (∀ h, h ∈ crumbs ↔ h ∈ headings) ∧
                ∀ i j x y, (i < j)%nat →
                  crumbs !! i = Some x → crumbs !! j = Some y →
                  ∃ k, headings !! k = Some x ∧ y ∉ take k headings
  end.
Proof.
  intros headings. unfold _build_section_path. fold headings.
  destruct headings as [|h hs] eqn:Hh; cbn [nonempty].
  - intros b Hb Hkind. unfold headings in Hh.
    assert (Hin : b ∈ filter (λ block, kind block = "heading") bs)
      by (by apply list_elem_of_filter).
    destruct (filter _ bs); [by apply elem_of_nil in Hin|done].
  - split.
    + unfold headings in Hh.
      destruct (filter (λ block, kind block = "heading") bs) as [|b l] eqn:Hf;
        [done|].
      assert (Hb : b ∈ filter (λ block, kind block = "heading") bs)
        by (rewrite Hf; apply list_elem_of_here).
      apply list_elem_of_filter in Hb as [Hkind Hb]. by exists b.
    + destruct (fromkeys_spec (h :: hs) []) as (Hnd & Hiff & _).
      exists (fromkeys (h :: hs) []). split; [done|]. split; [done|]. split.
      * intros y. rewrite Hiff. split; [by intros [? _]|].
        intros Hy. split; [done|]. by intros ?%elem_of_nil.
      * intros i j x y. apply fromkeys_order.
Qed.

(** ** How far a chunk can go past the target *)

Section PastTarget.

Variable doc : DocumentRevision.
Variable config : ChunkingConfig.
Hypothesis overlap_below_target : overlap_tokens config < target_tokens config.

Lemma small_buffer_run st first others :
  buffer st = first :: others →
  small_buffer config st →
  one_block_past_target config (first, others).
Proof.
  intros Hbuf Hsmall. unfold small_buffer in Hsmall. rewrite Hbuf in Hsmall.
  unfold one_block_past_target, run_blocks. cbn [fst snd].
  destruct (exists_last (l := first :: others)) as (before & last & Heq); [done|].
  exists before, last. split; [done|]. rewrite Heq in Hsmall.
  rewrite length_app, block_tokens_app in Hsmall. cbn [length block_tokens] in Hsmall.
  pose proof (_estimate_tokens_pos (text last)).
  destruct Hsmall as [Hlen|Htok]; [left; lia|right; lia].
Qed.

Lemma grown_buffer_run st b first others :
  buffer st ++ [b] = first :: others →
  small_buffer config st →
  one_block_past_target config (first, others).
Proof.
  intros Hbuf Hsmall. exists (buffer st), b. split; [by rewrite Hbuf|done].
Qed.

Lemma small_buffer_fired st :
  buffer st ≠ [] →
  small_buffer config
    {| chunks := chunks st;
       buffer := _tail_within_tokens (buffer st) (overlap_tokens config);
       buffer_tokens := buffer_tokens st;
       chunk_index := chunk_index st |}.
Proof.
  intros Hne. unfold small_buffer. cbn [buffer].
  destruct (_tail_within_tokens_spec (buffer st) (overlap_tokens config))
    as (dropped & _ & [->|[[b ->]|Hle]]).
  - left. cbn. lia.
  - left. cbn. lia.
  - right. lia.
Qed.

Lemma flushed_at_snoc done r b :
  flushed_at doc config done r → flushed_at doc config (done ++ [b]) r.
Proof.
  intros (pre & b0 & post & -> & Hrun).
  exists pre, b0, (post ++ [b]). split; [|done].
  by rewrite <- app_assoc.
Qed.

(** The invariant of the loop: the runs flushed so far, and the buffer. *)
Lemma past_target_fired (P : run → Prop) done st runs first others :
  runs_inv doc done st runs →
  (∀ r, r ∈ runs → P r) →
  buffer st = first :: others →
  P (first, others) →
  let st' := {| chunks := chunks st ++ [make_chunk doc (chunk_index st) first others];
                buffer := _tail_within_tokens (buffer st) (overlap_tokens config);
                buffer_tokens :=
                  block_tokens (_tail_within_tokens (buffer st) (overlap_tokens config));
                chunk_index := chunk_index st + 1 |} in
  runs_inv doc done st' (runs ++ [(first, others)]) ∧
  (∀ r, r ∈ runs ++ [(first, others)] → P r) ∧
  small_buffer config st'.
Proof.
  intros Hinv Hruns Hbuf Hrun st'. split; [by apply runs_inv_fired|]. split.
  - intros r [Hr|Hr]%elem_of_app; [by apply Hruns|].
    by apply list_elem_of_singleton in Hr as ->.
  - assert (Hne : buffer st ≠ []) by (by rewrite Hbuf).
    exact (small_buffer_fired st Hne).
Qed.

Lemma past_target_step done st runs b :
  st = chunk_loop doc config done chunker_init →
  runs_inv doc done st runs →
  (∀ r, r ∈ runs →
        flushed_at doc config done r ∧ one_block_past_target config r) →
  small_buffer config st →
  ∃ runs',
    runs_inv doc (done ++ [b]) (chunk_step doc config st b) runs' ∧
    (∀ r, r ∈ runs' →
          flushed_at doc config (done ++ [b]) r ∧
          one_block_past_target config r) ∧
    small_buffer config (chunk_step doc config st b).
Proof.
  intros Hst Hinv%(runs_inv_append _ _ _ _ b) Hruns Hsmall. unfold chunk_step.
  set (P := λ r : run, flushed_at doc config (done ++ [b]) r ∧
                       one_block_past_target config r).
  assert (Hruns' : ∀ r, r ∈ runs → P r).
  { intros r Hr. destruct (Hruns r Hr). split; [by apply flushed_at_snoc|done]. }
  set (st1 := {| chunks := chunks st; buffer := buffer st ++ [b];
                 buffer_tokens := buffer_tokens st + _estimate_tokens (text b);
                 chunk_index := chunk_index st |}) in *.
  assert (Hbuf : ∃ first others, buffer st1 = first :: others).
  { unfold st1. cbn [buffer]. destruct (buffer st); cbn; eauto. }
  destruct Hbuf as (first & others & Hbuf).
  assert (Hgrown : buffer (chunk_loop doc config done chunker_init) ++ [b]
                   = first :: others) by (by rewrite <- Hst).
  assert (Hrun : P (first, others)).
  { split.
    - exists done, b, []. split; [done|]. cbv zeta. left. by rewrite Hgrown.
    - eapply grown_buffer_run; [|exact Hsmall]. exact Hbuf. }
  assert (Htok : buffer_tokens st1 = block_tokens (buffer st1)) by apply Hinv.
  destruct (Z.leb_spec (target_tokens config) (buffer_tokens st1)) as [Hsoft|Hidle].
  - rewrite (flush_fires doc config false st1 first others) by (first [done|by right]).
    destruct (past_target_fired P _ st1 runs first others Hinv Hruns' Hbuf Hrun)
      as (Hinv2 & Hruns2 & Hsmall2).
    set (st2 := {| chunks := chunks st1 ++ [make_chunk doc (chunk_index st1) first others];
                   buffer := _tail_within_tokens (buffer st1) (overlap_tokens config);
                   buffer_tokens :=
                     block_tokens (_tail_within_tokens (buffer st1) (overlap_tokens config));
                   chunk_index := chunk_index st1 + 1 |}) in *.
    destruct (max_tokens config <=? buffer_tokens st2); [|by eexists].
    destruct (buffer st2) as [|first2 others2] eqn:Hbuf2.
    { unfold flush. rewrite Hbuf2. by eexists. }
    rewrite (flush_fires doc config true st2 first2 others2) by (first [done|by left]).
    exists ((runs ++ [(first, others)]) ++ [(first2, others2)]).
    apply (past_target_fired P); [done|done|done|]. split.
    + exists done, b, []. split; [done|]. cbv zeta. right.
      unfold run_blocks. cbn [fst snd]. rewrite <- Hbuf2. unfold st2. cbn [buffer].
      by rewrite Hbuf, Hgrown.
    + by apply (small_buffer_run st2).
  - assert (Hsmall1 : small_buffer config st1) by (right; lia).
    destruct (max_tokens config <=? buffer_tokens st1); [|by exists runs].
    rewrite (flush_fires doc config true st1 first others) by (first [done|by left]).
    exists (runs ++ [(first, others)]). by apply (past_target_fired P).
Qed.

Lemma past_target_loop bs :
  ∃ runs,
    runs_inv doc bs (chunk_loop doc config bs chunker_init) runs ∧
    (∀ r, r ∈ runs →
          flushed_at doc config bs r ∧ one_block_past_target config r) ∧
    small_buffer config (chunk_loop doc config bs chunker_init).
Proof.
  induction bs as [|b bs (runs & Hinv & Hruns & Hsmall)] using rev_ind.
  - exists []. split; [|split].
    + unfold runs_inv. cbn.
      split; [done|]. split; [done|]. split; [done|]. split; [done|].
      split; [by intros r ?%elem_of_nil|]. split; [by intros b ?%elem_of_nil|].
      split; [done|]. by intros i r1 r2 ?.
    + by intros r ?%elem_of_nil.
    + left. cbn. lia.
  - unfold chunk_loop. rewrite !fold_left_app. cbn [fold_left].
    by apply (past_target_step bs _ runs).
Qed.

End PastTarget.

(** X10: with [overlap_tokens < target_tokens], the buffer is small
    whenever the loop is about to append a block: it holds at most one
    block, or its running estimate is below [target_tokens]. So every
    chunk is flushed at most one block after its buffer was small: the
    chunks are built, in order, from buffers that the loop flushed (in
    an iteration or at the end of the document), and such a buffer,
    without its last block, holds at most one block or has a running
    estimate below [target_tokens]. *)
Theorem chunk_document_one_block_past_target doc config :
  overlap_tokens config < target_tokens config →
  (∀ pre post, blocks doc = pre ++ post →
               small_buffer config (chunk_loop doc config pre chunker_init)) ∧
  ∃ runs,
    chunk_document doc (Some config) = chunks_of_runs doc runs ∧
    ∀ r, r ∈ runs →
         flushed_from doc config r ∧ one_block_past_target config r.
Proof.
  intros Hov. split.
  { intros pre post _.
    by destruct (past_target_loop doc config Hov pre) as (_ & _ & _ & ?). }
  unfold chunk_document. cbn [default from_option id].
  destruct (past_target_loop doc config Hov (blocks doc))
    as (runs & Hinv & Hruns & Hsmall).
  set (st := chunk_loop doc config (blocks doc) chunker_init) in *.
  assert (Hloop : ∀ r, r ∈ runs →
            flushed_from doc config r ∧ one_block_past_target config r).
  { intros r Hr. destruct (Hruns r Hr). split; [by left|done]. }
  destruct (buffer st) as [|first others] eqn:Hbuf.
  - exists runs. unfold flush. rewrite Hbuf. split; [apply Hinv|done].
  - rewrite (flush_fires doc config true st first others)
      by (first [exact Hbuf | by left]).
    destruct (past_target_fired doc config Hov
                (λ r, flushed_from doc config r ∧ one_block_past_target config r)
                _ st runs first others Hinv Hloop Hbuf)
      as (Hinv' & Hruns' & _).
    { split; [|by apply (small_buffer_run config st)].
      right. unfold run_blocks. cbn [fst snd]. by rewrite <- Hbuf. }
    exists (runs ++ [(first, others)]). split; [apply Hinv'|done].
Qed.

Lemma chunk_document_one_block_past_target_witness :
  let d := sample_doc [paragraph 1 "a"; paragraph 2 "b c d"] in
  (∀ pre post, blocks d = pre ++ post →
               small_buffer tight_config (chunk_loop d tight_config pre chunker_init)) ∧
  ∃ runs,
    chunk_document d (Some tight_config) = chunks_of_runs d runs ∧
    ∀ r, r ∈ runs →
         flushed_from d tight_config r ∧ one_block_past_target tight_config r.
Proof.
  intros d.
  apply (chunk_document_one_block_past_target d tight_config).
  reflexivity.
Defined.
(* ===================================================================== *)
(** * A block above [max_tokens] *)
(* ===================================================================== *)

(** The tail that [_tail_within_tokens] keeps is the last block alone
    when the block before it would take it over the budget. *)
Lemma _tail_within_tokens_last l b ov :
  (∀ x, last l = Some x →
        ov < _estimate_tokens (text b) + _estimate_tokens (text x)) →
  _tail_within_tokens (l ++ [b]) ov = [b].
Proof.
  intros Hover. unfold _tail_within_tokens.
  rewrite rev_app_distr. cbn [rev app tail_loop nonempty].
  rewrite andb_false_r.
  destruct (rev l) as [|x rl] eqn:Hrev; [done|].
  assert (Hlast : last l = Some x).
  { apply (f_equal (@rev _)) in Hrev. rewrite rev_involutive in Hrev.
    rewrite Hrev. cbn [rev]. by rewrite last_snoc. }
  specialize (Hover x Hlast). cbn [tail_loop nonempty app].
  assert (Hlt : (ov <? 0 + _estimate_tokens (text b) + _estimate_tokens (text x))
                = true) by (apply Z.ltb_lt; lia).
  by rewrite Hlt.
Qed.

Section Later.

Variable doc : DocumentRevision.
Variable config : ChunkingConfig.

Lemma later_inv_append earlier recent st later b :
  later_inv doc earlier recent st later →
  later_inv doc earlier (recent ++ [b])
    {| chunks := chunks st;
       buffer := buffer st ++ [b];
       buffer_tokens := buffer_tokens st + _estimate_tokens (text b);
       chunk_index := chunk_index st |} later.
Proof.
  intros (Hchunks & Hidx & [before Hsuf] & Hcont).
  unfold later_inv. cbn [chunks buffer buffer_tokens chunk_index].
  split; [done|]. split; [done|]. split.
  - exists before. by rewrite Hsuf, <- app_assoc.
  - intros r Hr. by apply contiguous_in_snoc, Hcont.
Qed.

Lemma later_inv_flush force earlier recent st later :
  later_inv doc earlier recent st later →
  ∃ later', later_inv doc earlier recent (flush doc config force st) later'.
Proof.
  intros Hinv. unfold flush.
  destruct (buffer st) as [|first others] eqn:Hbuf; [by exists later|].
  destruct (negb force && _); [by exists later|].
  destruct Hinv as (Hchunks & Hidx & Hsuf & Hcont).
  exists (later ++ [(first, others)]).
  unfold later_inv. cbn [chunks buffer buffer_tokens chunk_index].
  rewrite !app_assoc. split; [|split; [|split]].
  - by rewrite chunks_of_runs_snoc, Hchunks, Hidx.
  - rewrite Hidx, (length_app (earlier ++ later)). cbn [length]. lia.
  - etrans; [apply _tail_within_tokens_suffix|]. by rewrite <- Hbuf.
  - intros r [Hr|Hr]%elem_of_app; [by apply Hcont|].
    apply list_elem_of_singleton in Hr as ->.
    apply contiguous_in_suffix. unfold run_blocks. cbn [fst snd].
    by rewrite <- Hbuf.
Qed.

Lemma later_inv_step earlier recent st later b :
  later_inv doc earlier recent st later →
  ∃ later', later_inv doc earlier (recent ++ [b]) (chunk_step doc config st b) later'.
Proof.
  intros Hinv%(later_inv_append _ _ _ _ b). unfold chunk_step.
  set (st1 := {| chunks := chunks st; buffer := buffer st ++ [b];
                 buffer_tokens := buffer_tokens st + _estimate_tokens (text b);
                 chunk_index := chunk_index st |}) in *.
  set (st2 := if target_tokens config <=? buffer_tokens st1
              then flush doc config false st1 else st1).
  assert (H2 : ∃ later2, later_inv doc earlier (recent ++ [b]) st2 later2).
  { unfold st2. destruct (_ <=? _);
      [by apply (later_inv_flush false _ _ _ later)|by exists later]. }
  destruct H2 as [later2 H2]. clearbody st2.
  destruct (_ <=? _); [by apply (later_inv_flush true _ _ _ later2)|by exists later2].
Qed.

Lemma later_inv_loop earlier recent st later l :
  later_inv doc earlier recent st later →
  ∃ later', later_inv doc earlier (recent ++ l) (chunk_loop doc config l st) later'.
Proof.
  intros Hinv. induction l as [|b l (later' & IH)] using rev_ind.
  - exists later. by rewrite app_nil_r.
  - unfold chunk_loop. rewrite fold_left_app, app_assoc. cbn [fold_left].
    by apply (later_inv_step _ _ _ later').
Qed.

End Later.

(** C2, amended: let the configuration be as the chunker's contract
    requires, and let [b] be a block of the document whose estimate is
    above [max_tokens]. The block is never split, but it comes out in
    three consecutive chunks, not in one: at the end of the chunk that
    flushes the buffer it was appended to (after the blocks [carried]
    over as overlap, if any), then as a chunk of its own, which carries
    its whole text, and then at the head of the next chunk, followed by
    the next block of the document if there is one; [carried] is the
    buffer as the loop reaches [b]. All other chunks
    are built from blocks before [b] only or from blocks after [b]
    only. *)
Theorem chunk_document_oversized_block_three_chunks doc config pre b post :
  blocks doc = pre ++ b :: post →
  overlap_tokens config < target_tokens config →
  target_tokens config < max_tokens config →
  max_tokens config < _estimate_tokens (text b) →
  ∃ runs_before carried first others runs_after,
    chunk_document doc (Some config)
    = chunks_of_runs doc
        (runs_before ++ [(first, others); (b, []); (b, take 1 post)]
         ++ runs_after) ∧
    first :: others = carried ++ [b] ∧
    carried = buffer (chunk_loop doc config pre chunker_init) ∧
    carried `suffix_of` pre ∧
    (∀ r, r ∈ runs_before → contiguous_in (run_blocks r) pre) ∧
    (∀ r, r ∈ runs_after → contiguous_in (run_blocks r) post) ∧
    ∀ index, ch_text (make_chunk doc index b []) = text b.
Proof.
  intros Hblocks Hov Htm Hbig.
  destruct (runs_inv_loop doc config pre)
    as (runs_before & Hsuf & Htok & Hchunks & Hidx & Hcont & _).
  set (st := chunk_loop doc config pre chunker_init) in *.
  pose proof (block_tokens_nonneg (buffer st)) as Hnn.
  pose proof (_estimate_tokens_pos (text b)) as Hpos.
  assert (Hbuf : ∃ first others, buffer st ++ [b] = first :: others).
  { destruct (buffer st) as [|b0 l]; cbn; eauto. }
  destruct Hbuf as (first & others & Hbuf).
  (* the iteration that appends [b]: a soft flush, then a forced one *)
  assert (Hstep : chunk_step doc config st b
                  = {| chunks := chunks st
                                 ++ [make_chunk doc (chunk_index st) first others]
                                 ++ [make_chunk doc (chunk_index st + 1) b []];
                       buffer := [b];
                       buffer_tokens := block_tokens [b];
                       chunk_index := chunk_index st + 1 + 1 |}).
  { unfold chunk_step. cbn [buffer_tokens buffer chunks chunk_index].
    assert (Hsoft : (target_tokens config
                     <=? buffer_tokens st + _estimate_tokens (text b)) = true)
      by (apply Z.leb_le; lia).
    rewrite Hsoft.
    rewrite (flush_fires doc config false _ first others)
      by (first [exact Hbuf | right; cbn; lia]).
    cbn [buffer_tokens buffer chunks chunk_index].
    rewrite (_tail_within_tokens_last (buffer st) b)
      by (intros x _; pose proof (_estimate_tokens_pos (text x)); lia).
    assert (Hforced : (max_tokens config <=? block_tokens [b]) = true)
      by (apply Z.leb_le; cbn; lia).
    rewrite Hforced.
    rewrite (flush_fires doc config true _ b [])
      by (first [reflexivity | by left]).
    cbn [buffer_tokens buffer chunks chunk_index].
    rewrite _tail_within_tokens_single. by rewrite <- app_assoc. }
  assert (Hchunks2 : chunks st ++ [make_chunk doc (chunk_index st) first others]
                     ++ [make_chunk doc (chunk_index st + 1) b []]
                     = chunks_of_runs doc (runs_before ++ [(first, others); (b, [])])).
  { replace (runs_before ++ [(first, others); (b, [])])
      with ((runs_before ++ [(first, others)]) ++ [(b, [])]) by (by rewrite <- app_assoc).
    rewrite !chunks_of_runs_snoc, Hchunks, Hidx, <- app_assoc, length_app.
    cbn [length fst snd]. repeat f_equal. lia. }
  assert (Hidx2 : chunk_index st + 1 + 1
                  = Z.of_nat (length (runs_before ++ [(first, others); (b, [])]))).
  { rewrite Hidx, length_app. cbn [length]. lia. }
  exists runs_before, (buffer st), first, others.
  unfold chunk_document. cbn [default from_option id].
  rewrite Hblocks. unfold chunk_loop. rewrite fold_left_app. cbn [fold_left].
  fold (chunk_loop doc config pre chunker_init). fold st. rewrite Hstep.
  destruct post as [|f rest].
  - (* [b] is the last block: the flush at the end emits it again *)
    exists []. cbn [fold_left take].
    rewrite (flush_fires doc config true _ b [])
      by (first [reflexivity | by left]).
    cbn [chunks chunk_index]. rewrite Hchunks2, Hidx2, app_nil_r.
    split; [|split; [done|]; split; [done|]; split; [done|]; split; [done|];
             split; [by intros r ?%elem_of_nil|done]].
    replace (runs_before ++ [(first, others); (b, []); (b, [])])
      with ((runs_before ++ [(first, others); (b, [])]) ++ [(b, [])])
      by (by rewrite <- app_assoc).
    by rewrite chunks_of_runs_snoc.
  - (* the next block joins [b]; the soft flush emits both *)
    cbn [fold_left take].
    change (fold_left (chunk_step doc config) rest ?s)
      with (chunk_loop doc config rest s).
    set (earlier := runs_before ++ [(first, others); (b, []); (b, [f])]).
    assert (Hnext : ∃ later,
              later_inv doc earlier [f]
                (chunk_step doc config
                   {| chunks := chunks st
                                ++ [make_chunk doc (chunk_index st) first others]
                                ++ [make_chunk doc (chunk_index st + 1) b []];
                      buffer := [b];
                      buffer_tokens := block_tokens [b];
                      chunk_index := chunk_index st + 1 + 1 |} f)
                later).
    { unfold chunk_step. cbn [buffer_tokens buffer chunks chunk_index app].
      pose proof (_estimate_tokens_pos (text f)) as Hf.
      assert (Hsoft : (target_tokens config
                       <=? block_tokens [b] + _estimate_tokens (text f)) = true)
        by (apply Z.leb_le; cbn; lia).
      rewrite Hsoft.
      rewrite (flush_fires doc config false _ b [f])
        by (first [reflexivity | right; cbn; lia]).
      cbn [buffer_tokens buffer chunks chunk_index].
      rewrite (_tail_within_tokens_last [b] f)
        by (intros x [= <-]; lia).
      set (s3 := {| chunks := _; buffer := [f]; buffer_tokens := _;
                    chunk_index := _ |}).
      assert (H3 : later_inv doc earlier [f] s3 []).
      { unfold later_inv, s3. cbn [chunks buffer buffer_tokens chunk_index].
        rewrite app_nil_r. unfold earlier.
        replace (runs_before ++ [(first, others); (b, []); (b, [f])])
          with ((runs_before ++ [(first, others); (b, [])]) ++ [(b, [f])])
          by (by rewrite <- app_assoc).
        rewrite chunks_of_runs_snoc, <- Hchunks2, <- Hidx2.
        split; [by rewrite <- !app_assoc|]. split.
        - rewrite Hidx2, (length_app (runs_before ++ [(first, others); (b, [])])).
          cbn [length]. lia.
        - split; [done|]. by intros r ?%elem_of_nil. }
      destruct (max_tokens config <=? _); [|by exists []].
      by apply (later_inv_flush doc config true earlier [f] s3 []). }
    destruct Hnext as (later & Hnext).
    destruct (later_inv_loop doc config earlier [f] _ later rest Hnext)
      as (later' & Hloop).
    destruct (later_inv_flush doc config true earlier _ _ later' Hloop)
      as (runs_after & Hfin & _ & _ & Hafter).
    exists runs_after. rewrite Hfin. unfold earlier.
    split; [by rewrite <- app_assoc|].
    split; [done|]. split; [done|]. split; [done|]. split; [done|]. by split.
Qed.

Lemma chunk_document_oversized_block_three_chunks_witness :
  let a := paragraph 1 "a" in
  let b := paragraph 1 "a b c d" in
  let f := paragraph 2 "e" in
  let doc := sample_doc [a; b; f] in
  ∃ runs_before carried first others runs_after,
    chunk_document doc (Some tight_config)
    = chunks_of_runs doc
        (runs_before ++ [(first, others); (b, []); (b, take 1 [f])]
         ++ runs_after) ∧
    first :: others = carried ++ [b] ∧
    carried = buffer (chunk_loop doc tight_config [a] chunker_init) ∧
    carried `suffix_of` [a] ∧
    (∀ r, r ∈ runs_before → contiguous_in (run_blocks r) [a]) ∧
    (∀ r, r ∈ runs_after → contiguous_in (run_blocks r) [f]) ∧
    ∀ index, ch_text (make_chunk doc index b []) = text b.
Proof.
  intros a b f doc.
  apply (chunk_document_oversized_block_three_chunks doc tight_config [a] b [f]).
  - reflexivity.
  - reflexivity.
  - reflexivity.
  - vm_compute. reflexivity.
Defined.
(* ===================================================================== *)
(** * The token budget of a chunk *)
(* ===================================================================== *)


Lemma chunk_of_run_snoc done c bs b :
  chunk_of_run done c bs → chunk_of_run (done ++ [b]) c bs.
Proof.
  intros ((before & after & ->) & Hne & Htxt). split; [|done].
  exists before, (after ++ [b]). by rewrite <- !app_assoc.
Qed.

Lemma chunk_of_run_buffer doc index before first others :
  chunk_of_run (before ++ first :: others)
    (make_chunk doc index first others) (first :: others).
Proof.
  split; [|done]. exists before, []. by rewrite app_nil_r.
Qed.

(** A text has no more words than its estimate, so the estimate of a
    joined text is at most that of as many words as the estimates of
    its blocks add up to. *)
Lemma block_words_le_tokens bs : block_words bs ≤ block_tokens bs.
Proof.
  induction bs as [|b bs IH]; [done|]. cbn [block_words block_tokens].
  unfold _estimate_tokens.
  set (w := Z.of_nat (length (py_split (text b)))).
  assert (0 ≤ w) by lia.
  assert (w ≤ 13 * w / 10) by (Z.to_euclidean_division_equations; lia).
  lia.
Qed.

Lemma token_count_le_share doc index first others :
  ch_token_count (make_chunk doc index first others)
  ≤ 13 * block_tokens (first :: others) / 10.
Proof.
  cbn [make_chunk ch_token_count]. unfold _estimate_tokens at 1.
  rewrite words_of_joined.
  pose proof (block_words_le_tokens (first :: others)) as Hw.
  pose proof (block_words_nonneg (first :: others)) as Hw0.
  pose proof (_estimate_tokens_pos (text first)) as Hpos.
  pose proof (block_tokens_nonneg others) as Ho.
  cbn [block_tokens] in *.
  Z.to_euclidean_division_equations. lia.
Qed.

Lemma fits_sum config b :
  target_tokens config < max_tokens config →
  fits config b →
  target_tokens config + _estimate_tokens (text b) ≤ max_tokens config.
Proof.
  intros Htm [Hlt Hle]. pose proof (_estimate_tokens_pos (text b)).
  Z.to_euclidean_division_equations. lia.
Qed.

Section Budget.

Variable doc : DocumentRevision.
Variable config : ChunkingConfig.
Hypothesis overlap_below_target : overlap_tokens config < target_tokens config.
Hypothesis target_below_max : target_tokens config < max_tokens config.

(** What the forced and the soft flush leave behind when the buffer
    is a run of fitting blocks. *)
Lemma tail_below_target bs :
  (∀ b, b ∈ bs → fits config b) →
  _tail_within_tokens bs (overlap_tokens config) = [] ∨
  block_tokens (_tail_within_tokens bs (overlap_tokens config))
    < target_tokens config.
Proof.
  intros Hfit.
  destruct (_tail_within_tokens_spec bs (overlap_tokens config))
    as (dropped & Hbs & [Hnil|[[b Hb]|Hle]]); [by left| |right; lia].
  right. rewrite Hb. cbn [block_tokens].
  assert (Hin : b ∈ bs).
  { rewrite Hbs, Hb. apply elem_of_app. right. apply list_elem_of_here. }
  destruct (Hfit b Hin). lia.
Qed.

(** The chunk that a buffer below the target and one more fitting
    block make. *)
Lemma grown_chunk_within_max index buffer0 b first others :
  buffer0 = [] ∨ block_tokens buffer0 < target_tokens config →
  fits config b →
  buffer0 ++ [b] = first :: others →
  ch_token_count (make_chunk doc index first others) ≤ max_tokens config.
Proof.
  intros Hlow [Hb1 Hb2] Hbuf.
  pose proof (_estimate_tokens_pos (text b)) as Hpos.
  etrans; [apply token_count_le_share|]. rewrite <- Hbuf.
  etrans; [|exact Hb2]. apply Z.div_le_mono; [lia|].
  rewrite block_tokens_app. cbn [block_tokens].
  destruct Hlow as [->|Hlow]; cbn [block_tokens]; lia.
Qed.

Lemma chunker_inv_step done st b :
  (∀ b', b' ∈ done ++ [b] → fits config b') →
  chunker_inv config done st →
  chunker_inv config (done ++ [b]) (chunk_step doc config st b).
Proof.
  intros Hfit ((before & Hdone) & Htok & Hlow & Hchunks).
  assert (Hb : fits config b).
  { apply Hfit, elem_of_app. right. apply list_elem_of_here. }
  pose proof (fits_sum config b target_below_max Hb) as Hb2.
  pose proof Hb as [Hb1 _].
  pose proof (_estimate_tokens_pos (text b)) as Hpos.
  assert (Hsum : block_tokens (buffer st ++ [b]) < max_tokens config).
  { rewrite block_tokens_app. cbn [block_tokens].
    destruct Hlow as [->|Hlow']; cbn [block_tokens]; lia. }
  assert (Hold : ∀ c, c ∈ chunks st →
            ch_token_count c ≤ max_tokens config ∧
            ∃ bs, chunk_of_run (done ++ [b]) c bs ∧
                  block_tokens bs < max_tokens config).
  { intros c Hc. destruct (Hchunks c Hc) as (Hcount & bs & Hrun & Hbs).
    split; [done|]. exists bs. split; [by apply chunk_of_run_snoc|done]. }
  unfold chunk_step. cbn [buffer_tokens buffer chunks chunk_index].
  rewrite Htok.
  replace (block_tokens (buffer st) + _estimate_tokens (text b))
    with (block_tokens (buffer st ++ [b]))
    by (rewrite block_tokens_app; cbn [block_tokens]; lia).
  destruct (Z.leb_spec (target_tokens config) (block_tokens (buffer st ++ [b])))
    as [Hreach|Hbelow].
  - (* the soft flush fires; the forced one that follows does not *)
    assert (Hbuf : ∃ first others, buffer st ++ [b] = first :: others).
    { destruct (buffer st) as [|b0 l]; cbn; eauto. }
    destruct Hbuf as (first & others & Hbuf).
    pose proof (grown_chunk_within_max (chunk_index st) (buffer st) b
                  first others Hlow Hb Hbuf) as Hcount.
    rewrite Hbuf in Hreach, Hsum |- *.
    rewrite (flush_fires doc config false _ first others)
      by (first [reflexivity | by right]).
    cbn [buffer_tokens buffer chunks chunk_index].
    assert (Hfits : ∀ b', b' ∈ first :: others → fits config b').
    { intros b' Hb'. apply Hfit. rewrite Hdone, <- app_assoc, Hbuf.
      apply elem_of_app. by right. }
    destruct (_tail_within_tokens_spec (first :: others) (overlap_tokens config))
      as (dropped & Hsplit & _).
    pose proof (tail_below_target (first :: others) Hfits) as Htail.
    set (kept := _tail_within_tokens (first :: others) (overlap_tokens config)) in *.
    assert (Hquiet : (max_tokens config <=? block_tokens kept) = false).
    { apply Z.leb_gt. destruct Htail as [->|Hlt]; cbn [block_tokens]; lia. }
    rewrite Hquiet. repeat split; cbn [buffer_tokens buffer chunks chunk_index].
    + exists (before ++ dropped).
      by rewrite Hdone, <- !app_assoc, Hbuf, Hsplit.
    + done.
    + apply elem_of_app in H as [Hc|Hc]; [by apply Hold|].
      by apply list_elem_of_singleton in Hc as ->.
    + apply elem_of_app in H as [Hc|Hc]; [by apply Hold|].
      apply list_elem_of_singleton in Hc as ->.
      exists (first :: others). split; [|done].
      rewrite Hdone, <- app_assoc, Hbuf. apply chunk_of_run_buffer.
  - (* below the target, hence below the maximum: no flush at all *)
    assert (Hquiet : (max_tokens config <=? block_tokens (buffer st ++ [b])) = false)
      by (apply Z.leb_gt; lia).
    cbn [buffer_tokens buffer chunks chunk_index].
    rewrite Hquiet. repeat split; cbn [buffer_tokens buffer chunks chunk_index].
    + exists before. by rewrite Hdone, <- app_assoc.
    + by right.
    + by apply Hold.
    + by apply Hold.
Qed.

Lemma chunker_inv_loop bs :
  (∀ b, b ∈ bs → fits config b) →
  chunker_inv config bs (chunk_loop doc config bs chunker_init).
Proof.
  induction bs as [|b bs IH] using rev_ind; intros Hfit.
  - repeat split; cbn; [by exists []|by left|by apply elem_of_nil in H..].
  - unfold chunk_loop. rewrite fold_left_app. cbn [fold_left].
    apply chunker_inv_step; [done|].
    apply IH. intros b' Hb'. apply Hfit, elem_of_app. by left.
Qed.

End Budget.


(* ===================================================================== *)
(** * More properties of the reranker *)
(* ===================================================================== *)

(** ** [take_top_n] *)

Lemma take_top_n_loop_spec top_n candidates results :
  results = [] ∨ Z.of_nat (length results) < top_n →
  take_top_n_loop top_n candidates results
  = results ++ take (Z.to_nat (Z.max 1 top_n) - length results) candidates.
Proof.
  revert results. induction candidates as [|c candidates IH]; intros results Hroom.
  - by rewrite take_nil, app_nil_r.
  - cbn [take_top_n_loop]. rewrite length_app. cbn [length].
    assert (Hlen : (length results < Z.to_nat (Z.max 1 top_n))%nat).
    { destruct Hroom as [->|Hlt]; cbn [length]; lia. }
    destruct (Z.leb_spec top_n (Z.of_nat (length results + 1))) as [Hfull|Hmore].
    + replace (Z.to_nat (Z.max 1 top_n) - length results)%nat with 1%nat.
      * cbn [take]. by rewrite take_0.
      * destruct Hroom as [Hnil|Hlt]; [rewrite Hnil in *|]; cbn [length] in *; lia.
    + rewrite IH by (right; rewrite length_app; cbn [length]; lia).
      rewrite <- app_assoc, length_app. cbn [length app].
      replace (Z.to_nat (Z.max 1 top_n) - length results)%nat
        with (S (Z.to_nat (Z.max 1 top_n) - (length results + 1)))%nat by lia.
      done.
Qed.

Lemma take_top_n_as_take candidates top_n :
  take_top_n candidates top_n
  = take (Z.to_nat (Z.max 1 top_n)) candidates.
Proof.
  unfold take_top_n. rewrite take_top_n_loop_spec by (by left).
  cbn [app length]. by rewrite Nat.sub_0_r.
Qed.

(** X11: [take_top_n] returns the first [max(1, top_n)] candidates (all
    of them if there are fewer): for [top_n <= 0] it still returns one
    candidate, because the length is tested after the append. *)
Theorem take_top_n_prefix candidates top_n :
  take_top_n candidates top_n
  = take (Z.to_nat (Z.max 1 top_n)) candidates.
Proof. apply take_top_n_as_take. Qed.

(** ** [rerank] and its provider *)

Lemma py_slice_to_sublist {A : Type} (n : Z) (xs : list A) :
  sublist (py_slice_to n xs) xs.
Proof. unfold py_slice_to. destruct (0 <=? n); apply sublist_take. Qed.

Lemma scored_candidates_sublist qv candidates dvs :
  sublist (map snd (scored_candidates qv candidates dvs)) candidates.
Proof.
  unfold scored_candidates. revert dvs.
  induction candidates as [|c candidates IH]; intros [|v dvs]; cbn.
  - done.
  - done.
  - apply sublist_nil_l.
  - apply sublist_skip, IH.
Qed.

Lemma rerank_submseteq embed query candidates top_n result :
  rerank embed query candidates top_n = Returned result →
  result ⊆+ candidates.
Proof.
  unfold rerank. destruct candidates as [|c candidates]; cbn [nonempty].
  { by intros [= <-]. }
  destruct (embed _) as [[|qv dvs]|e]; cbn [bind]; [done| |done].
  intros [= <-].
  set (scored := scored_candidates qv (c :: candidates) dvs).
  transitivity (map snd (sort_desc scored)).
  - apply sublist_submseteq. change (map snd ?l) with (snd <$> l).
    apply fmap_sublist, py_slice_to_sublist.
  - transitivity (map snd scored).
    + change (map snd ?l) with (snd <$> l).
      by rewrite (sort_desc_perm scored).
    + apply sublist_submseteq, scored_candidates_sublist.
Qed.

(** X12: whatever the provider returns and whatever [top_n] is (it may
    be negative), [rerank] only selects and reorders: its result, with
    the candidates it left out, is a rearrangement of [candidates]. No
    candidate is invented or returned twice. *)
Theorem rerank_selects_and_reorders embed query candidates top_n result :
  rerank embed query candidates top_n = Returned result →
  ∃ left_out, Permutation (result ++ left_out) candidates.
Proof.
  intros Hres%rerank_submseteq.
  apply submseteq_Permutation in Hres as [left_out Hperm].
  by exists left_out.
Qed.

Lemma rerank_selects_and_reorders_witness :
  ∃ left_out,
    Permutation
      ([sample_hit "east"; sample_hit "ne"] ++ left_out)
      [sample_hit "north"; sample_hit "east"; sample_hit "ne"].
Proof.
  apply (rerank_selects_and_reorders sample_embed "east"
           [sample_hit "north"; sample_hit "east"; sample_hit "ne"] 2).
  by vm_compute.
Defined.

(** X13: [rerank] raises exactly when there are candidates and the
    provider raises (the same exception) or returns no vector at all
    ([IndexError]); without candidates it returns the empty list and the
    provider is not consulted. *)
Theorem rerank_raises_iff embed query candidates top_n :
  (candidates = [] → rerank embed query candidates top_n = Returned []) ∧
  ∀ e, rerank embed query candidates top_n = Raised e ↔
       candidates ≠ [] ∧
       (embed (query :: map sr_text candidates) = Raised e ∨
        (embed (query :: map sr_text candidates) = Returned [] ∧
         e = "IndexError")).
Proof.
  split; [by intros ->|]. intros e. unfold rerank.
  destruct candidates as [|c candidates]; cbn [nonempty].
  { split; [done|by intros [? _]]. }
  destruct (embed _) as [[|qv dvs]|e']; cbn [bind].
  - split; [intros [= <-]; split; [done|by right]|].
    intros [_ [?|[_ ->]]]; done.
  - split; [done|]. intros [_ [?|[? _]]]; done.
  - split; [intros [= ->]; split; [done|by left]|].
    intros [_ [[= ->]|[? _]]]; done.
Qed.

(** When the provider keeps its contract (one vector per text), the
    number of candidates returned is [min(top_n, len(candidates))]. *)
Lemma rerank_returns_min embed query candidates top_n vectors :
  0 ≤ top_n →
  embed (query :: map sr_text candidates) = Returned vectors →
  length vectors = S (length candidates) →
  ∃ result, rerank embed query candidates top_n = Returned result ∧
            Z.of_nat (length result) = Z.min top_n (Z.of_nat (length candidates)).
Proof.
  intros Hn Hembed Hlen. unfold rerank.
  destruct candidates as [|c candidates]; cbn [nonempty].
  { exists []. split; [done|]. cbn. lia. }
  rewrite Hembed. cbn [bind]. destruct vectors as [|qv dvs]; [done|].
  injection Hlen as Hlen. eexists. split; [done|].
  unfold py_slice_to. apply Z.leb_le in Hn as Hn'. rewrite Hn'.
  rewrite length_map, length_take, sort_desc_length, scored_candidates_zip.
  rewrite length_zip_same by (by rewrite length_map). lia.
Qed.
(* ===================================================================== *)
(** * More properties of the grounding assembler *)
(* ===================================================================== *)

(** X14: the pack is built, in order, from a subsequence of the
    candidates, of at most [max(1, max_chunks)] of them: the assembler
    never reorders and never invents, and it holds at most [max_chunks]
    entries whenever [max_chunks] is at least one. *)
Theorem build_grounding_pack_subsequence candidates max_chunks diversify :
  ∃ kept, sublist kept candidates ∧
          build_grounding_pack candidates max_chunks diversify
          = map grounding_of kept ∧
          Z.of_nat (length kept) ≤ Z.max 1 max_chunks.
Proof.
  destruct (build_grounding_pack_order candidates max_chunks diversify)
    as (kept & Hsub & Heq).
  exists kept. split; [done|]. split; [done|].
  pose proof (build_grounding_pack_length candidates max_chunks diversify) as Hlen.
  by rewrite Heq, length_map in Hlen.
Qed.

(** Without diversification the loop keeps the first candidate of each
    key until the pack is full. *)
Lemma pack_loop_plain max_chunks candidates st :
  stopped st = false →
  pack st = [] ∨ Z.of_nat (length (pack st)) < max_chunks →
  pack (pack_loop max_chunks false candidates st)
  = pack st
    ++ map grounding_of
         (take (Z.to_nat (Z.max 1 max_chunks) - length (pack st))
               (first_of_each_key candidates (seen st))).
Proof.
  revert st. induction candidates as [|c candidates IH]; intros st Hrun Hroom.
  - cbn. by rewrite take_nil, app_nil_r.
  - cbn [pack_loop fold_left first_of_each_key].
    change (fold_left (pack_step max_chunks false) ?l ?s)
      with (pack_loop max_chunks false l s).
    unfold pack_step. rewrite Hrun. unfold pack_body.
    destruct (decide (candidate_key c ∈ seen st)) as [Hdup|Hnew].
    + by apply IH.
    + cbn [andb].
      set (st' := {| seen := seen st ∪ {[candidate_key c]};
                     per_doc_counts := per_doc_counts st;
                     pack := pack st ++ [grounding_of c];
                     stopped := max_chunks <=?
                                Z.of_nat (length (pack st ++ [grounding_of c])) |}).
      assert (Hlen : (length (pack st) < Z.to_nat (Z.max 1 max_chunks))%nat).
      { destruct Hroom as [Hnil|Hlt]; [rewrite Hnil|]; cbn [length]; lia. }
      destruct (stopped st') eqn:Hstop.
      * rewrite pack_loop_stopped by done. unfold st' in *. cbn [pack stopped] in *.
        apply Z.leb_le in Hstop. rewrite length_app in Hstop. cbn [length] in Hstop.
        replace (Z.to_nat (Z.max 1 max_chunks) - length (pack st))%nat with 1%nat.
        -- cbn [take map]. by rewrite take_0.
        -- destruct Hroom as [Hnil|Hlt]; [rewrite Hnil in *|];
             cbn [length] in *; lia.
      * rewrite IH; [|done|].
        -- unfold st' in *. cbn [pack stopped seen] in *.
           apply Z.leb_gt in Hstop. rewrite length_app in Hstop |- *.
           cbn [length] in Hstop |- *. rewrite <- app_assoc. cbn [app].
           replace (Z.to_nat (Z.max 1 max_chunks) - length (pack st))%nat
             with (S (Z.to_nat (Z.max 1 max_chunks) - (length (pack st) + 1)))%nat
             by lia.
           done.
        -- right. unfold st' in *. cbn [pack stopped] in *.
           by apply Z.leb_gt in Hstop.
Qed.

(** X15: without diversification the pack is exactly the first
    [max(1, max_chunks)] candidates among those that are the first to
    carry their key. *)
Theorem build_grounding_pack_plain candidates max_chunks :
  build_grounding_pack candidates max_chunks false
  = map grounding_of
      (take (Z.to_nat (Z.max 1 max_chunks)) (first_of_each_key candidates ∅)).
Proof.
  unfold build_grounding_pack.
  rewrite pack_loop_plain by (first [reflexivity | by left]).
  cbn [pack pack_init seen app length]. by rewrite Nat.sub_0_r.
Qed.
(* ===================================================================== *)
(** * More properties of the retriever *)
(* ===================================================================== *)

(** ** All the records, or an exception *)

Lemma for_each_returned {A B : Type} (f : A → outcome B) xs ys :
  for_each f xs = Returned ys ↔ Forall2 (λ x y, f x = Returned y) xs ys.
Proof.
  revert ys. induction xs as [|x xs IH]; intros ys; cbn [for_each].
  - split; [intros [= <-]; constructor|by intros ->%Forall2_nil_inv_l].
  - split.
    + destruct (f x) as [y|e] eqn:Hx; cbn [bind]; [|done].
      destruct (for_each f xs) as [ys'|e]; cbn [bind]; [|done].
      intros [= <-]. constructor; [done|]. by apply IH.
    + intros (y & ys' & Hy & Hys & ->)%Forall2_cons_inv_l.
      rewrite Hy. cbn [bind]. apply IH in Hys. by rewrite Hys.
Qed.

Lemma for_each_raised {A B : Type} (f : A → outcome B) xs :
  (∃ e, for_each f xs = Raised e) ↔ ∃ x e, x ∈ xs ∧ f x = Raised e.
Proof.
  induction xs as [|x xs IH]; cbn [for_each].
  - split; [by intros [e ?]|by intros (x & e & ?%elem_of_nil & _)].
  - destruct (f x) as [y|e] eqn:Hx; cbn [bind].
    + destruct (for_each f xs) as [ys|e]; cbn [bind].
      * split; [by intros [e ?]|].
        intros (x' & e & [->|Hin]%elem_of_cons & Hraise); [congruence|].
        destruct (proj2 IH) as [e' He']; [by exists x', e|done].
      * split; [|by exists e]. intros _.
        destruct (proj1 IH) as (x' & e' & Hin & Hraise); [by exists e|].
        exists x', e'. split; [by apply list_elem_of_further|done].
    + split; [|by exists e]. intros _.
      exists x, e. split; [apply list_elem_of_here|done].
Qed.

(** X16: normalisation has no partial success. It returns exactly when
    the payload yields its items and every item normalises, with one
    candidate per item, in order; and it raises exactly when the items
    cannot be drawn (the payload is no object, or its ["value"] cannot
    be iterated) or some item raises. *)
Theorem normalize_payload_all_or_nothing
    json_loads float_of_int float_of_str payload :
  (∀ results,
     normalize_payload json_loads float_of_int float_of_str payload
     = Returned results ↔
     ∃ items,
       payload_items payload = Returned items ∧
       Forall2 (λ item r, normalize_item json_loads float_of_int float_of_str item
                          = Returned r)
               items results) ∧
  ((∃ e, normalize_payload json_loads float_of_int float_of_str payload = Raised e) ↔
   (∃ e, payload_items payload = Raised e) ∨
   ∃ items item e,
     payload_items payload = Returned items ∧ item ∈ items ∧
     normalize_item json_loads float_of_int float_of_str item = Raised e).
Proof.
  unfold normalize_payload.
  destruct (payload_items payload) as [items|e0]; cbn [bind]; split.
  - intros results. rewrite for_each_returned. split; [by exists items|].
    by intros (items' & [= <-] & ?).
  - rewrite for_each_raised. split.
    + intros (item & e & Hin & Hraise). right. by exists items, item, e.
    + intros [[e ?]|(items' & item & e & [= <-] & Hin & Hraise)]; [done|].
      by exists item, e.
  - intros results. split; [done|]. by intros (items & ? & _).
  - split; [intros _; left; by exists e0|intros _; by exists e0].
Qed.

(** X17: a record whose [@search.score] is [null], a list or an object
    is not absorbed: [float] raises on it (if nothing raises before),
    and the whole query fails. *)
Theorem normalize_payload_score_not_a_number
    json_loads float_of_int float_of_str payload items raw :
  payload_items payload = Returned items →
  RawObject raw ∈ items →
  match raw_score raw with
  | Some JNull | Some (JList _) | Some (JObj _) => True
  | _ => False
  end →
  ∃ e, normalize_payload json_loads float_of_int float_of_str payload = Raised e.
Proof.
  intros Hitems Hin Hscore. unfold normalize_payload. rewrite Hitems. cbn [bind].
  apply for_each_raised. exists (RawObject raw). cbn [normalize_item].
  unfold normalize_record.
  destruct (metadata_of json_loads raw) as [m|e]; cbn [bind];
    [|by exists e].
  destruct (highlight_of raw) as [h|e]; cbn [bind]; [|by exists e].
  destruct (raw_score raw) as [[| | | | | |]|]; try done;
    cbn; by eexists.
Qed.

Lemma normalize_payload_score_not_a_number_witness :
  ∃ e, normalize_payload only_empty_object (λ _, None) (λ _, None)
         (PayloadObject
            (Some (ValueItems
               [RawObject sparse_record;
                RawObject
                  {| raw_id := Some "SOP-7:B:0002"; raw_doc_id := Some "SOP-7";
                     raw_rev := None; raw_text := None;
                     raw_score := Some (JList []); raw_section_path := None;
                     raw_page_start := None; raw_page_end := None;
                     raw_source_url := None; raw_allowed_groups := None;
                     raw_metadata_json := None; raw_highlights := None |}])))
       = Raised e.
Proof.
  eapply (normalize_payload_score_not_a_number
            only_empty_object (λ _, None) (λ _, None)).
  - reflexivity.
  - apply list_elem_of_further, list_elem_of_here.
  - exact I.
Defined.

(** ** The request body *)

(** X18: whatever the groups, the body carries the query text, [top_k]
    as ["top"], the joined select fields and the flag; and it carries
    ["queryType": "semantic"] and ["semanticConfiguration"] exactly when
    a non-empty semantic configuration is set. The filter and the
    semantic configuration do not disturb one another. *)
Theorem request_body_members self query user_groups top_k vector :
  let body := request_body self query user_groups top_k vector in
  let semantic :=
    match _semantic_configuration self with
    | Some name => if String.eqb name "" then None else Some name
    | None => None
    end in
  dict_get "search" body = Some (JStr query) ∧
  dict_get "top" body = Some (JInt top_k) ∧
  dict_get "select" body = Some (JStr (py_join "," (_select_fields self))) ∧
  dict_get "includeTotalResultCount" body = Some (JBool false) ∧
  dict_get "vectors" body
  = Some (JList [JObj [("value", JList (map JFloat vector));
                       ("fields", JStr (_vector_field self));
                       ("k", JInt top_k)]]) ∧
  dict_get "filter" body = option_map JStr (_filter_for_groups user_groups) ∧
  dict_get "queryType" body = option_map (λ _, JStr "semantic") semantic ∧
  dict_get "semanticConfiguration" body = option_map JStr semantic.
Proof.
  intros body semantic.
  split; [|split; [|split; [|split; [|split; [|split;
    [apply dict_get_request_body_filter|]]]]]];
    unfold body, semantic, request_body;
    destruct (_filter_for_groups user_groups) as [clause|];
    try destruct (String.eqb clause "");
    destruct (_semantic_configuration self) as [name|];
    try destruct (String.eqb name ""); done.
Qed.

(** ** [retrieve] *)

(** X19: [retrieve] raises exactly when the embedding provider raises,
    or returns no vector ([IndexError]), or the round trip to the
    backend raises, or the normalisation of the payload raises; the
    exception is passed on unchanged, and nothing is retried. *)
Theorem retrieve_raises_iff
    json_loads float_of_int float_of_str embed post self query user_groups top_k e :
  retrieve json_loads float_of_int float_of_str embed post
           self query user_groups top_k = Raised e ↔
  embed [query] = Raised e ∨
  (embed [query] = Returned [] ∧ e = "IndexError") ∨
  ∃ vector others,
    embed [query] = Returned (vector :: others) ∧
    let url := "/indexes/" +:+ index_name self
               +:+ "/docs/search?api-version=2023-11-01" in
    let body := request_body self query user_groups top_k vector in
    post url body = Raised e ∨
    ∃ payload, post url body = Returned payload ∧
               normalize_payload json_loads float_of_int float_of_str payload
               = Raised e.
Proof.
  unfold retrieve. destruct (embed [query]) as [[|vector others]|e0]; cbn [bind].
  - split; [intros [= <-]; right; by left|].
    intros [?|[[_ ->]|(? & ? & ? & _)]]; done.
  - destruct (post _ _) as [value|e1] eqn:Hpost; cbn [bind].
    + split.
      * intros Hnorm. right; right. exists vector, others. split; [done|].
        cbv zeta. right. exists value. by rewrite Hpost.
      * intros [?|[[? _]|(v & o & [= <- <-] & Hcase)]]; [done|done|].
        cbv zeta in Hcase. rewrite Hpost in Hcase.
        destruct Hcase as [?|(value' & [= <-] & ?)]; done.
    + split.
      * intros [= <-]. right; right. exists vector, others. split; [done|].
        cbv zeta. left. by rewrite Hpost.
      * intros [?|[[? _]|(v & o & [= <- <-] & Hcase)]]; [done|done|].
        cbv zeta in Hcase. rewrite Hpost in Hcase.
        destruct Hcase as [[= ->]|(value' & ? & ?)]; done.
  - split; [intros [= ->]; by left|].
    intros [[= ->]|[[? _]|(? & ? & ? & _)]]; done.
Qed.
(* ===================================================================== *)
(** * Properties of [iter_text_blocks] *)
(* ===================================================================== *)

(** X20: [iter_text_blocks] yields, in document order, exactly the
    blocks with a non-empty text whose kind is in [kinds]; an empty set
    of kinds restricts nothing, like [None]. *)
Theorem iter_text_blocks_yields blocks kinds :
  sublist (iter_text_blocks blocks kinds) blocks ∧
  (∀ b, b ∈ iter_text_blocks blocks kinds ↔
        b ∈ blocks ∧ text b ≠ "" ∧
        ∀ ks, kinds = Some ks → ks ≠ ∅ → kind b ∈ ks) ∧
  iter_text_blocks blocks (Some ∅) = iter_text_blocks blocks None.
Proof.
  split; [|split].
  - induction blocks as [|b blocks IH]; [done|]. cbn [iter_text_blocks].
    destruct (_ && _); [by apply sublist_cons|].
    destruct (String.eqb (text b) ""); [by apply sublist_cons|by apply sublist_skip].
  - induction blocks as [|b blocks IH]; intros b'.
    { split; [by intros ?%elem_of_nil|by intros [?%elem_of_nil _]]. }
    cbn [iter_text_blocks].
    assert (Hkind :
      (match kinds with
       | Some ks => negb (bool_decide (ks = ∅))
       | None => false
       end && negb (bool_decide (kind b ∈ default ∅ kinds))) = false ↔
      ∀ ks, kinds = Some ks → ks ≠ ∅ → kind b ∈ ks).
    { destruct kinds as [ks|]; cbn [default from_option id andb].
      - rewrite andb_false_iff, !negb_false_iff, !bool_decide_eq_true. split.
        + intros [Hempty|Hin] ks' [= <-] Hne; done.
        + intros H. destruct (decide (ks = ∅)); [by left|right; by apply H].
      - split; [by intros _ ks ?|done]. }
    destruct (_ && _) eqn:Hfilter.
    + rewrite IH, elem_of_cons. split; [tauto|].
      intros ([->|Hin] & Htext & Hks); [|tauto].
      apply Hkind in Hks. congruence.
    + destruct (String.eqb_spec (text b) "") as [Hempty|Htext].
      * rewrite IH, elem_of_cons. split; [tauto|].
        intros ([->|Hin] & Htext & Hks); [done|tauto].
      * rewrite !elem_of_cons, IH. split.
        -- intros [->|?]; [|tauto]. split; [by left|]. split; [done|].
           by apply Hkind.
        -- tauto.
  - induction blocks as [|b blocks IH]; [done|]. cbn [iter_text_blocks].
    rewrite bool_decide_eq_true_2 by done. cbn [negb andb]. by rewrite IH.
Qed.

(* ===================================================================== *)
(** * Properties of the mock embedding provider *)
(* ===================================================================== *)

Lemma py_repeat_length {A : Type} (xs : list A) (n : Z) :
  length (py_repeat xs n) = (Z.to_nat n * length xs)%nat.
Proof.
  unfold py_repeat. induction (Z.to_nat n) as [|k IH]; [done|].
  simpl. rewrite length_app. simpl in IH. rewrite IH. lia.
Qed.

Lemma byte_as_fraction (b : Byte.byte) :
  PrimFloat.leb 0%float (PrimFloat.div (float_of_N (Byte.to_N b)) 255%float) = true ∧
  PrimFloat.leb (PrimFloat.div (float_of_N (Byte.to_N b)) 255%float) 1%float = true.
Proof. destruct b; split; vm_compute; reflexivity. Qed.

Lemma mock_vector_shape dim digest :
  length digest = 32%nat →
  length (mock_vector dim digest) = Z.to_nat dim ∧
  ∀ x, x ∈ mock_vector dim digest →
       PrimFloat.leb 0%float x = true ∧ PrimFloat.leb x 1%float = true.
Proof.
  intros Hlen. unfold mock_vector. rewrite Hlen. split.
  - rewrite length_map. change (Z.of_nat 32) with 32. unfold py_slice_to.
    destruct (Z.leb_spec 0 dim) as [Hn|Hn].
    + rewrite length_take, py_repeat_length, Hlen.
      assert (dim ≤ 32 * ((dim + 32 - 1) / 32))
        by (Z.to_euclidean_division_equations; lia).
      lia.
    + rewrite length_take, py_repeat_length, Hlen.
      assert ((dim + 32 - 1) / 32 ≤ 0)
        by (Z.to_euclidean_division_equations; lia).
      lia.
  - intros x Hx. change (map ?f ?l) with (f <$> l) in Hx.
    apply list_elem_of_fmap in Hx as (b & -> & _). apply byte_as_fraction.
Qed.

(** The texts all encode. *)
Lemma mock_embed_returns encode sha256 dim texts :
  (∀ data, length (sha256 data) = 32%nat) →
  Forall (λ t, ∃ data, encode t = Returned data) texts →
  ∃ vectors,
    mock_embed encode sha256 dim texts = Returned vectors ∧
    Forall2 (λ t v, ∃ data, encode t = Returned data ∧
                            v = mock_vector dim (sha256 data))
            texts vectors.
Proof.
  intros Hlen. unfold mock_embed.
  induction 1 as [|t texts [data Ht] _ (vectors & IH & Hall)].
  - exists []. split; [done|constructor].
  - exists (mock_vector dim (sha256 data) :: vectors).
    cbn [for_each]. rewrite Ht, IH. cbn [bind].
    pose proof (Hlen data) as Hd.
    destruct (sha256 data) eqn:Hsha; [done|]. cbn [nonempty bind].
    split; [done|]. constructor; [|done]. exists data. by rewrite Hsha.
Qed.

(** An exception of the provider is one of [encode]. *)
Lemma mock_embed_raised encode sha256 dim texts e :
  (∀ data, length (sha256 data) = 32%nat) →
  mock_embed encode sha256 dim texts = Raised e →
  ∃ t, t ∈ texts ∧ encode t = Raised e.
Proof.
  intros Hlen. unfold mock_embed.
  induction texts as [|t texts IH]; [done|]. cbn [for_each].
  destruct (encode t) as [data|e0] eqn:Ht; cbn [bind].
  - pose proof (Hlen data) as Hd.
    destruct (sha256 data); [done|]. cbn [nonempty bind].
    destruct (for_each _ texts) as [vectors|e1]; cbn [bind]; [done|].
    intros [= ->]. destruct (IH eq_refl) as (t' & Hin & Hraise).
    exists t'. split; [by apply list_elem_of_further|done].
  - intros [= ->]. exists t. split; [apply list_elem_of_here|done].
Qed.





(* ===================================================================== *)
(** * Properties of the settings loader *)
(* ===================================================================== *)

Lemma _env_or_resolved environ key from_file :
  _env_or environ key from_file
  = match resolved environ key from_file with
    | Some value => Returned value
    | None => Raised "RuntimeError"
    end.
Proof.
  unfold _env_or, resolved.
  destruct (environ !! _); [done|]. by destruct from_file.
Qed.

(** X23: [_load_azure_search] resolves each of its three keys from the
    environment first (a variable that is set wins, also when it is
    empty) and from the file otherwise. A key that is set nowhere makes
    it raise [RuntimeError]; it returns [None] only when all three keys
    are set and one of them is the empty string; otherwise it returns
    the three resolved values. *)
Theorem load_azure_search_outcomes environ cfg :
  let endpoint := resolved environ "AZURE_SEARCH__ENDPOINT" (cfg_endpoint cfg) in
  let api_key := resolved environ "AZURE_SEARCH__API_KEY" (cfg_api_key cfg) in
  let index := resolved environ "AZURE_SEARCH__INDEX_NAME" (cfg_index_name cfg) in
  match _load_azure_search environ cfg with
  | Raised e =>
      e = "RuntimeError" ∧ (endpoint = None ∨ api_key = None ∨ index = None)
  | Returned None =>
      ∃ a b c, endpoint = Some a ∧ api_key = Some b ∧ index = Some c ∧
               (a = "" ∨ b = "" ∨ c = "")
  | Returned (Some settings) =>
      endpoint = Some (as_endpoint settings) ∧
      api_key = Some (as_api_key settings) ∧
      index = Some (as_index_name settings) ∧
      as_endpoint settings ≠ "" ∧ as_api_key settings ≠ "" ∧
      as_index_name settings ≠ ""
  end.
Proof.
  intros endpoint api_key index. unfold _load_azure_search.
  rewrite !_env_or_resolved. fold endpoint api_key index.
  destruct endpoint as [a|]; cbn [bind]; [|split; [done|by left]].
  destruct api_key as [b|]; cbn [bind]; [|split; [done|right; by left]].
  destruct index as [c|]; cbn [bind]; [|split; [done|right; by right]].
  cbn [forallb].
  destruct (String.eqb_spec a "") as [->|Ha]; cbn [negb andb].
  { exists "", b, c. repeat split. by left. }
  destruct (String.eqb_spec b "") as [->|Hb]; cbn [negb andb].
  { exists a, "", c. repeat split. right; by left. }
  destruct (String.eqb_spec c "") as [->|Hc]; cbn [negb andb].
  { exists a, b, "". repeat split. right; by right. }
  by repeat split.
Qed.

(* ===================================================================== *)
(** * Properties of the [query] command *)
(* ===================================================================== *)

(** X24: every entry of the pack that [query] prints is built from a
    retrieved candidate, and, when reranking is on, from one of the
    first [max(1, min(max_to_score, len(results)))] candidates: what
    lies beyond the reranking depth never reaches the pack. The pack
    holds at most [max(1, n)] entries, where [n] is [final_chunks], or
    the configured default when [final_chunks] is missing or zero. *)
Theorem query_pack_from_pool
    embed retrieval rerank_settings query_text final_chunks disable_rerank
    results pack :
  query_pack embed retrieval rerank_settings query_text final_chunks
             disable_rerank results = Returned pack →
  let depth := Z.min (max_to_score rerank_settings) (Z.of_nat (length results)) in
  let pool := if enabled rerank_settings && negb disable_rerank
              then take (Z.to_nat (Z.max 1 depth)) results
              else results in
  (∀ g, g ∈ pack → ∃ c, c ∈ pool ∧ g = grounding_of c) ∧
  Z.of_nat (length pack)
  ≤ Z.max 1 (int_or final_chunks (final_context_chunks retrieval)).
Proof.
  intros Hpack depth pool. unfold query_pack in Hpack.
  set (reranked := if enabled rerank_settings && negb disable_rerank
                   then _ else _) in Hpack.
  destruct reranked as [kept_candidates|e] eqn:Hrr; cbn [bind] in Hpack; [|done].
  injection Hpack as <-. split; [|apply build_grounding_pack_length].
  assert (Hpool : ∀ c, c ∈ kept_candidates → c ∈ pool).
  { intros c Hc. unfold reranked, pool in *.
    destruct (enabled rerank_settings && negb disable_rerank).
    - apply rerank_submseteq in Hrr. rewrite take_top_n_as_take in Hrr.
      by eapply elem_of_submseteq.
    - by injection Hrr as <-. }
  intros g Hg.
  destruct (build_grounding_pack_order kept_candidates
              (int_or final_chunks (final_context_chunks retrieval)) true)
    as (kept & Hsub & Heq).
  rewrite Heq in Hg. change (map ?f ?l) with (f <$> l) in Hg.
  apply list_elem_of_fmap in Hg as (c & -> & Hc).
  exists c. split; [|done]. apply Hpool. by eapply elem_of_sublist.
Qed.

Lemma query_pack_from_pool_witness :
  let results := [sample_hit "north"; sample_hit "east"; sample_hit "ne"] in
  let rerank_on := {| enabled := true; max_to_score := 2 |} in
  let retrieval := {| candidate_k := 60; final_context_chunks := 12;
                      semantic_configuration := None |} in
  let pack := [grounding_of (sample_hit "east")] in
  query_pack sample_embed retrieval rerank_on "east" (Some 0) false results
  = Returned pack ∧
  (∀ g, g ∈ pack → ∃ c, c ∈ take 2 results ∧ g = grounding_of c) ∧
  Z.of_nat (length pack) ≤ 12.
Proof.
  intros results rerank_on retrieval pack.
  assert (Hrun : query_pack sample_embed retrieval rerank_on "east" (Some 0)
                   false results = Returned pack) by (by vm_compute).
  split; [exact Hrun|].
  exact (query_pack_from_pool sample_embed retrieval rerank_on "east" (Some 0)
           false results pack Hrun).
Defined.

(* ===================================================================== *)
(** * Properties of the indexer *)
(* ===================================================================== *)

(** X25: the indexer writes every field that the retriever selects by
    default, under the same name, and the embedding under the
    retriever's default vector field; the identifier of the chunk is
    stored under ["id"] and its metadata, serialised, under
    ["metadata_json"]. *)
Theorem index_action_feeds_retriever
    (datetime : Type) (isoformat : datetime → string)
    (json_dumps : ChunkMetadata → string) (chunk : EmbeddedChunk datetime) :
  let action := index_action datetime isoformat json_dumps chunk in
  (∀ field, field ∈ default_select_fields → is_Some (dict_get field action)) ∧
  dict_get default_vector_field action
  = Some (JList (map JFloat (embedding chunk))) ∧
  dict_get "id" action = Some (JStr (ch_chunk_id (ec_chunk chunk))) ∧
  dict_get "metadata_json" action
  = Some (JStr (json_dumps (ch_metadata (ec_chunk chunk)))).
Proof.
  intros action. split; [|by repeat split].
  intros field Hfield. unfold default_select_fields in Hfield.
  repeat (apply elem_of_cons in Hfield as [->|Hfield]; [by eexists|]).
  by apply elem_of_nil in Hfield.
Qed.
